(** * github-proxy: the request handler of cmd/github-proxy/github-proxy.go

    A shallow embedding of the proxy's HTTP handler (the closure passed to
    [http.HandlerFunc] in [main]), of the configuration callback that
    publishes the authenticator, and of the Go library functions whose
    behaviour the handler's properties depend on (strconv.Atoi, net/url's
    query parsing and encoding, net/http's header map, ResponseWriter and
    http.Error, io.Copy and ioutil.ReadAll, the conversion of an int to a
    float64).

    Layout: definitions first (library models, the handler as a program
    tree, its sequential interpreter, the goroutine-pool semantics, and the
    operations of the UserEmail component of the web client), then the
    lemmas and theorems. *)

From Stdlib Require Import ZArith Ascii String SpecFloat.
From stdpp Require Import gmap strings list fin_maps pretty sorting.

Local Open Scope Z_scope.

(* ===================================================================== *)
(** * Bytes and strings (Go strings are byte sequences) *)
(* ===================================================================== *)

Definition byte_val (c : ascii) : Z := Z.of_N (N_of_ascii c).

Definition byte_of (z : Z) : ascii := ascii_of_N (Z.to_N (z mod 256)).

(** c in ['lo','hi'] on byte values. *)
Definition byte_between (lo hi : Z) (c : ascii) : bool :=
  (lo <=? byte_val c) && (byte_val c <=? hi).

Definition is_lower (c : ascii) : bool := byte_between 97 122 c.
Definition is_upper (c : ascii) : bool := byte_between 65 90 c.
Definition is_digit (c : ascii) : bool := byte_between 48 57 c.

(** The double quote character, and the line feed. *)
Definition dquote : string := String "034"%char EmptyString.
Definition newline : string := String "010"%char EmptyString.

Fixpoint string_forallb (f : ascii -> bool) (s : string) : bool :=
  match s with
  | EmptyString => true
  | String c r => f c && string_forallb f r
  end.

(** strings.ToLower on ASCII letters. *)
Definition lower_byte (c : ascii) : ascii :=
  if is_upper c then byte_of (byte_val c + 32) else c.

Fixpoint ToLower (s : string) : string :=
  match s with
  | EmptyString => EmptyString
  | String c r => String (lower_byte c) (ToLower r)
  end.

(** strings.HasPrefix(s, prefix) *)
Definition HasPrefix (s prefix : string) : bool := String.prefix prefix s.

(** strings.Join(elems, sep) *)
Fixpoint Join (elems : list string) (sep : string) : string :=
  match elems with
  | [] => ""
  | [x] => x
  | x :: rest => x +:+ sep +:+ Join rest sep
  end.

(* ===================================================================== *)
(** * strconv.Atoi on a 64-bit platform *)
(* ===================================================================== *)

Module Strconv.

Inductive NumError := ErrSyntax | ErrRange.

Definition maxUint64 : Z := 18446744073709551615.
Definition maxInt64 : Z := 9223372036854775807.
Definition minInt64 : Z := -9223372036854775808.

(** The fast path of Atoi: [for _, ch := range []byte(s)] with
    [ch -= '0'] computed on bytes (wrapping) and [ch > 9] rejected. *)
Fixpoint atoi_fast_loop (s : string) (n : Z) : option Z :=
  match s with
  | EmptyString => Some n
  | String ch r =>
      let d := (byte_val ch - 48) mod 256 in
      if 9 <? d then None else atoi_fast_loop r (n * 10 + d)
  end.

Definition atoi_fast (s0 : string) : Z * option NumError :=
  match s0 with
  | EmptyString => (0, Some ErrSyntax)
  | String c0 r0 =>
      let signed := Ascii.eqb c0 "-" || Ascii.eqb c0 "+" in
      let s := if signed then r0 else s0 in
      if signed && (String.length s <? 1)%nat then (0, Some ErrSyntax)
      else
        match atoi_fast_loop s 0 with
        | None => (0, Some ErrSyntax)
        | Some n => (if Ascii.eqb c0 "-" then - n else n, None)
        end
  end.

(** The digit loop of ParseUint(s, 10, 64): a byte that is not a decimal
    digit is a syntax error, an overflow is a range error that returns at
    once with the maximal value, without looking at the rest of [s]. *)
Fixpoint parseUint_loop (s : string) (n : Z) : Z * option NumError :=
  match s with
  | EmptyString => (n, None)
  | String c r =>
      if negb (is_digit c) then (0, Some ErrSyntax)
      else
        let d := byte_val c - 48 in
        if maxUint64 / 10 + 1 <=? n then (maxUint64, Some ErrRange)
        else
          let n10 := (n * 10) mod 2 ^ 64 in
          let n1 := (n10 + d) mod 2 ^ 64 in
          if (n1 <? n10) || (maxUint64 <? n1) then (maxUint64, Some ErrRange)
          else parseUint_loop r n1
  end.

Definition ParseUint (s : string) : Z * option NumError :=
  match s with
  | EmptyString => (0, Some ErrSyntax)
  | _ => parseUint_loop s 0
  end.

(** ParseInt(s, 10, 0) with IntSize = 64. *)
Definition ParseInt (s0 : string) : Z * option NumError :=
  match s0 with
  | EmptyString => (0, Some ErrSyntax)
  | String c0 r0 =>
      let neg := Ascii.eqb c0 "-" in
      let s := if Ascii.eqb c0 "+" || neg then r0 else s0 in
      match ParseUint s with
      | (_, Some ErrSyntax) => (0, Some ErrSyntax)
      | (un, _) =>
          let cutoff := 2 ^ 63 in
          if negb neg && (cutoff <=? un) then (cutoff - 1, Some ErrRange)
          else if neg && (cutoff <? un) then (- cutoff, Some ErrRange)
          else (if neg then - un else un, None)
      end
  end.

(** Atoi: fast path for 0 < len(s) < 19, ParseInt otherwise. *)
Definition Atoi (s : string) : Z * option NumError :=
  let sLen := String.length s in
  if (0 <? sLen)%nat && (sLen <? 19)%nat then atoi_fast s else ParseInt s.

(** An optionally signed, non-empty sequence of decimal digits. *)
Definition decimal_syntax (s : string) : bool :=
  match s with
  | EmptyString => false
  | String c0 r0 =>
      let s' := if Ascii.eqb c0 "-" || Ascii.eqb c0 "+" then r0 else s in
      negb (String.eqb s' "") && string_forallb is_digit s'
  end.

(** The number a string of decimal digits denotes, continuing from
    [acc]. *)
Fixpoint digits_value (s : string) (acc : Z) : Z :=
  match s with
  | EmptyString => acc
  | String c r => digits_value r (acc * 10 + (byte_val c - 48))
  end.

(** The integer an optionally signed string of decimal digits denotes. *)
Definition decimal_value (s : string) : Z :=
  match s with
  | EmptyString => 0
  | String c0 r0 =>
      if Ascii.eqb c0 "-" then - digits_value r0 0
      else if Ascii.eqb c0 "+" then digits_value r0 0
      else digits_value s 0
  end.

End Strconv.

(* ===================================================================== *)
(** * float64: the conversion of an int *)
(* ===================================================================== *)

(** A float64 is a binary64 number of IEEE 754, in the Standard Library's
    specification of floating-point numbers: 53 bits of precision,
    exponents below 1024. *)
Definition float64_prec : Z := 53.
Definition float64_emax : Z := 1024.

(** The conversion [float64(n)] of an int: the nearest float64, ties to
    the even mantissa. *)
Definition float64 (n : Z) : spec_float :=
  binary_normalize float64_prec float64_emax n 0 false.

(** The integer a float64 is, when it is one. *)
Definition float64_integer (x : spec_float) : option Z :=
  match x with
  | S754_zero _ => Some 0
  | S754_finite s m e =>
      if 0 <=? e then Some (cond_Zopp s (Zpos m * 2 ^ e))
      else if Zpos m mod 2 ^ (- e) =? 0 then Some (cond_Zopp s (Zpos m / 2 ^ (- e)))
      else None
  | _ => None
  end.

(* ===================================================================== *)
(** * net/textproto and net/http headers *)
(* ===================================================================== *)

Module Header.

(** http.Header is map[string][]string. *)
Abbreviation t := (gmap string (list string)).

(** The token bytes of RFC 7230 (textproto's isTokenTable). *)
Definition validHeaderFieldByte (c : ascii) : bool :=
  is_lower c || is_upper c || is_digit c ||
  existsb (Ascii.eqb c)
    ["!"; "#"; "$"; "%"; "&"; "'"; "*"; "+"; "-"; "."; "^"; "_"; "`"; "|"; "~"]%char.

Definition toLower : Z := 32.

(** The canonicalising loop: upper case at the start and after each dash,
    lower case elsewhere. *)
Fixpoint canonical_loop (upper : bool) (a : string) : string :=
  match a with
  | EmptyString => EmptyString
  | String c r =>
      let c' :=
        if upper && is_lower c then byte_of (byte_val c - toLower)
        else if negb upper && is_upper c then byte_of (byte_val c + toLower)
        else c in
      String c' (canonical_loop (Ascii.eqb c' "-") r)
  end.

(** textproto.CanonicalMIMEHeaderKey: a key with a byte outside the token
    set is returned unchanged. *)
Definition CanonicalMIMEHeaderKey (s : string) : string :=
  if string_forallb validHeaderFieldByte s then canonical_loop true s else s.

(** h.Get(key): the first value under the canonical key, or the empty
    string. *)
Definition Get (h : t) (key : string) : string :=
  match h !! CanonicalMIMEHeaderKey key with
  | Some (v :: _) => v
  | _ => ""
  end.

(** h.Set(key, value) *)
Definition Set_ (h : t) (key value : string) : t :=
  <[CanonicalMIMEHeaderKey key := [value]]> h.

End Header.

(* ===================================================================== *)
(** * net/url: query parsing and encoding *)
(* ===================================================================== *)

Module URL.

(** url.Values is map[string][]string. *)
Abbreviation Values := (gmap string (list string)).

Definition ishex (c : ascii) : bool :=
  is_digit c || byte_between 97 102 c || byte_between 65 70 c.

Definition unhex (c : ascii) : Z :=
  if is_digit c then byte_val c - 48
  else if byte_between 97 102 c then byte_val c - 97 + 10
  else if byte_between 65 70 c then byte_val c - 65 + 10
  else 0.

(** unescape(s, encodeQueryComponent): [None] is the EscapeError of a
    percent sign that is not followed by two hexadecimal digits. *)
Fixpoint QueryUnescape (s : string) : option string :=
  match s with
  | EmptyString => Some EmptyString
  | String c r =>
      if Ascii.eqb c "%" then
        match r with
        | String a (String b r') =>
            if ishex a && ishex b then
              String (byte_of (Z.lor (Z.shiftl (unhex a) 4) (unhex b))) <$> QueryUnescape r'
            else None
        | _ => None
        end
      else if Ascii.eqb c "+" then String " "%char <$> QueryUnescape r
      else String c <$> QueryUnescape r
  end.

(** shouldEscape(c, encodeQueryComponent): only the unreserved bytes of
    RFC 3986 are left alone. *)
Definition shouldEscape (c : ascii) : bool :=
  if is_lower c || is_upper c || is_digit c then false
  else if existsb (Ascii.eqb c) ["-"; "_"; "."; "~"]%char then false
  else true.

Definition upperhex : string := "0123456789ABCDEF".

Definition hexdigit (z : Z) : ascii :=
  match String.get (Z.to_nat z) upperhex with
  | Some c => c
  | None => "0"%char
  end.

(** escape(s, encodeQueryComponent) *)
Fixpoint QueryEscape (s : string) : string :=
  match s with
  | EmptyString => EmptyString
  | String c r =>
      if shouldEscape c then
        if Ascii.eqb c " " then String "+" (QueryEscape r)
        else String "%" (String (hexdigit (Z.shiftr (byte_val c) 4))
               (String (hexdigit (Z.land (byte_val c) 15)) (QueryEscape r)))
      else String c (QueryEscape r)
  end.

(** strings.IndexAny(s, "&;") as a split: the text before the first
    separator and, when there is one, the text after it. *)
Fixpoint cut_pair (s : string) : string * option string :=
  match s with
  | EmptyString => (EmptyString, None)
  | String c r =>
      if Ascii.eqb c "&" || Ascii.eqb c ";" then (EmptyString, Some r)
      else let '(k, q) := cut_pair r in (String c k, q)
  end.

(** strings.Index(key, "=") as a split. *)
Fixpoint cut_eq (s : string) : string * option string :=
  match s with
  | EmptyString => (EmptyString, None)
  | String c r =>
      if Ascii.eqb c "=" then (EmptyString, Some r)
      else let '(k, v) := cut_eq r in (String c k, v)
  end.

(** One iteration of parseQuery's loop body on the text [key] of one
    pair: a pair that is empty or fails to unescape is skipped. *)
Definition parse_pair (m : Values) (key : string) : Values :=
  if String.eqb key "" then m
  else
    let '(k, v) := cut_eq key in
    let value := default "" v in
    match QueryUnescape k with
    | None => m
    | Some k' =>
        match QueryUnescape value with
        | None => m
        | Some v' => <[k' := (default [] (m !! k') ++ [v'])%list]> m
        end
    end.

(** parseQuery(m, query): [for query != ""] over the pairs, the error
    dropped as in the Query method of url.URL. The fuel is the length of the query, which
    every iteration with a separator shortens. *)
Fixpoint parseQuery (fuel : nat) (m : Values) (query : string) : Values :=
  match fuel with
  | O => m
  | S fuel' =>
      if String.eqb query "" then m
      else
        let '(key, rest) := cut_pair query in
        parseQuery fuel' (parse_pair m key) (default "" rest)
  end.

(** u.Query() on the raw query. *)
Definition Query (rawQuery : string) : Values :=
  parseQuery (String.length rawQuery) ∅ rawQuery.

(** v.Set(key, value) *)
Definition Set_ (v : Values) (key value : string) : Values :=
  <[key := [value]]> v.

(** sort.Strings: insertion into a list ordered by byte-wise comparison. *)
Fixpoint insert_sorted (k : string) (l : list string) : list string :=
  match l with
  | [] => [k]
  | x :: r => if String.leb k x then k :: l else x :: insert_sorted k r
  end.

Definition sort_strings (l : list string) : list string :=
  foldr insert_sorted [] l.

(** The inner loop of Encode for one key: each value is written as
    [key=value], preceded by an ampersand when the buffer is not empty. *)
Definition encode_key (keyEscaped : string) (vs : list string) (buf : string) : string :=
  fold_left
    (fun buf v =>
       (if (0 <? String.length buf)%nat then buf +:+ "&" else buf)
         +:+ keyEscaped +:+ "=" +:+ QueryEscape v)
    vs buf.

(** v.Encode(): keys sorted, values in their order. *)
Definition Encode (v : Values) : string :=
  fold_left
    (fun buf k => encode_key (QueryEscape k) (default [] (v !! k)) buf)
    (sort_strings (map_to_list v).*1) "".

(** ** Notions the facts about Query and Encode are stated with *)

(** A byte of an escaped string: none of the separators of a query. *)
Definition plain (c : ascii) : bool :=
  negb (Ascii.eqb c "&" || Ascii.eqb c ";" || Ascii.eqb c "=").

(** The text of one pair as Encode writes it. *)
Definition piece (kv : string * string) : string :=
  QueryEscape kv.1 +:+ "=" +:+ QueryEscape kv.2.

(** A piece has no ampersand or semicolon. *)
Definition unbroken (s : string) : bool :=
  string_forallb (fun c => negb (Ascii.eqb c "&" || Ascii.eqb c ";")) s.

(** [m[key] = append(m[key], value)] *)
Definition add_pair (m : Values) (kv : string * string) : Values :=
  <[kv.1 := (default [] (m !! kv.1) ++ [kv.2])%list]> m.

(** The bytes an escaped string is made of: the unreserved ones, the
    percent sign and the plus sign. *)
Definition escaped_byte (c : ascii) : bool :=
  is_lower c || is_upper c || is_digit c ||
  existsb (Ascii.eqb c) ["-"; "_"; "."; "~"; "%"; "+"]%char.

(** The pairs of [v] in the order Encode writes them. *)
Definition pairs_of_key (v : Values) (k : string) : list (string * string) :=
  map (pair k) (default [] (v !! k)).

Definition pairs (v : Values) : list (string * string) :=
  flat_map (pairs_of_key v) (sort_strings (map_to_list v).*1).

(** One pair written to the buffer. *)
Definition write_pair (buf : string) (kv : string * string) : string :=
  (if (0 <? String.length buf)%nat then buf +:+ "&" else buf) +:+ piece kv.

(** The pieces of the pairs, separated by ampersands. *)
Definition joined (ps : list (string * string)) : string :=
  Join (map piece ps) "&".

(** No key of [v] has an empty list of values, as in every result of
    parseQuery. *)
Definition no_empty_values (v : Values) : Prop :=
  forall k l, v !! k = Some l -> l <> [].

End URL.

(* ===================================================================== *)
(** * net/http, io: requests, responses, the response writer *)
(* ===================================================================== *)

(** The fields of the inbound *http.Request the handler reads. *)
Record Request := {
  Method : string;
  Path : string;          (* r.URL.Path *)
  RawQuery : string;      (* r.URL.RawQuery *)
  ReqHeader : Header.t;   (* r.Header *)
  ReqBody : string        (* r.Body *)
}.

(** The outbound request [req2] built at lines 119-129. *)
Record OutRequest := {
  oMethod : string;
  oBody : string;
  oScheme : string;
  oHost : string;
  oPath : string;
  oRawQuery : string;
  oHeader : Header.t
}.

(** An io.Reader as the sequence of chunks its Read calls deliver, ended by
    EOF ([None]) or by a read error. *)
Record Reader := {
  chunks : list string;
  readErr : option string
}.

(** The upstream *http.Response. *)
Record Response := {
  StatusCode : Z;
  RespHeader : Header.t;
  RespBody : Reader
}.

(** http.ResponseWriter: the header map the handler may still change, what
    WriteHeader has sent (status and a snapshot of the header map), and the
    body bytes written so far. *)
Record ResponseWriter := {
  wHeader : Header.t;
  wSent : option (Z * Header.t);
  wBody : string
}.

Definition newResponseWriter : ResponseWriter :=
  {| wHeader := ∅; wSent := None; wBody := "" |}.

Definition StatusOK : Z := 200.
Definition StatusForbidden : Z := 403.
Definition StatusInternalServerError : Z := 500.

(** w.Header()[k] = v *)
Definition w_set_header (k : string) (v : list string) (w : ResponseWriter) : ResponseWriter :=
  {| wHeader := <[k := v]> (wHeader w); wSent := wSent w; wBody := wBody w |}.

(** checkWriteHeaderCode(code): a status code has three digits. *)
Definition checkWriteHeaderCode (code : Z) : bool :=
  negb ((code <? 100) || (999 <? code)).

(** w.WriteHeader(code): only the first call has an effect, and it panics
    ([None]) on a code that is not of three digits; a later call returns
    before the code is looked at. *)
Definition WriteHeader (code : Z) (w : ResponseWriter) : option ResponseWriter :=
  match wSent w with
  | Some _ => Some w
  | None =>
      if checkWriteHeaderCode code
      then Some {| wHeader := wHeader w; wSent := Some (code, wHeader w); wBody := wBody w |}
      else None
  end.

(** w.Write(data): sends the header with status 200, which passes the
    check of WriteHeader, first if none was sent. *)
Definition Write (data : string) (w : ResponseWriter) : ResponseWriter :=
  let w' := default w (WriteHeader StatusOK w) in
  {| wHeader := wHeader w'; wSent := wSent w'; wBody := wBody w' +:+ data |}.

(** http.Error(w, error, code): two headers, the status, then
    fmt.Fprintln(w, error); it panics where WriteHeader does. *)
Definition http_Error (w : ResponseWriter) (error : string) (code : Z)
    : option ResponseWriter :=
  let w1 := w_set_header (Header.CanonicalMIMEHeaderKey "Content-Type")
              ["text/plain; charset=utf-8"] w in
  let w2 := w_set_header (Header.CanonicalMIMEHeaderKey "X-Content-Type-Options")
              ["nosniff"] w1 in
  Write (error +:+ newline) <$> WriteHeader code w2.

(** The status and the header fields the caller was sent. *)
Definition status_of (w : ResponseWriter) : option Z := fst <$> wSent w.

Definition headers_sent (w : ResponseWriter) : option Header.t := snd <$> wSent w.

Definition sent_header (w : ResponseWriter) (k : string) : option (list string) :=
  headers_sent w ≫= (fun h => h !! k).

(** io.Copy(w, src): every chunk read is written, until EOF or the first
    read error; the error is returned, and the handler drops it. *)
Definition io_Copy (w : ResponseWriter) (src : Reader) : ResponseWriter :=
  fold_left (fun w c => Write c w) (chunks src) w.

(** ioutil.ReadAll(r): the bytes read before EOF or the error, and the
    error. *)
Definition ReadAll (r : Reader) : string * option string :=
  (fold_left String.append (chunks r) "", readErr r).

(** bytes.NewReader(b): all of [b] in one piece, nothing when [b] is
    empty. *)
Definition bytes_NewReader (b : string) : Reader :=
  {| chunks := if String.eqb b "" then [] else [b]; readErr := None |}.

(** [for k, v := range resp.Header { w.Header()[k] = v }] *)
Definition copy_headers (src : Header.t) (w : ResponseWriter) : ResponseWriter :=
  map_fold w_set_header w src.

(* ===================================================================== *)
(** * What the handler uses of packages time and pkg/ratelimit *)
(* ===================================================================== *)

(** time.Time with the three operations in play; a time.Duration is an
    int64 number of nanoseconds, here in Z. *)
Class Clock := {
  Time : Type;
  Time_Add : Time -> Z -> Time;       (* t.Add(d) *)
  Time_Sub : Time -> Time -> Z;       (* t.Sub(u) *)
  Time_Unix : Z -> Time;              (* time.Unix(sec, 0) *)
  Time_String : Time -> string        (* t.String(), the rendering of %s *)
}.

(** ratelimit.Monitor as the handler sees it: the struct literal
    [&ratelimit.Monitor{HeaderPrefix: p}], [Get] (which reads the clock) and
    [Update]. The package itself is not part of the sources at hand. *)
Class RateLimit `{Clock} := {
  Monitor : Type;
  Monitor_new : string -> Monitor;
  Monitor_Get : Monitor -> Time -> Z * Z * bool;
  Monitor_Update : Monitor -> Header.t -> Monitor
}.

(* ===================================================================== *)
(** * The proxy: shared state, configuration callback, handler *)
(* ===================================================================== *)

(** The pair captured by the closure stored in [authenticateRequest]. *)
Record Credentials := {
  clientID : string;
  clientSecret : string
}.

(** The two fields of conf.Get() the callback reads. *)
Record Config := {
  GithubClientID : string;
  GithubClientSecret : string
}.

Inductive LogEntry :=
| LogPrint (err : string)                                        (* log.Print(err) *)
| LogWarn (status : Z) (body : string) (bodyErr : option string). (* log15.Warn("proxy error", ...) *)

(** strings.HasPrefix / == on r.URL.Path, lines 85-90. *)
Definition classify (path : string) : string :=
  if HasPrefix path "/search/" then "search"
  else if String.eqb path "/graphql" then "graphql"
  else "core".

(** The closure of lines 74-77 applied to the query values (it leaves the
    header alone). *)
Definition authenticate (c : Credentials) (query : URL.Values) : URL.Values :=
  URL.Set_ (URL.Set_ query "client_id" (clientID c)) "client_secret" (clientSecret c).

(** strconv.Quote, the rendering of %q, on a string of printable ASCII
    bytes without quote or backslash, which has nothing to escape; the
    handler applies it to the resource names only. *)
Definition Quote (s : string) : string := dquote +:+ s +:+ dquote.

(** Lines 103-109: the header of the outbound request. *)
Definition build_h2 (rh : Header.t) : Header.t :=
  let h2 := Header.Set_ ∅ "User-Agent" (Header.Get rh "User-Agent") in
  let h2 := Header.Set_ h2 "Accept" (Header.Get rh "Accept") in
  let h2 := Header.Set_ h2 "Content-Type" (Header.Get rh "Content-Type") in
  if negb (String.eqb (Header.Get rh "Authorization") "")
  then Header.Set_ h2 "Authorization" (Header.Get rh "Authorization")
  else h2.

(** Lines 119-129. *)
Definition build_req2 (r : Request) (q2 : URL.Values) (h2 : Header.t) : OutRequest :=
  {| oMethod := Method r;
     oBody := ReqBody r;
     oScheme := "https";
     oHost := "api.github.com";
     oPath := Path r;
     oRawQuery := URL.Encode q2;
     oHeader := h2 |}.

Section Proxy.

Context `{RL : RateLimit}.

(** The variables the handler closure shares between requests: the
    [monitors] map (each *ratelimit.Monitor as the address it was
    allocated at and the struct it points to; [nextAddr] is the next
    free address), the structs a later store has put out of the map, which
    the runs that read their address before still use ([replaced], by
    address), [authenticateRequest] ([None] is the nil func), the values
    of [rateLimitRemainingGauge] by label, and what the handler has
    logged. *)
Record State := {
  monitors : gmap string (nat * Monitor);
  replaced : gmap nat Monitor;
  nextAddr : nat;
  authenticateRequest : option Credentials;
  gauge : gmap string spec_float;
  logs : list LogEntry
}.

(** The state when [main] starts serving: [init] has seeded the gauge,
    [make(map[string]*ratelimit.Monitor)] is empty, no authenticator. *)
Definition init_state : State :=
  {| monitors := ∅;
     replaced := ∅;
     nextAddr := O;
     authenticateRequest := None;
     gauge := <["search" := float64 30]> (<["core" := float64 5000]> ∅);
     logs := [] |}.

(** The callback given to conf.Watch, lines 70-80. *)
Definition conf_Watch_callback (cfg : Config) (st : State) : State :=
  if negb (String.eqb (GithubClientID cfg) "") && negb (String.eqb (GithubClientSecret cfg) "")
  then {| monitors := monitors st;
          replaced := replaced st;
          nextAddr := nextAddr st;
          authenticateRequest :=
            Some {| clientID := GithubClientID cfg; clientSecret := GithubClientSecret cfg |};
          gauge := gauge st;
          logs := logs st |}
  else st.

(** The condition of line 72 on a configuration, and the closure it
    publishes. *)
Definition valid_config (cfg : Config) : bool :=
  negb (String.eqb (GithubClientID cfg) "") && negb (String.eqb (GithubClientSecret cfg) "").

Definition credentials_of (cfg : Config) : Credentials :=
  {| clientID := GithubClientID cfg; clientSecret := GithubClientSecret cfg |}.

(** The callback run once for each configuration of a sequence, as
    conf.Watch does for the configuration at start and after every
    change. *)
Definition conf_history (cfgs : list Config) (st : State) : State :=
  fold_left (fun st cfg => conf_Watch_callback cfg st) cfgs st.

(** Line 92: [monitors[resource] = &ratelimit.Monitor{HeaderPrefix: "X-"}],
    a struct at a fresh address. The struct the map held for the class, if
    another run has stored one since line 91 looked, is out of the map
    from here on. *)
Definition store_monitor (resource : string) (st : State) : State :=
  {| monitors := <[resource := (nextAddr st, Monitor_new "X-")]> (monitors st);
     replaced :=
       match monitors st !! resource with
       | Some (a, m) => <[a := m]> (replaced st)
       | None => replaced st
       end;
     nextAddr := S (nextAddr st);
     authenticateRequest := authenticateRequest st;
     gauge := gauge st;
     logs := logs st |}.

(** Lines 91-93 when no other run steps in between: [if monitors[resource]
    == nil { monitors[resource] = &ratelimit.Monitor{HeaderPrefix: "X-"} }]. *)
Definition lookup_or_create (resource : string) (st : State) : State :=
  match monitors st !! resource with
  | Some _ => st
  | None => store_monitor resource st
  end.

(** The struct of the class in the map, as a run started in [st] finds it
    at line 95; for a class without an entry, the struct line 92 is going
    to store. *)
Definition monitor_of (st : State) (resource : string) : Monitor :=
  match monitors st !! resource with
  | Some (_, m) => m
  | None => Monitor_new "X-"
  end.

(** The struct behind the pointer [rateLimit] that line 94 read from
    monitors[resource]: the entry of the class as long as the map holds
    that pointer, a replaced struct afterwards. A pointer read from the
    map is found in one of the two. *)
Definition pointee (st : State) (resource : string) (rateLimit : nat) : Monitor :=
  if decide (fst <$> monitors st !! resource = Some rateLimit)
  then monitor_of st resource
  else default (Monitor_new "X-") (replaced st !! rateLimit).

(** Line 139: [rateLimit.Update(resp.Header)], in place behind the
    pointer. *)
Definition update_monitor (resource : string) (rateLimit : nat) (h : Header.t)
    (st : State) : State :=
  if decide (fst <$> monitors st !! resource = Some rateLimit)
  then {| monitors :=
            alter (fun am => (fst am, Monitor_Update (snd am) h)) resource (monitors st);
          replaced := replaced st;
          nextAddr := nextAddr st;
          authenticateRequest := authenticateRequest st;
          gauge := gauge st;
          logs := logs st |}
  else {| monitors := monitors st;
          replaced := alter (fun m => Monitor_Update m h) rateLimit (replaced st);
          nextAddr := nextAddr st;
          authenticateRequest := authenticateRequest st;
          gauge := gauge st;
          logs := logs st |}.

(** Line 145: [rateLimitRemainingGauge.WithLabelValues(resource).Set(float64(limit))]. *)
Definition gauge_Set (resource : string) (limit : Z) (st : State) : State :=
  {| monitors := monitors st;
     replaced := replaced st;
     nextAddr := nextAddr st;
     authenticateRequest := authenticateRequest st;
     gauge := <[resource := float64 limit]> (gauge st);
     logs := logs st |}.

Definition log_append (e : LogEntry) (st : State) : State :=
  {| monitors := monitors st;
     replaced := replaced st;
     nextAddr := nextAddr st;
     authenticateRequest := authenticateRequest st;
     gauge := gauge st;
     logs := logs st ++ [e] |}.

(** fmt.Sprintf("rate limit for %q exceeded, reset at %s", resource, nextTime) *)
Definition rate_limit_message (resource : string) (nextTime : Time) : string :=
  "rate limit for " +:+ Quote resource +:+ " exceeded, reset at " +:+ Time_String nextTime.

(** A handler run as a tree of its interactions with the rest of the
    process: reading the clock, one access to the shared variables
    ([k] continues from the state after it), the two operations on
    [requestMu], the upstream call, and the copy of a body to the
    caller. A run ends by returning or in a panic; the server recovers a
    panic and closes the connection, so that the caller gets nothing that
    was not sent before ([w] is the writer as the run leaves it). *)
Inductive Prog : Type :=
| Return (w : ResponseWriter)
| Panic (w : ResponseWriter)
| TimeNow (k : Time -> Prog)
| Shared (f : State -> State) (k : State -> Prog)
| Lock (k : Prog)
| Unlock (k : Prog)
| Do (req2 : OutRequest) (k : Response + string -> Prog)
| Copy (w : ResponseWriter) (src : Reader) (k : ResponseWriter -> Prog).

(** The end of a run on a call that writes the whole response, and that
    may panic. *)
Definition answer (w : ResponseWriter) (res : option ResponseWriter) : Prog :=
  match res with
  | Some w' => Return w'
  | None => Panic w
  end.

(** Lines 148-158: relay the upstream response. WriteHeader at line 151
    panics on a status that is not of three digits. *)
Definition relay (logRequests : bool) (w : ResponseWriter) (resp : Response) : Prog :=
  let w := copy_headers (RespHeader resp) w in
  match WriteHeader (StatusCode resp) w with
  | None => Panic w
  | Some w =>
      if (StatusCode resp <? 400) || negb logRequests then
        Copy w (RespBody resp) Return
      else
        let '(b, err) := ReadAll (RespBody resp) in
        Shared (log_append (LogWarn (StatusCode resp) b err))
          (fun _ => Copy w (bytes_NewReader b) Return)
  end.

(** Lines 139-146 followed by the relay. *)
Definition bookkeep_and_relay (logRequests : bool) (w : ResponseWriter)
    (resource : string) (rateLimit : nat) (resp : Response) : Prog :=
  Shared (update_monitor resource rateLimit (RespHeader resp)) (fun _ =>
    let limit := Header.Get (RespHeader resp) "X-Ratelimit-Remaining" in
    if negb (String.eqb limit "") then
      let '(limit, _) := Strconv.Atoi limit in
      Shared (gauge_Set resource limit) (fun _ => relay logRequests w resp)
    else relay logRequests w resp).

(** Lines 112-117: [authRequest := authenticateRequest] read under the
    read lock, applied to [q2] unless nil. *)
Definition apply_authenticator (st : State) (q2 : URL.Values) : URL.Values :=
  match authenticateRequest st with
  | Some authRequest => authenticate authRequest q2
  | None => q2
  end.

(** Lines 133-158, from the return of [http.DefaultClient.Do]: unlock,
    then the error response or the bookkeeping and the relay. *)
Definition after_call (logRequests : bool) (w : ResponseWriter) (resource : string)
    (rateLimit : nat) (res : Response + string) : Prog :=
  Unlock
    match res with
    | inr err =>
        Shared (log_append (LogPrint err))
          (fun _ => answer w (http_Error w err StatusInternalServerError))
    | inl resp => bookkeep_and_relay logRequests w resource rateLimit resp
    end.

(** Lines 103-158: build, authenticate, serialize, forward. *)
Definition forward (logRequests : bool) (w : ResponseWriter) (r : Request)
    (resource : string) (rateLimit : nat) (q2 : URL.Values) : Prog :=
  let h2 := build_h2 (ReqHeader r) in
  Shared id (fun st =>
    let req2 := build_req2 r (apply_authenticator st q2) h2 in
    Lock (Do req2 (after_call logRequests w resource rateLimit))).

(** Lines 95-102: [rateLimit.Get()] reads the struct behind the pointer
    and the clock (a nil pointer panics); a class known to be out of quota
    is refused. *)
Definition check_limit (logRequests : bool) (w : ResponseWriter) (r : Request)
    (resource : string) (q2 : URL.Values) (rateLimit : option nat) : Prog :=
  match rateLimit with
  | None => Panic w
  | Some rateLimit =>
      Shared id (fun st =>
        TimeNow (fun t =>
          let '(rateLimitRemaining, rateLimitReset, rateLimitKnown) :=
            Monitor_Get (pointee st resource rateLimit) t in
          if rateLimitKnown && ((rateLimitRemaining <? 1) && (0 <? rateLimitReset)) then
            TimeNow (fun now =>
              let nextTime := Time_Add now rateLimitReset in
              answer w (http_Error w (rate_limit_message resource nextTime)
                          StatusForbidden))
          else forward logRequests w r resource rateLimit q2))
  end.

(** Line 94: [rateLimit := monitors[resource]]. *)
Definition find_monitor (logRequests : bool) (w : ResponseWriter) (r : Request)
    (resource : string) (q2 : URL.Values) : Prog :=
  Shared id (fun st =>
    check_limit logRequests w r resource q2 (fst <$> monitors st !! resource)).

(** The handler, lines 82-159. The code reads and writes the [monitors]
    map with no lock: the look at line 91, the store at line 92 and the
    look at line 94 are three accesses, and other runs may step in
    between them. Each access is taken as one step; a Go runtime that
    detects two of them at the same instant aborts the process, which
    adds no state to those the process reaches here. *)
Definition handler (logRequests : bool) (w : ResponseWriter) (r : Request) : Prog :=
  let q2 := URL.Query (RawQuery r) in
  let resource := classify (Path r) in
  Shared id (fun st =>
    match monitors st !! resource with
    | None =>
        Shared (store_monitor resource)
          (fun _ => find_monitor logRequests w r resource q2)
    | Some _ => find_monitor logRequests w r resource q2
    end).

(** The condition of line 96 on what [Get] returned. *)
Definition rate_limited (got : Z * Z * bool) : bool :=
  let '(rateLimitRemaining, rateLimitReset, rateLimitKnown) := got in
  rateLimitKnown && ((rateLimitRemaining <? 1) && (0 <? rateLimitReset)).

(** The request [req2] a handler run builds for [r] when the shared
    variables are [st] at line 113. *)
Definition outbound (st : State) (r : Request) : OutRequest :=
  build_req2 r (apply_authenticator st (URL.Query (RawQuery r))) (build_h2 (ReqHeader r)).

(** The pointer line 94 reads in a run started in [st] that no other run
    steps into: the entry of the class, or the address line 92 takes. *)
Definition monitor_address (st : State) (resource : string) : nat :=
  default (nextAddr st) (fst <$> monitors st !! resource).

(** The state after lines 139-146 for the response [resp]. *)
Definition bookkept (resource : string) (rateLimit : nat) (resp : Response)
    (st : State) : State :=
  let st1 := update_monitor resource rateLimit (RespHeader resp) st in
  let limit := Header.Get (RespHeader resp) "X-Ratelimit-Remaining" in
  if negb (String.eqb limit "") then gauge_Set resource (fst (Strconv.Atoi limit)) st1
  else st1.

(** Whether line 151 panics. *)
Definition relay_panics (w : ResponseWriter) (resp : Response) : bool :=
  match WriteHeader (StatusCode resp) (copy_headers (RespHeader resp) w) with
  | Some _ => false
  | None => true
  end.

(** What lines 148-158 leave in the writer. *)
Definition relayed (w : ResponseWriter) (resp : Response) : ResponseWriter :=
  let w1 := copy_headers (RespHeader resp) w in
  match WriteHeader (StatusCode resp) w1 with
  | Some w2 => io_Copy w2 (RespBody resp)
  | None => w1
  end.

(** The state after the relay: only the verbose branch logs, and only
    when line 151 has not panicked. *)
Definition relay_logged (logRequests : bool) (w : ResponseWriter) (resp : Response)
    (st : State) : State :=
  if relay_panics w resp || (StatusCode resp <? 400) || negb logRequests then st
  else log_append (LogWarn (StatusCode resp) (fst (ReadAll (RespBody resp)))
                     (snd (ReadAll (RespBody resp)))) st.

(** ** One handler run to completion *)

(** What a run meets outside the process: the successive clock readings
    and the result of the n-th upstream call. *)
Record Env := {
  clock : nat -> Time;
  transport : nat -> OutRequest -> Response + string
}.

(** How a run ended: the shared variables, the writer, whether it ended
    in a panic, the requests given to http.DefaultClient.Do, and the
    number of clock readings. *)
Record Outcome := {
  final : State;
  response : ResponseWriter;
  panicked : bool;
  upstream_calls : list OutRequest;
  clock_reads : nat
}.

Fixpoint run (p : Prog) (env : Env) (ticks : nat) (calls : list OutRequest)
    (st : State) : Outcome :=
  match p with
  | Return w =>
      {| final := st; response := w; panicked := false;
         upstream_calls := calls; clock_reads := ticks |}
  | Panic w =>
      {| final := st; response := w; panicked := true;
         upstream_calls := calls; clock_reads := ticks |}
  | TimeNow k => run (k (clock env ticks)) env (S ticks) calls st
  | Shared f k => run (k (f st)) env ticks calls (f st)
  | Lock k => run k env ticks calls st
  | Unlock k => run k env ticks calls st
  | Do req2 k =>
      run (k (transport env (length calls) req2)) env ticks (calls ++ [req2]) st
  | Copy w src k => run (k (io_Copy w src)) env ticks calls st
  end.

(** A request served from state [st], with no other run in progress. *)
Definition serve (logRequests : bool) (env : Env) (st : State)
    (w : ResponseWriter) (r : Request) : Outcome :=
  run (handler logRequests w r) env O [] st.

(** What the caller receives: status, header as sent, body. *)
Definition delivered (w : ResponseWriter) : option (Z * Header.t) * string :=
  (wSent w, wBody w).

(** ** Concurrent handler runs *)

(** The process: the shared variables, [requestMu] (with the goroutine
    that locked it), and the handler runs in progress, one goroutine per
    inbound request. *)
Record Pool := {
  shared : State;
  mutex : option nat;
  goroutines : list Prog
}.

Definition init_pool : Pool :=
  {| shared := init_state; mutex := None; goroutines := [] |}.

Definition set_goroutine (i : nat) (p : Prog) (P : Pool) : Pool :=
  {| shared := shared P; mutex := mutex P; goroutines := <[i := p]> (goroutines P) |}.

(** One step of the process. [logRequests] is fixed when the process
    starts. *)
Inductive step (logRequests : bool) : Pool -> Pool -> Prop :=
| step_accept P w r :
    step logRequests P
      {| shared := shared P; mutex := mutex P;
         goroutines := goroutines P ++ [handler logRequests w r] |}
| step_conf P cfg :
    step logRequests P
      {| shared := conf_Watch_callback cfg (shared P); mutex := mutex P;
         goroutines := goroutines P |}
| step_time P i k t :
    goroutines P !! i = Some (TimeNow k) ->
    step logRequests P (set_goroutine i (k t) P)
| step_shared P i f k :
    goroutines P !! i = Some (Shared f k) ->
    step logRequests P
      {| shared := f (shared P); mutex := mutex P;
         goroutines := <[i := k (f (shared P))]> (goroutines P) |}
| step_lock P i k :
    goroutines P !! i = Some (Lock k) ->
    mutex P = None ->
    step logRequests P
      {| shared := shared P; mutex := Some i; goroutines := <[i := k]> (goroutines P) |}
| step_unlock P i k :
    goroutines P !! i = Some (Unlock k) ->
    is_Some (mutex P) ->
    step logRequests P
      {| shared := shared P; mutex := None; goroutines := <[i := k]> (goroutines P) |}
| step_do P i req2 k res :
    goroutines P !! i = Some (Do req2 k) ->
    step logRequests P (set_goroutine i (k res) P)
| step_copy P i w src k :
    goroutines P !! i = Some (Copy w src k) ->
    step logRequests P (set_goroutine i (k (io_Copy w src)) P).

Inductive reachable (logRequests : bool) : Pool -> Prop :=
| reachable_init : reachable logRequests init_pool
| reachable_step P P' :
    reachable logRequests P -> step logRequests P P' -> reachable logRequests P'.

(** The states the process reaches, with the inbound requests it has
    accepted so far: goroutine [i] serves the [i]-th of them. Every step
    but the arrival of a request leaves the number of goroutines as it
    is. *)
Inductive serving (logRequests : bool) : list Request -> Pool -> Prop :=
| serving_init : serving logRequests [] init_pool
| serving_accept rs P w r :
    serving logRequests rs P ->
    serving logRequests (rs ++ [r])
      {| shared := shared P; mutex := mutex P;
         goroutines := goroutines P ++ [handler logRequests w r] |}
| serving_step rs P P' :
    serving logRequests rs P ->
    step logRequests P P' ->
    length (goroutines P') = length (goroutines P) ->
    serving logRequests rs P'.

(** A goroutine that does not hold [requestMu]: it may take it only
    directly before an upstream call whose continuation releases it at
    once. *)
Fixpoint outside (p : Prog) : Prop :=
  match p with
  | Return _ => True
  | Panic _ => True
  | TimeNow k => forall t, outside (k t)
  | Shared _ k => forall st, outside (k st)
  | Copy _ _ k => forall w, outside (k w)
  | Lock (Do _ k) =>
      forall res, match k res with Unlock k' => outside k' | _ => False end
  | _ => False
  end.

(** A goroutine inside [requestMu]: in the upstream call, or back from it
    and about to unlock. *)
Definition inside (p : Prog) : Prop :=
  match p with
  | Do _ k => forall res, match k res with Unlock k' => outside k' | _ => False end
  | Unlock k' => outside k'
  | _ => False
  end.

(** The gate discipline of a process state: the goroutine recorded as
    holder exists, it is the only one inside, all others are outside. *)
Definition gate_inv (P : Pool) : Prop :=
  (forall i, mutex P = Some i -> is_Some (goroutines P !! i)) /\
  (forall i p, goroutines P !! i = Some p ->
     if decide (mutex P = Some i) then inside p else outside p).

(** ** The monitors over the life of the process *)

Definition resource_classes : list string := ["core"; "search"; "graphql"].

(** The table of monitors is well formed: its keys are resource classes,
    every struct, in the map or replaced, sits at an address already
    handed out, no two classes share an address, and a replaced struct is
    not in the map. *)
Definition monitors_wf (st : State) : Prop :=
  (forall c a m, monitors st !! c = Some (a, m) ->
     c ∈ resource_classes /\ (a < nextAddr st)%nat) /\
  (forall c1 c2 a m1 m2,
     monitors st !! c1 = Some (a, m1) -> monitors st !! c2 = Some (a, m2) -> c1 = c2) /\
  (forall a m, replaced st !! a = Some m ->
     (a < nextAddr st)%nat /\ forall c m', monitors st !! c <> Some (a, m')).

(** From [st] to [st'] every class that has a monitor still has one, and
    a well-formed table stays well formed. *)
Definition monitors_kept (st st' : State) : Prop :=
  (forall c, is_Some (monitors st !! c) -> is_Some (monitors st' !! c)) /\
  (monitors_wf st -> monitors_wf st').

(** From [st] to [st'] a class gets a monitor only if it is the class of
    one of the requests [rs]. *)
Definition created_for (rs : list Request) (st st' : State) : Prop :=
  forall c, is_Some (monitors st' !! c) ->
    is_Some (monitors st !! c) \/ exists r, r ∈ rs /\ classify (Path r) = c.

(** Every step [p] can take on the shared variables is within [R]. *)
Fixpoint steps_in (R : State -> State -> Prop) (p : Prog) : Prop :=
  match p with
  | Return _ => True
  | Panic _ => True
  | TimeNow k => forall t, steps_in R (k t)
  | Shared f k => (forall st, R st (f st)) /\ forall st, steps_in R (k st)
  | Lock k => steps_in R k
  | Unlock k => steps_in R k
  | Do _ k => forall res, steps_in R (k res)
  | Copy _ _ k => forall w, steps_in R (k w)
  end.

Definition pool_steps_in (R : State -> State -> Prop) (P : Pool) : Prop :=
  forall i p, goroutines P !! i = Some p -> steps_in R p.

(** Every request [p] can hand to http.DefaultClient.Do is within [Q]. *)
Fixpoint calls_in (Q : OutRequest -> Prop) (p : Prog) : Prop :=
  match p with
  | Return _ => True
  | Panic _ => True
  | TimeNow k => forall t, calls_in Q (k t)
  | Shared _ k => forall st, calls_in Q (k st)
  | Lock k => calls_in Q k
  | Unlock k => calls_in Q k
  | Do req2 k => Q req2 /\ forall res, calls_in Q (k res)
  | Copy _ _ k => forall w, calls_in Q (k w)
  end.

(** [p'] is what is left of the run [p] after its next step. *)
Definition continues (p p' : Prog) : Prop :=
  match p with
  | Return _ => False
  | Panic _ => False
  | TimeNow k => exists t, p' = k t
  | Shared _ k => exists st, p' = k st
  | Lock k => p' = k
  | Unlock k => p' = k
  | Do _ k => exists res, p' = k res
  | Copy _ _ k => exists w, p' = k w
  end.

(** The request built for [r]: https, api.github.com, and the method, the
    path and the body of [r]. *)
Definition built_for (r : Request) (req2 : OutRequest) : Prop :=
  oScheme req2 = "https" /\
  oHost req2 = "api.github.com" /\
  oMethod req2 = Method r /\
  oPath req2 = Path r /\
  oBody req2 = ReqBody r.

End Proxy.

(* ===================================================================== *)
(** * Instances: a clock, and the rate-limit monitor *)
(* ===================================================================== *)

(** A clock to run examples with: an instant is its number of nanoseconds
    since the epoch, printed in decimal. *)
#[export] Instance ZClock : Clock := {
  Time := Z;
  Time_Add := Z.add;
  Time_Sub := Z.sub;
  Time_Unix := fun sec => sec * 1000000000;
  Time_String := fun t => pretty t
}.

Module SpecMonitor.

(** Modelled from the spec: the state of pkg/ratelimit's Monitor, which
    is not among the sources. The spec's RateLimitState is
    {remainingCount, resetAt, known}; [HeaderPrefix] is the field the
    handler's struct literal sets. *)
Record t := {
  HeaderPrefix : string;
  remainingCount : Z;
  resetAt : Z;
  known : bool
}.

(** Modelled from the spec: the struct literal of pkg/ratelimit's Monitor
    with only HeaderPrefix set; before any response has been observed,
    known = false. *)
Definition new (prefix : string) : t :=
  {| HeaderPrefix := prefix; remainingCount := 0; resetAt := 0; known := false |}.

(** Modelled from the spec: the header lookup of pkg/ratelimit's Update,
    which accepts the legacy prefixed name and the canonical name. *)
Definition quota_header (prefix : string) (h : Header.t) (name : string) : string :=
  let legacy := Header.Get h (prefix +:+ name) in
  if negb (String.eqb legacy "") then legacy else Header.Get h name.

(** Modelled from the spec: pkg/ratelimit's Update, which parses the
    remaining-quota and reset-time headers and overwrites the state. *)
Definition Update (m : t) (h : Header.t) : t :=
  {| HeaderPrefix := HeaderPrefix m;
     remainingCount :=
       fst (Strconv.Atoi (quota_header (HeaderPrefix m) h "RateLimit-Remaining"));
     resetAt :=
       Time_Unix (fst (Strconv.Atoi (quota_header (HeaderPrefix m) h "RateLimit-Reset")));
     known := true |}.

(** Modelled from the spec: pkg/ratelimit's Get, returning (remaining,
    resetDuration, known), the duration counted from now. *)
Definition Get (m : t) (now : Z) : Z * Z * bool :=
  (remainingCount m, Time_Sub (resetAt m) now, known m).

End SpecMonitor.

#[export] Instance SpecRateLimit : @RateLimit ZClock := {
  Monitor := SpecMonitor.t;
  Monitor_new := SpecMonitor.new;
  Monitor_Get := SpecMonitor.Get;
  Monitor_Update := SpecMonitor.Update
}.

(* ===================================================================== *)
(** * Inputs the examples run on *)
(* ===================================================================== *)

(** The n-th clock reading is n microseconds after the epoch; every
    upstream call has the result [res]. *)
Definition example_env (res : Response + string) : Env :=
  {| clock := fun n => 1000 * Z.of_nat n; transport := fun _ _ => res |}.

Definition get_request (path query : string) : Request :=
  {| Method := "GET"; Path := path; RawQuery := query;
     ReqHeader := {["Accept" := ["application/json"]]}; ReqBody := "" |}.

Definition body_reader (pieces : list string) : Reader :=
  {| chunks := pieces; readErr := None |}.

(** Class core known to be out of quota until one minute after the
    epoch. *)
Definition exhausted_core : State :=
  {| monitors :=
       {["core" := (O, {| SpecMonitor.HeaderPrefix := "X-";
                          SpecMonitor.remainingCount := 0;
                          SpecMonitor.resetAt := 60000000000;
                          SpecMonitor.known := true |})]};
     replaced := ∅;
     nextAddr := 1;
     authenticateRequest := None;
     gauge := gauge init_state;
     logs := [] |}.

(** Status 200, header X-Test: 1, body {"ok":true} in two pieces. *)
Definition ok_response : Response :=
  {| StatusCode := 200;
     RespHeader := {["X-Test" := ["1"]]};
     RespBody := body_reader ["{" +:+ dquote +:+ "ok" +:+ dquote; ":true}"] |}.

(** Status 500, body boom. *)
Definition boom_response : Response :=
  {| StatusCode := 500; RespHeader := ∅; RespBody := body_reader ["bo"; "om"] |}.

(** A response with the status line HTTP/1.1 099, which the client
    accepts as status 99. *)
Definition odd_status_response : Response :=
  {| StatusCode := 99; RespHeader := {["X-Test" := ["1"]]}; RespBody := body_reader ["{}"] |}.

(** The process with one goroutine, serving GET /user, in the upstream
    call. *)
Definition pool_in_call : Pool :=
  {| shared := lookup_or_create "core" init_state;
     mutex := Some O;
     goroutines :=
       [Do (outbound init_state (get_request "/user" ""))
           (after_call false newResponseWriter "core" O)] |}.

(** The process after two requests GET /user have raced through lines
    91-93: both have stored a monitor for core. *)
Definition pool_after_race : Pool :=
  {| shared := store_monitor "core" (store_monitor "core" init_state);
     mutex := None;
     goroutines :=
       [find_monitor false newResponseWriter (get_request "/user" "") "core" ∅;
        find_monitor false newResponseWriter (get_request "/user" "") "core" ∅] |}.

(** A response whose only header is [name: value]. *)
Definition quota_response (name value : string) : Response :=
  {| StatusCode := 200; RespHeader := {[name := [value]]}; RespBody := body_reader [] |}.

(** A request with a session cookie and no User-Agent. *)
Definition cookie_request : Request :=
  {| Method := "POST"; Path := "/graphql"; RawQuery := "";
     ReqHeader := <["Cookie" := ["session=1"]]> {["Accept" := ["application/json"]]};
     ReqBody := "{}" |}.

(** The process after the configuration abc / def was published. *)
Definition configured_pool : Pool :=
  {| shared :=
       conf_Watch_callback {| GithubClientID := "abc"; GithubClientSecret := "def" |}
         init_state;
     mutex := None;
     goroutines := [] |}.


(* ===================================================================== *)
(** * client/web/src/user/settings/emails/UserEmail.tsx *)
(* ===================================================================== *)

Module UserEmail.

(** The fields of [props.email] the component reads. *)
Record EmailProps := {
  email : string;
  isPrimary : bool;
  verified : bool;
  verificationPending : bool;
  viewerCanManuallyVerify : bool
}.

(** The three GraphQL mutations with their variables. *)
Inductive Mutation :=
| RemoveUserEmail (user email : string)
| SetUserEmailVerified (user email : string) (verified : bool)
| ResendVerificationEmail (user email : string).

Section Component.

(** [ErrorLike] values, whatever a throw carries, and the imported
    [asError] between them. *)
Context {ErrorLike Thrown : Type} (asError : Thrown -> ErrorLike).

(** [type Status = undefined | 'loading' | ErrorLike] *)
Inductive Status :=
| Undefined
| Loading
| IsError (e : ErrorLike).

(** What the component does to the outside: a request, an event sent to
    [eventLogger.log], a call of one of the callbacks of the props. *)
Inductive Effect :=
| Requested (m : Mutation)
| Logged (name : string)
| OnError (e : ErrorLike)
| OnDidRemove (email : string)
| OnEmailVerify
| OnEmailResendVerification.

(** The props: the user id, the email, and which of the optional callbacks
    are given. *)
Record Props := {
  user : string;
  emailProps : EmailProps;
  onError : bool;
  onDidRemove : bool;
  onEmailVerify : bool;
  onEmailResendVerification : bool
}.

(** How the outside answers: [None] when the call returns, [Some t] when it
    throws [t]. For a request this is the outcome of
    [dataOrThrowErrors(await requestGraphQL(...).toPromise())]. *)
Record Outside := {
  requestGraphQL : Mutation -> option Thrown;
  eventLogger_log : string -> option Thrown;
  callback : Effect -> option Thrown
}.

(** The state hook and the effects so far. *)
Record World := {
  statusOrError : Status;
  effects : list Effect
}.

(** A computation that may throw. *)
Definition M (A : Type) : Type := World -> (A + Thrown) * World.

Definition ret {A : Type} (a : A) : M A := fun w => (inl a, w).

Definition bind {A B : Type} (m : M A) (k : A -> M B) : M B :=
  fun w =>
    match m w with
    | (inl a, w') => k a w'
    | (inr t, w') => (inr t, w')
    end.

(** [try { body } catch (error) { handler(error) }] *)
Definition try_catch {A : Type} (body : M A) (handler : Thrown -> M A) : M A :=
  fun w =>
    match body w with
    | (inl a, w') => (inl a, w')
    | (inr t, w') => handler t w'
    end.

Definition setStatusOrError (s : Status) : M unit :=
  fun w => (inl tt, {| statusOrError := s; effects := effects w |}).

Definition outcome (o : Outside) (e : Effect) : option Thrown :=
  match e with
  | Requested m => requestGraphQL o m
  | Logged name => eventLogger_log o name
  | _ => callback o e
  end.

(** One call to the outside: it is made, then returns or throws. *)
Definition perform (o : Outside) (e : Effect) : M unit :=
  fun w =>
    let w' := {| statusOrError := statusOrError w; effects := effects w ++ [e] |} in
    match outcome o e with
    | None => (inl tt, w')
    | Some t => (inr t, w')
    end.

(** [if (cb) { cb(...) }] *)
Definition when_given (given : bool) (o : Outside) (e : Effect) : M unit :=
  if given then perform o e else ret tt.

(** Lines 44-55. *)
Definition handleError (p : Props) (o : Outside) (error : Thrown) : M unit :=
  let emailError := asError error in
  if onError p then
    bind (perform o (OnError emailError)) (fun _ => setStatusOrError Undefined)
  else setStatusOrError (IsError emailError).

(** Lines 57-83. *)
Definition removeEmail (p : Props) (o : Outside) : M unit :=
  bind (setStatusOrError Loading) (fun _ =>
    try_catch
      (bind (perform o (Requested (RemoveUserEmail (user p) (email (emailProps p))))) (fun _ =>
       bind (setStatusOrError Undefined) (fun _ =>
       bind (perform o (Logged "UserEmailAddressDeleted")) (fun _ =>
       when_given (onDidRemove p) o (OnDidRemove (email (emailProps p)))))))
      (handleError p o)).

(** Lines 85-116. *)
Definition updateEmailVerification (p : Props) (o : Outside) (verified : bool) : M unit :=
  bind (setStatusOrError Loading) (fun _ =>
    try_catch
      (bind (perform o (Requested
               (SetUserEmailVerified (user p) (email (emailProps p)) verified))) (fun _ =>
       bind (setStatusOrError Undefined) (fun _ =>
       bind (perform o (Logged (if verified then "UserEmailAddressMarkedVerified"
                                else "UserEmailAddressMarkedUnverified"))) (fun _ =>
       when_given (onEmailVerify p) o OnEmailVerify))))
      (handleError p o)).

(** Lines 118-144. *)
Definition resendEmailVerification (p : Props) (o : Outside) (email : string) : M unit :=
  bind (setStatusOrError Loading) (fun _ =>
    try_catch
      (bind (perform o (Requested (ResendVerificationEmail (user p) email))) (fun _ =>
       bind (setStatusOrError Undefined) (fun _ =>
       bind (perform o (Logged "UserEmailAddressVerificationResent")) (fun _ =>
       when_given (onEmailResendVerification p) o OnEmailResendVerification))))
      (handleError p o)).

(** What is rendered, lines 146-195. *)
Inductive Badge := VerifiedBadge | ResendButton | NotVerifiedBadge.

Record View := {
  shownEmail : string;
  badge : Badge;
  primaryBadge : bool;
  (* the label of the button and the argument its click gives to
     updateEmailVerification *)
  verifyButton : option (string * bool);
  removeButton : bool;
  disabled : bool;
  errorAlert : option ErrorLike
}.

Definition render (p : Props) (s : Status) : View :=
  let e := emailProps p in
  {| shownEmail := email e;
     badge := if verified e then VerifiedBadge
              else if verificationPending e then ResendButton
              else NotVerifiedBadge;
     primaryBadge := isPrimary e;
     verifyButton :=
       if viewerCanManuallyVerify e
       then Some (if verified e then "Mark as unverified" else "Mark as verified",
                  negb (verified e))
       else None;
     removeButton := negb (isPrimary e);
     disabled := match s with Loading => true | _ => false end;
     errorAlert := match s with IsError err => Some err | _ => None end |}.

(** The three operations a click starts, with what they ask the server
    for, the event they log and the callback they end with. *)
Inductive Operation :=
| Remove
| UpdateVerification (verified : bool)
| Resend.

Definition start (p : Props) (o : Outside) (op : Operation) : M unit :=
  match op with
  | Remove => removeEmail p o
  | UpdateVerification v => updateEmailVerification p o v
  | Resend => resendEmailVerification p o (email (emailProps p))
  end.

Definition mutation_of (p : Props) (op : Operation) : Mutation :=
  match op with
  | Remove => RemoveUserEmail (user p) (email (emailProps p))
  | UpdateVerification v => SetUserEmailVerified (user p) (email (emailProps p)) v
  | Resend => ResendVerificationEmail (user p) (email (emailProps p))
  end.

Definition event_of (op : Operation) : string :=
  match op with
  | Remove => "UserEmailAddressDeleted"
  | UpdateVerification true => "UserEmailAddressMarkedVerified"
  | UpdateVerification false => "UserEmailAddressMarkedUnverified"
  | Resend => "UserEmailAddressVerificationResent"
  end.

Definition callback_of (p : Props) (op : Operation) : list Effect :=
  match op with
  | Remove => if onDidRemove p then [OnDidRemove (email (emailProps p))] else []
  | UpdateVerification _ => if onEmailVerify p then [OnEmailVerify] else []
  | Resend => if onEmailResendVerification p then [OnEmailResendVerification] else []
  end.

End Component.

End UserEmail.

(** An email that is not primary, shown to a viewer who gave the onError
    and the onDidRemove callbacks. *)
Definition example_props : UserEmail.Props :=
  {| UserEmail.user := "VXNlcjox";
     UserEmail.emailProps :=
       {| UserEmail.email := "a@example.com"; UserEmail.isPrimary := false;
          UserEmail.verified := false; UserEmail.verificationPending := true;
          UserEmail.viewerCanManuallyVerify := true |};
     UserEmail.onError := false;
     UserEmail.onDidRemove := true;
     UserEmail.onEmailVerify := false;
     UserEmail.onEmailResendVerification := false |}.

(** Errors and thrown values as their messages. Every call returns. *)
Definition outside_ok : @UserEmail.Outside string string :=
  {| UserEmail.requestGraphQL := fun _ => None;
     UserEmail.eventLogger_log := fun _ => None;
     UserEmail.callback := fun _ => None |}.

(** Every request throws. *)
Definition outside_down : @UserEmail.Outside string string :=
  {| UserEmail.requestGraphQL := fun _ => Some "network error";
     UserEmail.eventLogger_log := fun _ => None;
     UserEmail.callback := fun _ => None |}.

Definition fresh_world : @UserEmail.World string :=
  {| UserEmail.statusOrError := UserEmail.Undefined; UserEmail.effects := [] |}.

(* ===================================================================== *)
(** * Classification *)
(* ===================================================================== *)

Lemma HasPrefix_app (s rest : string) : HasPrefix (s +:+ rest) s = true.
Proof.
  unfold HasPrefix. induction s as [|c s IH]; simpl.
  - by destruct rest.
  - destruct (ascii_dec c c) as [_|Hne]; [exact IH | by destruct Hne].
Qed.

Lemma HasPrefix_split (s p : string) :
  HasPrefix s p = true -> exists rest, s = p +:+ rest.
Proof.
  unfold HasPrefix. revert s. induction p as [|c p IH]; intros s Hp; simpl in *.
  - by exists s.
  - destruct s as [|d s]; [by destruct p|].
    simpl in Hp. destruct (ascii_dec c d) as [->|]; [|done].
    destruct (IH s Hp) as [rest ->]. by exists rest.
Qed.

Lemma classify_cases (path : string) :
  classify path = "search" \/ classify path = "graphql" \/ classify path = "core".
Proof.
  unfold classify. destruct (HasPrefix _ _); [by left|].
  destruct (String.eqb _ _); [right; by left | right; by right].
Qed.

(** C4. Classification is a total function of the path alone: a path that
    starts with /search/ is in class search, the path /graphql is in class
    graphql, and every other path is in class core; there is no fourth
    class. *)
Theorem classify_total (path : string) :
  ((exists rest, path = "/search/" +:+ rest) -> classify path = "search") /\
  (path = "/graphql" -> classify path = "graphql") /\
  ((forall rest, path <> "/search/" +:+ rest) -> path <> "/graphql" ->
     classify path = "core") /\
  (classify path = "search" \/ classify path = "graphql" \/ classify path = "core").
Proof.
  split; [|split; [|split]].
  - intros [rest ->]. unfold classify. by rewrite HasPrefix_app.
  - by intros ->.
  - intros Hns Hng. unfold classify.
    destruct (HasPrefix path "/search/") eqn:Hp.
    + destruct (HasPrefix_split _ _ Hp) as [rest ->]. by destruct (Hns rest).
    + destruct (String.eqb path "/graphql") eqn:He; [|done].
      apply String.eqb_eq in He. by destruct Hng.
  - apply classify_cases.
Qed.

Lemma classify_total_witness :
  classify "/search/repositories" = "search" /\
  classify "/graphql" = "graphql" /\
  classify "/repos/a/b" = "core".
Proof.
  split; [|split].
  - apply (proj1 (classify_total "/search/repositories")).
    by exists "repositories".
  - by apply (proj1 (proj2 (classify_total "/graphql"))).
  - apply (proj1 (proj2 (proj2 (classify_total "/repos/a/b")))).
    + intros rest H. discriminate H.
    + intros H. discriminate H.
Defined.

(* ===================================================================== *)
(** * The response writer *)
(* ===================================================================== *)

Lemma copy_headers_spec (src : Header.t) (w : ResponseWriter) :
  wHeader (copy_headers src w) = src ∪ wHeader w /\
  wSent (copy_headers src w) = wSent w /\
  wBody (copy_headers src w) = wBody w.
Proof.
  unfold copy_headers.
  apply (map_fold_weak_ind
           (fun (r : ResponseWriter) (m : Header.t) =>
              wHeader r = m ∪ wHeader w /\ wSent r = wSent w /\ wBody r = wBody w)).
  - by rewrite (left_id_L ∅ (∪)).
  - intros k v m r Hk (Hh & Hs & Hb). simpl.
    rewrite Hh, Hs, Hb. by rewrite insert_union_l.
Qed.

Lemma copy_headers_lookup (src : Header.t) (w : ResponseWriter) k v :
  src !! k = Some v -> wHeader (copy_headers src w) !! k = Some v.
Proof.
  intros Hk. destruct (copy_headers_spec src w) as (-> & _).
  by apply lookup_union_Some_l.
Qed.

Lemma checkWriteHeaderCode_spec code :
  checkWriteHeaderCode code = true <-> 100 <= code <= 999.
Proof.
  unfold checkWriteHeaderCode. rewrite negb_true_iff, orb_false_iff.
  rewrite !Z.ltb_ge. lia.
Qed.

Lemma WriteHeader_unsent code w :
  wSent w = None ->
  checkWriteHeaderCode code = true ->
  WriteHeader code w =
    Some {| wHeader := wHeader w; wSent := Some (code, wHeader w); wBody := wBody w |}.
Proof. intros H Hc. unfold WriteHeader. by rewrite H, Hc. Qed.

(** The panic of WriteHeader: a code that is not of three digits, on a
    writer that has sent nothing. *)
Lemma WriteHeader_panics code w :
  WriteHeader code w = None <-> wSent w = None /\ checkWriteHeaderCode code = false.
Proof.
  unfold WriteHeader. destruct (wSent w) as [s|]; [by split; [|intros []]|].
  destruct (checkWriteHeaderCode code); by split; [|intros []].
Qed.

Lemma WriteHeader_sent code w w' :
  WriteHeader code w = Some w' -> exists s, wSent w' = Some s.
Proof.
  unfold WriteHeader. destruct (wSent w) as [s|] eqn:H.
  - intros [= <-]. eauto.
  - destruct (checkWriteHeaderCode code); [|done]. intros [= <-]. simpl. eauto.
Qed.

Lemma Write_sent data w s :
  wSent w = Some s ->
  Write data w = {| wHeader := wHeader w; wSent := Some s; wBody := wBody w +:+ data |}.
Proof. intros H. unfold Write, WriteHeader. rewrite H. simpl. by rewrite H. Qed.

Lemma string_app_nil_l (a : string) : "" +:+ a = a.
Proof. reflexivity. Qed.

Lemma string_app_cons (c : ascii) (a b : string) :
  String c a +:+ b = String c (a +:+ b).
Proof. reflexivity. Qed.

Lemma string_app_assoc (a b c : string) : (a +:+ b) +:+ c = a +:+ (b +:+ c).
Proof.
  induction a as [|x a IH]; [done|].
  rewrite !string_app_cons. by rewrite IH.
Qed.

Lemma string_app_nil_r (a : string) : a +:+ "" = a.
Proof.
  induction a as [|x a IH]; [done|].
  rewrite string_app_cons. by rewrite IH.
Qed.

Lemma fold_append_acc (l : list string) (acc : string) :
  fold_left String.append l acc = acc +:+ fold_left String.append l "".
Proof.
  revert acc. induction l as [|c l IH]; intros acc; simpl.
  - by rewrite string_app_nil_r.
  - rewrite string_app_nil_l, (IH (acc +:+ c)), (IH c). by rewrite string_app_assoc.
Qed.

(** Copying a reader to a writer whose header has been sent appends the
    bytes of all chunks and changes nothing else. *)
Lemma io_Copy_sent (w : ResponseWriter) (src : Reader) s :
  wSent w = Some s ->
  io_Copy w src =
    {| wHeader := wHeader w; wSent := Some s;
       wBody := wBody w +:+ fst (ReadAll src) |}.
Proof.
  unfold io_Copy, ReadAll. simpl. generalize (chunks src) as l.
  intros l. revert w. induction l as [|c l IH]; intros w Hs; simpl.
  - rewrite string_app_nil_r. destruct w; simpl in *. by subst.
  - rewrite (IH (Write c w)).
    + rewrite (Write_sent _ _ _ Hs). simpl.
      rewrite string_app_nil_l, (fold_append_acc l c). by rewrite string_app_assoc.
    + by rewrite (Write_sent _ _ _ Hs).
Qed.

Lemma ReadAll_bytes_NewReader (b : string) :
  fst (ReadAll (bytes_NewReader b)) = b.
Proof.
  unfold ReadAll, bytes_NewReader. simpl.
  destruct (String.eqb b "") eqn:He; simpl; [|done].
  apply String.eqb_eq in He. by subst.
Qed.

(** http.Error on a writer that has sent nothing. *)
Lemma http_Error_unsent (w : ResponseWriter) (error : string) (code : Z) :
  wSent w = None ->
  checkWriteHeaderCode code = true ->
  let h := <["X-Content-Type-Options" := ["nosniff"]]>
             (<["Content-Type" := ["text/plain; charset=utf-8"]]> (wHeader w)) in
  http_Error w error code =
    Some {| wHeader := h; wSent := Some (code, h);
            wBody := wBody w +:+ (error +:+ newline) |}.
Proof.
  intros Hs Hc h. unfold http_Error.
  rewrite WriteHeader_unsent; [|by simpl|done].
  cbn [fmap option_fmap option_map]. by rewrite (Write_sent _ _ (code, h)).
Qed.

(** http.Error with a status of three digits does not panic, whatever the
    writer has sent. *)
Lemma http_Error_is_Some (w : ResponseWriter) (error : string) (code : Z) :
  checkWriteHeaderCode code = true -> is_Some (http_Error w error code).
Proof.
  intros Hc. unfold http_Error, WriteHeader. cbn [w_set_header wSent].
  destruct (wSent w); [by eexists|]. rewrite Hc. by eexists.
Qed.
(* ===================================================================== *)
(** * float64 of an int *)
(* ===================================================================== *)

Module Float64Facts.

Lemma digits2_pos_bounds (m : positive) :
  2 ^ (Zpos (digits2_pos m) - 1) <= Zpos m < 2 ^ Zpos (digits2_pos m).
Proof.
  induction m as [m IH|m IH|]; cbn [digits2_pos].
  - rewrite Pos2Z.inj_succ.
    replace (Z.succ (Zpos (digits2_pos m)) - 1) with (Zpos (digits2_pos m) - 1 + 1) by lia.
    rewrite !Z.pow_add_r, Z.pow_1_r by lia. rewrite Z.pow_succ_r by lia. lia.
  - rewrite Pos2Z.inj_succ.
    replace (Z.succ (Zpos (digits2_pos m)) - 1) with (Zpos (digits2_pos m) - 1 + 1) by lia.
    rewrite !Z.pow_add_r, Z.pow_1_r by lia. rewrite Z.pow_succ_r by lia. lia.
  - done.
Qed.

Lemma iter_xO (m p : positive) : Zpos (Pos.iter xO m p) = Zpos m * 2 ^ Zpos p.
Proof.
  induction p as [|p IH] using Pos.peano_ind.
  - cbn [Pos.iter]. lia.
  - rewrite Pos.iter_succ, Pos2Z.inj_succ, Z.pow_succ_r by lia.
    rewrite Pos2Z.inj_xO, IH. lia.
Qed.

Lemma digits2_pos_iter_xO (m p : positive) :
  digits2_pos (Pos.iter xO m p) = (digits2_pos m + p)%positive.
Proof.
  induction p as [|p IH] using Pos.peano_ind.
  - cbn [Pos.iter digits2_pos]. lia.
  - rewrite Pos.iter_succ. cbn [digits2_pos]. rewrite IH. lia.
Qed.

(** A mantissa of 53 bits and an exponent within bounds is not rounded. *)
Lemma binary_round_aux_exact (s : bool) (m : positive) (e : Z) :
  digits2_pos m = 53%positive ->
  -1074 <= e <= 971 ->
  binary_round_aux float64_prec float64_emax s (Zpos m) e loc_Exact = S754_finite s m e.
Proof.
  intros Hd He.
  assert (Hshr : shr_fexp float64_prec float64_emax (Zpos m) e loc_Exact
                 = ({| shr_m := Zpos m; shr_r := false; shr_s := false |}, e)).
  { unfold shr_fexp, fexp, emin, float64_prec, float64_emax. cbn [Zdigits2]. rewrite Hd.
    replace (Z.max (53 + e - 53) (3 - 1024 - 53) - e) with 0 by lia.
    reflexivity. }
  unfold binary_round_aux. rewrite Hshr. cbn [shr_m loc_of_shr_record round_nearest_even].
  rewrite Hshr. cbn [shr_m].
  unfold float64_prec, float64_emax.
  destruct (Z.leb_spec e (1024 - 53)); [done | lia].
Qed.

(** The float64 of a positive number below 2^53, with its sign. *)
Lemma binary_round_small (s : bool) (m : positive) :
  Zpos m < 2 ^ 53 ->
  float64_integer (binary_round float64_prec float64_emax s m 0)
    = Some (cond_Zopp s (Zpos m)).
Proof.
  intros Hm.
  pose proof (digits2_pos_bounds m) as [Hlo Hhi].
  assert (Hd : Zpos (digits2_pos m) <= 53).
  { destruct (Z.le_gt_cases (Zpos (digits2_pos m)) 53) as [|Hgt]; [done|].
    assert (2 ^ 53 <= 2 ^ (Zpos (digits2_pos m) - 1)) by (apply Z.pow_le_mono_r; lia).
    lia. }
  unfold binary_round, shl_align, fexp, emin.
  replace (Z.max (Zpos (digits2_pos m) + 0 - float64_prec) (3 - float64_emax - float64_prec))
    with (Zpos (digits2_pos m) - 53) by (unfold float64_prec, float64_emax; lia).
  rewrite Z.sub_0_r.
  destruct (Zpos (digits2_pos m) - 53) as [|p|p] eqn:Hp; [|lia|].
  - rewrite binary_round_aux_exact; [|lia|lia].
    cbn [float64_integer]. cbn [Z.leb Z.compare]. by rewrite Z.pow_0_r, Z.mul_1_r.
  - rewrite binary_round_aux_exact.
    + cbn [float64_integer]. cbn [Z.leb Z.compare Z.opp].
      rewrite iter_xO. rewrite Z.mod_mul by lia. cbn [Z.eqb].
      by rewrite Z.div_mul by lia.
    + rewrite digits2_pos_iter_xO. lia.
    + lia.
Qed.

(** float64(n) is n when n has no more than 53 bits. *)
Lemma float64_exact (n : Z) :
  - 2 ^ 53 < n < 2 ^ 53 -> float64_integer (float64 n) = Some n.
Proof.
  intros Hn. unfold float64, binary_normalize. destruct n as [|m|m]; [done| |].
  - rewrite binary_round_small by lia. done.
  - rewrite binary_round_small by lia. done.
Qed.

End Float64Facts.

(* ===================================================================== *)
(** * strconv.Atoi: what comes with an error *)
(* ===================================================================== *)

Module StrconvFacts.
Import Strconv.

(** The byte test of the fast path is the digit test. *)
Lemma fast_digit_test (c : ascii) :
  (9 <? (byte_val c - 48) mod 256) = negb (is_digit c).
Proof. destruct c as [[] [] [] [] [] [] [] []]; reflexivity. Qed.

Lemma atoi_fast_loop_digits (s : string) (n m : Z) :
  atoi_fast_loop s n = Some m -> string_forallb is_digit s = true.
Proof.
  revert n. induction s as [|c s IH]; intros n Hl; simpl in *; [done|].
  rewrite fast_digit_test in Hl.
  destruct (is_digit c); simpl in *; [by eapply IH | done].
Qed.

Lemma parseUint_loop_digits (s : string) (n m : Z) :
  parseUint_loop s n = (m, None) -> string_forallb is_digit s = true.
Proof.
  revert n. induction s as [|c s IH]; intros n Hl; [done|].
  cbn [parseUint_loop string_forallb] in *.
  destruct (is_digit c); cbn [negb andb] in *; [|done].
  destruct (maxUint64 / 10 + 1 <=? n); [done|].
  match type of Hl with (if ?b then _ else _) = _ => destruct b end; [done|].
  by eapply IH.
Qed.

Lemma parseUint_loop_range (s : string) (n un : Z) :
  parseUint_loop s n = (un, Some ErrRange) -> un = maxUint64.
Proof.
  revert n. induction s as [|c s IH]; intros n Hl; [done|].
  cbn [parseUint_loop] in Hl.
  destruct (negb (is_digit c)); [done|].
  destruct (maxUint64 / 10 + 1 <=? n); [by injection Hl as <-|].
  match type of Hl with (if ?b then _ else _) = _ => destruct b end;
    [by injection Hl as <- | by eapply IH].
Qed.

Lemma ParseUint_range (s : string) (un : Z) :
  ParseUint s = (un, Some ErrRange) -> un = maxUint64.
Proof.
  destruct s as [|c s]; [done|]. unfold ParseUint. apply parseUint_loop_range.
Qed.

Lemma ParseUint_digits (s : string) (m : Z) :
  ParseUint s = (m, None) ->
  negb (String.eqb s "") && string_forallb is_digit s = true.
Proof.
  destruct s as [|c s]; [done|]. unfold ParseUint. intros Hl.
  apply parseUint_loop_digits in Hl. by rewrite Hl.
Qed.

Lemma atoi_fast_error (s : string) (n : Z) (e : NumError) :
  atoi_fast s = (n, Some e) -> n = 0 /\ e = ErrSyntax.
Proof.
  unfold atoi_fast. destruct s as [|c0 r0]; [by intros [= <- <-]|].
  match goal with |- (if ?b then _ else _) = _ -> _ => destruct b end;
    [by intros [= <- <-]|].
  destruct (atoi_fast_loop _ 0); [done | by intros [= <- <-]].
Qed.

Lemma ParseInt_error (s : string) (n : Z) (e : NumError) :
  ParseInt s = (n, Some e) ->
  (e = ErrSyntax /\ n = 0) \/ (e = ErrRange /\ (n = maxInt64 \/ n = minInt64)).
Proof.
  unfold ParseInt. destruct s as [|c0 r0]; [intros [= <- <-]; by left|].
  destruct (ParseUint _) as [un [[]|]].
  - intros [= <- <-]. by left.
  - repeat match goal with |- (if ?b then _ else _) = _ -> _ => destruct b end;
      intros [= <- <-]; right; split; try done; [by left | by right].
  - repeat match goal with |- (if ?b then _ else _) = _ -> _ => destruct b end;
      intros [= <- <-]; right; split; try done; [by left | by right].
Qed.

(** With a syntax error Atoi returns 0, with a range error the bound of
    int64 on the side of the sign. *)
Lemma Atoi_error (s : string) (n : Z) (e : NumError) :
  Atoi s = (n, Some e) ->
  (e = ErrSyntax /\ n = 0) \/ (e = ErrRange /\ (n = maxInt64 \/ n = minInt64)).
Proof.
  unfold Atoi. destruct (_ && _).
  - intros Hf. apply atoi_fast_error in Hf as [-> ->]. by left.
  - apply ParseInt_error.
Qed.

(** Below 19 bytes only the fast path runs, and its errors come with 0. *)
Lemma Atoi_short_error (s : string) (n : Z) (e : NumError) :
  (String.length s < 19)%nat -> Atoi s = (n, Some e) -> n = 0 /\ e = ErrSyntax.
Proof.
  intros Hlen. unfold Atoi.
  destruct (0 <? String.length s)%nat eqn:H0.
  - assert (Hlt : (String.length s <? 19)%nat = true) by by apply Nat.ltb_lt.
    rewrite Hlt. apply atoi_fast_error.
  - apply Nat.ltb_ge in H0. destruct s as [|c s]; [|simpl in H0; lia].
    by intros [= <- <-].
Qed.

(** A value that is not an optionally signed digit sequence makes Atoi
    return an error. *)
Lemma Atoi_not_decimal (s : string) :
  decimal_syntax s = false -> exists n e, Atoi s = (n, Some e).
Proof.
  intros Hd. destruct (Atoi s) as [n [e|]] eqn:Ha; [by eauto|]. exfalso.
  unfold Atoi in Ha.
  destruct s as [|c0 r0]; [done|].
  unfold decimal_syntax in Hd.
  destruct (_ && _) in Ha.
  - unfold atoi_fast in Ha.
    destruct (Ascii.eqb c0 "-" || Ascii.eqb c0 "+") eqn:Hsign; cbn [andb] in Ha.
    + destruct r0 as [|c1 r1]; [done|]. cbn [String.length Nat.ltb Nat.leb] in Ha.
      destruct (atoi_fast_loop _ 0) eqn:Hl in Ha; [|done].
      apply atoi_fast_loop_digits in Hl. by rewrite Hl in Hd.
    + destruct (atoi_fast_loop _ 0) eqn:Hl in Ha; [|done].
      apply atoi_fast_loop_digits in Hl. by rewrite Hl in Hd.
  - unfold ParseInt in Ha.
    assert (Hsign : Ascii.eqb c0 "+" || Ascii.eqb c0 "-"
                    = Ascii.eqb c0 "-" || Ascii.eqb c0 "+") by apply orb_comm.
    rewrite Hsign in Ha.
    destruct (ParseUint _) as [un [[]|]] eqn:Hu; [done| |].
    + apply ParseUint_range in Hu as ->.
      destruct (Ascii.eqb c0 "-"); vm_compute in Ha; done.
    + apply ParseUint_digits in Hu. by rewrite Hu in Hd.
Qed.

End StrconvFacts.

(* ===================================================================== *)
(** * net/url: parsing what Encode wrote *)
(* ===================================================================== *)

Module URLFacts.
Import URL.

(** ** Escaping *)

Lemma QueryEscape_cons_unescape (c : ascii) (r : string) :
  QueryUnescape (QueryEscape (String c r)) = String c <$> QueryUnescape (QueryEscape r).
Proof. destruct c as [[] [] [] [] [] [] [] []]; reflexivity. Qed.

Lemma QueryUnescape_QueryEscape (s : string) :
  QueryUnescape (QueryEscape s) = Some s.
Proof.
  induction s as [|c s IH]; [done|].
  by rewrite QueryEscape_cons_unescape, IH.
Qed.

Lemma QueryEscape_cons_plain (c : ascii) (r : string) :
  string_forallb plain (QueryEscape (String c r)) = string_forallb plain (QueryEscape r).
Proof. destruct c as [[] [] [] [] [] [] [] []]; reflexivity. Qed.

Lemma QueryEscape_plain (s : string) : string_forallb plain (QueryEscape s) = true.
Proof.
  induction s as [|c s IH]; [done|]. by rewrite QueryEscape_cons_plain.
Qed.

(** ** Cutting at separators *)

Lemma plain_not_pair_sep (c : ascii) :
  plain c = true -> Ascii.eqb c "&" || Ascii.eqb c ";" = false.
Proof. unfold plain. by destruct (Ascii.eqb c "&"), (Ascii.eqb c ";"). Qed.

Lemma plain_not_eq (c : ascii) : plain c = true -> Ascii.eqb c "=" = false.
Proof.
  unfold plain. by destruct (Ascii.eqb c "&"), (Ascii.eqb c ";"), (Ascii.eqb c "=").
Qed.

Lemma cut_eq_plain (k v : string) :
  string_forallb plain k = true ->
  cut_eq (k +:+ "=" +:+ v) = (k, Some v).
Proof.
  induction k as [|c k IH]; intros Hk; [done|].
  simpl in Hk. apply andb_true_iff in Hk as [Hc Hk].
  rewrite string_app_cons. cbn [cut_eq].
  by rewrite (plain_not_eq _ Hc), (IH Hk).
Qed.

Lemma string_forallb_app (f : ascii -> bool) (a b : string) :
  string_forallb f (a +:+ b) = string_forallb f a && string_forallb f b.
Proof.
  induction a as [|c a IH]; [done|].
  rewrite string_app_cons. simpl. by rewrite IH, andb_assoc.
Qed.

Lemma string_forallb_impl (f g : ascii -> bool) (s : string) :
  (forall c, f c = true -> g c = true) ->
  string_forallb f s = true -> string_forallb g s = true.
Proof.
  intros Hfg. induction s as [|c s IH]; [done|]. simpl.
  intros [Hc Hs]%andb_true_iff. by rewrite (Hfg _ Hc), (IH Hs).
Qed.

Lemma piece_unbroken (kv : string * string) : unbroken (piece kv) = true.
Proof.
  unfold unbroken, piece. rewrite !string_forallb_app.
  assert (Hp : forall s, string_forallb (fun c => negb (Ascii.eqb c "&" || Ascii.eqb c ";"))
                           (QueryEscape s) = true).
  { intros s. apply (string_forallb_impl plain); [|apply QueryEscape_plain].
    intros c Hc. by rewrite (plain_not_pair_sep _ Hc). }
  by rewrite !Hp.
Qed.

Lemma piece_nonempty (kv : string * string) : String.eqb (piece kv) "" = false.
Proof.
  unfold piece. by destruct (QueryEscape kv.1) as [|c s].
Qed.

Lemma cut_pair_last (p : string) :
  unbroken p = true -> cut_pair p = (p, None).
Proof.
  induction p as [|c p IH]; intros Hp; [done|].
  simpl in Hp. apply andb_true_iff in Hp as [Hc Hp].
  cbn [cut_pair]. apply negb_true_iff in Hc. by rewrite Hc, (IH Hp).
Qed.

Lemma cut_pair_more (p rest : string) :
  unbroken p = true -> cut_pair (p +:+ "&" +:+ rest) = (p, Some rest).
Proof.
  induction p as [|c p IH]; intros Hp; [done|].
  simpl in Hp. apply andb_true_iff in Hp as [Hc Hp].
  rewrite string_app_cons. cbn [cut_pair].
  apply negb_true_iff in Hc. by rewrite Hc, (IH Hp).
Qed.

(** ** One pair *)

Lemma parse_pair_piece (m : Values) (kv : string * string) :
  parse_pair m (piece kv) = add_pair m kv.
Proof.
  unfold parse_pair. rewrite piece_nonempty. unfold piece.
  rewrite (cut_eq_plain _ _ (QueryEscape_plain kv.1)). cbn [from_option id].
  by rewrite !QueryUnescape_QueryEscape.
Qed.

(** ** Encode as a list of pairs *)

Lemma encode_key_pairs (k : string) (vs : list string) (buf : string) :
  encode_key (QueryEscape k) vs buf = fold_left write_pair (map (pair k) vs) buf.
Proof.
  unfold encode_key. revert buf. induction vs as [|x vs IH]; intros buf; [done|].
  simpl. by rewrite IH.
Qed.

Lemma encode_keys_pairs (v : Values) (ks : list string) (buf : string) :
  fold_left (fun buf k => encode_key (QueryEscape k) (default [] (v !! k)) buf) ks buf
    = fold_left write_pair (flat_map (pairs_of_key v) ks) buf.
Proof.
  revert buf. induction ks as [|k ks IH]; intros buf; [done|].
  simpl. rewrite fold_left_app, IH. by rewrite encode_key_pairs.
Qed.

Lemma Encode_pairs (v : Values) : Encode v = fold_left write_pair (pairs v) "".
Proof. apply encode_keys_pairs. Qed.

Lemma length_pos_nonempty (s : string) :
  s <> "" -> (0 <? String.length s)%nat = true.
Proof. by destruct s. Qed.

Lemma app_piece_nonempty (buf : string) (kv : string * string) : buf +:+ piece kv <> "".
Proof.
  pose proof (piece_nonempty kv) as Hp. destruct buf; [|done].
  rewrite string_app_nil_l. intros He. by rewrite He in Hp.
Qed.

Lemma write_pairs_nonempty (ps : list (string * string)) (buf : string) :
  buf <> "" ->
  fold_left write_pair ps buf =
    match ps with [] => buf | _ => buf +:+ "&" +:+ joined ps end.
Proof.
  revert buf. induction ps as [|p ps IH]; intros buf Hb; [done|].
  cbn [fold_left]. unfold write_pair at 2. rewrite (length_pos_nonempty _ Hb).
  rewrite IH by apply app_piece_nonempty.
  destruct ps as [|p' ps]; [by rewrite string_app_assoc|].
  unfold joined. cbn [map Join]. by rewrite !string_app_assoc.
Qed.

Lemma write_pairs_joined (ps : list (string * string)) :
  fold_left write_pair ps "" = joined ps.
Proof.
  destruct ps as [|p ps]; [done|].
  cbn [fold_left]. unfold write_pair at 2. cbn [String.length Nat.ltb Nat.leb].
  rewrite string_app_nil_l.
  rewrite write_pairs_nonempty.
  - by destruct ps.
  - pose proof (app_piece_nonempty "" p) as Hp. by rewrite string_app_nil_l in Hp.
Qed.

(** ** Parsing the joined pieces *)

Lemma string_length_app (a b : string) :
  String.length (a +:+ b) = (String.length a + String.length b)%nat.
Proof.
  induction a as [|c a IH]; [done|]. rewrite string_app_cons. simpl. by rewrite IH.
Qed.

Lemma parseQuery_empty (fuel : nat) (m : Values) : parseQuery fuel m "" = m.
Proof. by destruct fuel. Qed.

Lemma parseQuery_joined (ps : list (string * string)) (fuel : nat) (m : Values) :
  (String.length (joined ps) <= fuel)%nat ->
  parseQuery fuel m (joined ps) = fold_left add_pair ps m.
Proof.
  revert fuel m. induction ps as [|p ps IH]; intros fuel m Hfuel.
  - apply parseQuery_empty.
  - pose proof (piece_nonempty p) as Hne.
    destruct ps as [|p' ps].
    + unfold joined in *. cbn [map Join] in *.
      destruct fuel as [|fuel].
      { destruct (piece p); [done | simpl in Hfuel; lia]. }
      cbn [parseQuery]. rewrite Hne, (cut_pair_last _ (piece_unbroken p)).
      cbn [from_option]. by rewrite parseQuery_empty, parse_pair_piece.
    + assert (Hj : joined (p :: p' :: ps) = piece p +:+ "&" +:+ joined (p' :: ps)) by done.
      rewrite Hj in *.
      rewrite !string_length_app in Hfuel. cbn [String.length] in Hfuel.
      destruct fuel as [|fuel]; [lia|].
      cbn [parseQuery].
      assert (Hq : String.eqb (piece p +:+ "&" +:+ joined (p' :: ps)) "" = false).
      { destruct (piece p); [done | by rewrite string_app_cons]. }
      rewrite Hq, (cut_pair_more _ _ (piece_unbroken p)). cbn [from_option id].
      rewrite parse_pair_piece. apply IH. lia.
Qed.

(** ** The map the pairs rebuild *)

Lemma insert_sorted_perm (k : string) (l : list string) : insert_sorted k l ≡ₚ k :: l.
Proof.
  induction l as [|x l IH]; [done|]. simpl.
  destruct (String.leb k x); [done|]. rewrite IH. apply Permutation_swap.
Qed.

Lemma sort_strings_perm (l : list string) : sort_strings l ≡ₚ l.
Proof.
  induction l as [|x l IH]; [done|]. unfold sort_strings. simpl.
  rewrite insert_sorted_perm. by f_equiv.
Qed.

Lemma add_pairs_key (k : string) (l : list string) (m : Values) :
  fold_left add_pair (map (pair k) l) m =
    match l with
    | [] => m
    | _ => <[k := (default [] (m !! k) ++ l)%list]> m
    end.
Proof.
  revert m. induction l as [|x l IH]; intros m; [done|].
  cbn [map fold_left]. rewrite IH. unfold add_pair. cbn [fst snd].
  destruct l as [|y l]; [done|].
  rewrite lookup_insert_eq, insert_insert_eq. cbn [from_option id].
  by rewrite <- (assoc_L (++)).
Qed.

Lemma add_pairs_keys (v : Values) (ks : list string) (m : Values) (k : string) :
  no_empty_values v ->
  NoDup ks ->
  (forall k', k' ∈ ks -> m !! k' = None /\ is_Some (v !! k')) ->
  fold_left add_pair (flat_map (pairs_of_key v) ks) m !! k =
    if decide (k ∈ ks) then v !! k else m !! k.
Proof.
  intros Hv. revert m. induction ks as [|k0 ks IH]; intros m Hnd Hks.
  - simpl. destruct (decide (k ∈ [])) as [Hin|]; [|done]. by apply elem_of_nil in Hin.
  - apply NoDup_cons in Hnd as [Hk0 Hnd].
    destruct (Hks k0) as [Hm0 [l0 Hl0]]; [by left|].
    pose proof (Hv _ _ Hl0) as Hne.
    cbn [flat_map]. rewrite fold_left_app.
    unfold pairs_of_key at 2. rewrite Hl0. cbn [from_option id].
    rewrite add_pairs_key, Hm0. cbn [from_option id app].
    assert (Hstep : (match l0 with [] => m | _ => <[k0 := l0]> m end) = <[k0 := l0]> m)
      by by destruct l0.
    rewrite Hstep.
    rewrite IH; [|done|].
    + destruct (decide (k ∈ ks)) as [Hin|Hnin].
      * rewrite decide_True; [done | by right].
      * destruct (decide (k = k0)) as [->|Hne0].
        -- rewrite decide_True by by left. by rewrite lookup_insert_eq.
        -- rewrite decide_False.
           ++ by rewrite lookup_insert_ne.
           ++ intros [->|Hin]%elem_of_cons; done.
    + intros k' Hk'. destruct (Hks k') as [Hm' Hv']; [by right|].
      split; [|done]. rewrite lookup_insert_ne; [done|].
      intros ->. done.
Qed.

Lemma add_pairs_all (v : Values) :
  no_empty_values v -> fold_left add_pair (pairs v) ∅ = v.
Proof.
  intros Hv. apply map_eq. intros k. unfold pairs.
  assert (Hin : forall k', k' ∈ sort_strings (map_to_list v).*1 <-> is_Some (v !! k')).
  { intros k'. rewrite sort_strings_perm.
    rewrite list_elem_of_fmap. split.
    - intros [[k1 l] [-> Hkl]]. apply elem_of_map_to_list in Hkl. by eexists.
    - intros [l Hl]. exists (k', l). split; [done|]. by apply elem_of_map_to_list. }
  rewrite add_pairs_keys; [|done| |].
  - destruct (decide (k ∈ _)) as [Hk|Hk]; [done|].
    rewrite lookup_empty. symmetry. apply eq_None_not_Some. by rewrite <- Hin.
  - rewrite sort_strings_perm. apply NoDup_fst_map_to_list.
  - intros k' Hk'. split; [apply lookup_empty | by apply Hin].
Qed.

(** ** The round trip *)

(** Parsing what Encode wrote gives the values back. *)
Lemma Query_Encode (v : Values) : no_empty_values v -> Query (Encode v) = v.
Proof.
  intros Hv. unfold Query.
  rewrite Encode_pairs, write_pairs_joined.
  rewrite parseQuery_joined by done. by apply add_pairs_all.
Qed.

Lemma parse_pair_no_empty (m : Values) (key : string) :
  no_empty_values m -> no_empty_values (parse_pair m key).
Proof.
  intros Hm. unfold parse_pair.
  destruct (String.eqb key ""); [done|].
  destruct (cut_eq key) as [k v].
  destruct (QueryUnescape k) as [k'|]; [|done].
  destruct (QueryUnescape _) as [v'|]; [|done].
  intros k1 l. destruct (decide (k' = k1)) as [->|Hne].
  - rewrite lookup_insert_eq. intros [= <-]. by destruct (default [] (m !! k1)).
  - rewrite lookup_insert_ne by done. apply Hm.
Qed.

Lemma parseQuery_no_empty (fuel : nat) (m : Values) (q : string) :
  no_empty_values m -> no_empty_values (parseQuery fuel m q).
Proof.
  revert m q. induction fuel as [|fuel IH]; intros m q Hm; [done|].
  cbn [parseQuery]. destruct (String.eqb q ""); [done|].
  destruct (cut_pair q) as [key rest]. apply IH. by apply parse_pair_no_empty.
Qed.

Lemma Query_no_empty (q : string) : no_empty_values (Query q).
Proof. apply parseQuery_no_empty. intros k l Hk. by rewrite lookup_empty in Hk. Qed.

Lemma Set_no_empty (v : Values) (k x : string) :
  no_empty_values v -> no_empty_values (Set_ v k x).
Proof.
  intros Hv k1 l. unfold Set_. destruct (decide (k = k1)) as [->|Hne].
  - rewrite lookup_insert_eq. by intros [= <-].
  - rewrite lookup_insert_ne by done. apply Hv.
Qed.

End URLFacts.
(* ===================================================================== *)
(** * One request, from arrival to response *)
(* ===================================================================== *)

Section Serve.

Context `{RL : RateLimit}.

Implicit Types (st : State) (env : Env) (w : ResponseWriter) (r : Request).

Lemma monitor_of_lookup_or_create st c :
  monitor_of (lookup_or_create c st) c = monitor_of st c.
Proof.
  unfold monitor_of, lookup_or_create.
  destruct (monitors st !! c) as [[a m]|] eqn:Hc; simpl.
  - by rewrite Hc.
  - by rewrite lookup_insert_eq.
Qed.

Lemma monitor_of_lookup_or_create_any st c c' :
  monitor_of (lookup_or_create c st) c' = monitor_of st c'.
Proof.
  destruct (decide (c = c')) as [->|Hne]; [apply monitor_of_lookup_or_create|].
  unfold monitor_of, lookup_or_create.
  destruct (monitors st !! c) as [[a m]|] eqn:Hc; simpl; [done|].
  by rewrite lookup_insert_ne.
Qed.

Lemma outbound_lookup_or_create st c r :
  outbound (lookup_or_create c st) r = outbound st r.
Proof.
  unfold outbound, apply_authenticator, lookup_or_create.
  by destruct (monitors st !! c).
Qed.

(** The entry of a class after lines 91-93. *)
Lemma lookup_lookup_or_create st c :
  monitors (lookup_or_create c st) !! c = Some (monitor_address st c, monitor_of st c).
Proof.
  unfold lookup_or_create, monitor_address, monitor_of.
  destruct (monitors st !! c) as [[a m]|] eqn:Hc; simpl.
  - by rewrite Hc.
  - by rewrite lookup_insert_eq.
Qed.

(** The pointer of a class in the map points to the struct in the map. *)
Lemma pointee_live st c a m :
  monitors st !! c = Some (a, m) -> pointee st c a = m.
Proof.
  intros Hc. unfold pointee, monitor_of. rewrite Hc. simpl.
  by rewrite decide_True.
Qed.

Lemma run_answer (res : option ResponseWriter) env ticks calls st w :
  is_Some res ->
  run (answer w res) env ticks calls st =
    {| final := st; response := default w res; panicked := false;
       upstream_calls := calls; clock_reads := ticks |}.
Proof. by intros [w' ->]. Qed.

Lemma StatusForbidden_ok : checkWriteHeaderCode StatusForbidden = true.
Proof. reflexivity. Qed.

Lemma StatusInternalServerError_ok : checkWriteHeaderCode StatusInternalServerError = true.
Proof. reflexivity. Qed.

Lemma run_relay logRequests env ticks calls st w (resp : Response) :
  run (relay logRequests w resp) env ticks calls st =
    {| final := relay_logged logRequests w resp st;
       response := relayed w resp;
       panicked := relay_panics w resp;
       upstream_calls := calls;
       clock_reads := ticks |}.
Proof.
  unfold relay, relay_logged, relayed, relay_panics.
  destruct (WriteHeader (StatusCode resp) (copy_headers (RespHeader resp) w))
    as [w2|] eqn:Hw2; [|done].
  destruct (WriteHeader_sent _ _ _ Hw2) as [s Hs].
  cbn [orb].
  destruct ((StatusCode resp <? 400) || negb logRequests); simpl; [done|].
  f_equal.
  rewrite (io_Copy_sent _ _ _ Hs), (io_Copy_sent _ _ _ Hs).
  by rewrite ReadAll_bytes_NewReader.
Qed.

Lemma run_bookkeep_and_relay logRequests env ticks calls st w resource rateLimit
    (resp : Response) :
  run (bookkeep_and_relay logRequests w resource rateLimit resp) env ticks calls st =
    {| final := relay_logged logRequests w resp (bookkept resource rateLimit resp st);
       response := relayed w resp;
       panicked := relay_panics w resp;
       upstream_calls := calls;
       clock_reads := ticks |}.
Proof.
  unfold bookkeep_and_relay, bookkept. simpl.
  destruct (negb (String.eqb (Header.Get (RespHeader resp) "X-Ratelimit-Remaining") "")).
  - destruct (Strconv.Atoi _) as [limit e]. simpl. by apply run_relay.
  - by apply run_relay.
Qed.

(** A run with no other run in progress, up to line 96: lines 91-94 find
    or create the monitor of the class, and [Get] reads it. *)
Lemma serve_checked logRequests env st w r :
  let resource := classify (Path r) in
  let rateLimit := monitor_address st resource in
  serve logRequests env st w r =
    run
      (let '(rateLimitRemaining, rateLimitReset, rateLimitKnown) :=
         Monitor_Get (monitor_of st resource) (clock env 0%nat) in
       if rateLimitKnown && ((rateLimitRemaining <? 1) && (0 <? rateLimitReset)) then
         TimeNow (fun now =>
           let nextTime := Time_Add now rateLimitReset in
           answer w (http_Error w (rate_limit_message resource nextTime)
                       StatusForbidden))
       else forward logRequests w r resource rateLimit (URL.Query (RawQuery r)))
      env 1%nat [] (lookup_or_create resource st).
Proof.
  intros resource rateLimit.
  assert (Hfind : serve logRequests env st w r =
            run (find_monitor logRequests w r resource (URL.Query (RawQuery r)))
              env 0%nat [] (lookup_or_create resource st)).
  { unfold serve, handler, lookup_or_create. cbn [run id]. fold resource.
    by destruct (monitors st !! resource). }
  rewrite Hfind. unfold find_monitor. cbn [run id].
  rewrite lookup_lookup_or_create. cbn [fmap option_fmap option_map fst check_limit run id].
  by rewrite (pointee_live _ _ _ _ (lookup_lookup_or_create st resource)).
Qed.

(** A request refused at line 96. *)
Lemma serve_rejected logRequests env st w r :
  let resource := classify (Path r) in
  let got := Monitor_Get (monitor_of st resource) (clock env 0%nat) in
  rate_limited got = true ->
  serve logRequests env st w r =
    {| final := lookup_or_create resource st;
       response :=
         default w
           (http_Error w
              (rate_limit_message resource (Time_Add (clock env 1%nat) (snd (fst got))))
              StatusForbidden);
       panicked := false;
       upstream_calls := [];
       clock_reads := 2 |}.
Proof.
  intros resource got Hlim. rewrite serve_checked. cbn zeta.
  fold resource got.
  unfold rate_limited in Hlim. destruct got as [[rem reset] known].
  rewrite Hlim. cbn [run fst snd].
  by rewrite run_answer by apply http_Error_is_Some, StatusForbidden_ok.
Qed.

(** A request let through: the run up to the return of the upstream
    call. *)
Lemma serve_forwarded logRequests env st w r :
  let resource := classify (Path r) in
  let got := Monitor_Get (monitor_of st resource) (clock env 0%nat) in
  rate_limited got = false ->
  serve logRequests env st w r =
    run
      match transport env 0%nat (outbound st r) with
      | inr err =>
          Shared (log_append (LogPrint err))
            (fun _ => answer w (http_Error w err StatusInternalServerError))
      | inl resp =>
          bookkeep_and_relay logRequests w resource (monitor_address st resource) resp
      end
      env 1%nat [outbound st r] (lookup_or_create resource st).
Proof.
  intros resource got Hlim. rewrite serve_checked. cbn zeta.
  fold resource got.
  unfold rate_limited in Hlim. destruct got as [[rem reset] known].
  rewrite Hlim. unfold forward. cbn [run id length app after_call].
  change (build_req2 r _ _) with (outbound (lookup_or_create resource st) r).
  by rewrite outbound_lookup_or_create.
Qed.

Lemma serve_failed logRequests env st w r err :
  let resource := classify (Path r) in
  rate_limited (Monitor_Get (monitor_of st resource) (clock env 0%nat)) = false ->
  transport env 0%nat (outbound st r) = inr err ->
  serve logRequests env st w r =
    {| final := log_append (LogPrint err) (lookup_or_create resource st);
       response := default w (http_Error w err StatusInternalServerError);
       panicked := false;
       upstream_calls := [outbound st r];
       clock_reads := 1 |}.
Proof.
  intros resource Hlim Htr.
  rewrite (serve_forwarded _ _ _ _ _ Hlim), Htr. cbn [run].
  by rewrite run_answer by apply http_Error_is_Some, StatusInternalServerError_ok.
Qed.

Lemma serve_relayed logRequests env st w r (resp : Response) :
  let resource := classify (Path r) in
  rate_limited (Monitor_Get (monitor_of st resource) (clock env 0%nat)) = false ->
  transport env 0%nat (outbound st r) = inl resp ->
  serve logRequests env st w r =
    {| final := relay_logged logRequests w resp
                  (bookkept resource (monitor_address st resource) resp
                     (lookup_or_create resource st));
       response := relayed w resp;
       panicked := relay_panics w resp;
       upstream_calls := [outbound st r];
       clock_reads := 1 |}.
Proof.
  intros resource Hlim Htr.
  rewrite (serve_forwarded _ _ _ _ _ Hlim), Htr.
  by apply run_bookkeep_and_relay.
Qed.

(** Line 151 panics on a status that is not of three digits, given to a
    writer that has sent nothing. *)
Lemma relay_panics_spec w (resp : Response) :
  relay_panics w resp = true <->
  wSent w = None /\ ~ 100 <= StatusCode resp <= 999.
Proof.
  unfold relay_panics.
  destruct (WriteHeader _ _) as [w'|] eqn:Hw.
  - split; [done|]. intros [Hs Hc].
    assert (Hp : WriteHeader (StatusCode resp) (copy_headers (RespHeader resp) w) = None).
    { apply WriteHeader_panics.
      destruct (copy_headers_spec (RespHeader resp) w) as (_ & -> & _).
      split; [done|].
      destruct (checkWriteHeaderCode _) eqn:Hcode; [|done].
      by apply checkWriteHeaderCode_spec in Hcode. }
    congruence.
  - split; [|done]. intros _. apply WriteHeader_panics in Hw as [Hs Hc].
    destruct (copy_headers_spec (RespHeader resp) w) as (_ & Hsent & _).
    rewrite Hsent in Hs. split; [done|].
    intros Hr%checkWriteHeaderCode_spec. congruence.
Qed.

(** What a relayed response leaves in a writer that had sent nothing,
    when its status is of three digits. *)
Lemma relayed_unsent w (resp : Response) :
  wSent w = None ->
  checkWriteHeaderCode (StatusCode resp) = true ->
  relay_panics w resp = false /\
  relayed w resp =
    {| wHeader := RespHeader resp ∪ wHeader w;
       wSent := Some (StatusCode resp, RespHeader resp ∪ wHeader w);
       wBody := wBody w +:+ fst (ReadAll (RespBody resp)) |}.
Proof.
  intros Hw Hcode. unfold relay_panics, relayed. cbn zeta.
  destruct (copy_headers_spec (RespHeader resp) w) as (Hh & Hs & Hb).
  rewrite Hw in Hs.
  rewrite (WriteHeader_unsent _ _ Hs Hcode). split; [done|].
  rewrite (io_Copy_sent _ _ (StatusCode resp, RespHeader resp ∪ wHeader w)).
  - cbn [wHeader wBody]. by rewrite Hh, Hb.
  - cbn [wSent]. by rewrite Hh.
Qed.

(** Line 151 panics on a status that is not of three digits: nothing has
    been sent and nothing is. *)
Lemma relayed_panic w (resp : Response) :
  wSent w = None ->
  checkWriteHeaderCode (StatusCode resp) = false ->
  relay_panics w resp = true /\
  wSent (relayed w resp) = None /\
  wBody (relayed w resp) = wBody w.
Proof.
  intros Hw Hcode. unfold relay_panics, relayed. cbn zeta.
  destruct (copy_headers_spec (RespHeader resp) w) as (Hh & Hs & Hb).
  rewrite Hw in Hs.
  assert (Hp : WriteHeader (StatusCode resp) (copy_headers (RespHeader resp) w) = None)
    by by apply WriteHeader_panics.
  rewrite Hp. by rewrite Hs, Hb.
Qed.

End Serve.

(* ===================================================================== *)
(** * Admission control, relay and failure of one request *)
(* ===================================================================== *)

Section Claims.

Context `{RL : RateLimit}.

Implicit Types (st : State) (env : Env) (w : ResponseWriter) (r : Request).

(** C1. A request whose class is known to be out of quota ([Get] returns
    known = true, remaining < 1 and a reset duration > 0) is answered with
    status 403 and the text/plain body
    [rate limit for "<resource>" exceeded, reset at <timestamp>] (ended by
    the line feed http.Error writes), where the timestamp is the clock
    reading of line 98 plus the reset duration; the upstream transport is
    not called. *)
Theorem admission_rejected logRequests env st w r (remaining reset : Z) :
  Monitor_Get (monitor_of st (classify (Path r))) (clock env 0%nat)
    = (remaining, reset, true) ->
  remaining < 1 ->
  0 < reset ->
  wSent w = None ->
  let o := serve logRequests env st w r in
  upstream_calls o = [] /\
  status_of (response o) = Some 403 /\
  sent_header (response o) "Content-Type" = Some ["text/plain; charset=utf-8"] /\
  wBody (response o) =
    wBody w +:+ "rate limit for " +:+ dquote +:+ classify (Path r) +:+ dquote
      +:+ " exceeded, reset at "
      +:+ Time_String (Time_Add (clock env 1%nat) reset) +:+ newline.
Proof.
  intros Hget Hrem Hreset Hw o.
  assert (Hlim : rate_limited
            (Monitor_Get (monitor_of st (classify (Path r))) (clock env 0%nat)) = true).
  { rewrite Hget. simpl.
    apply andb_true_iff. split; [by apply Z.ltb_lt | by apply Z.ltb_lt]. }
  unfold o. rewrite (serve_rejected logRequests env st w r Hlim).
  cbn [response upstream_calls]. rewrite Hget. cbn [fst snd].
  rewrite (http_Error_unsent _ _ _ Hw StatusForbidden_ok). cbn [from_option id].
  split; [done|]. split; [done|]. split.
  - unfold sent_header, headers_sent. cbn [wSent fmap option_fmap option_map mbind option_bind snd].
    rewrite lookup_insert_ne; [|done]. by rewrite lookup_insert_eq.
  - cbn [wBody]. unfold rate_limit_message, Quote. by rewrite !string_app_assoc.
Qed.

(** C9. When the upstream call of an admitted request fails, the caller
    gets status 500 with the error text as body, the transport was called
    exactly once with the request built for it, no monitor was updated
    (the map is the one line 93 left) and the gauge is untouched. *)
Theorem transport_failure logRequests env st w r (err : string) :
  rate_limited (Monitor_Get (monitor_of st (classify (Path r))) (clock env 0%nat))
    = false ->
  transport env 0%nat (outbound st r) = inr err ->
  wSent w = None ->
  let o := serve logRequests env st w r in
  status_of (response o) = Some 500 /\
  wBody (response o) = wBody w +:+ err +:+ newline /\
  upstream_calls o = [outbound st r] /\
  monitors (final o) = monitors (lookup_or_create (classify (Path r)) st) /\
  (forall c, monitor_of (final o) c = monitor_of st c) /\
  gauge (final o) = gauge st.
Proof.
  intros Hlim Htr Hw o. unfold o.
  rewrite (serve_failed logRequests env st w r err Hlim Htr).
  cbn [response upstream_calls final].
  rewrite (http_Error_unsent _ _ _ Hw StatusInternalServerError_ok). cbn [from_option id wBody].
  split; [done|]. split; [done|]. split; [done|]. split; [done|]. split.
  - intros c. rewrite <- (monitor_of_lookup_or_create_any st (classify (Path r)) c).
    done.
  - unfold lookup_or_create. by destruct (monitors st !! classify (Path r)).
Qed.

(** A response with a status of three digits reaches a writer that had
    sent nothing as it came: the run does not panic, the status sent is
    the upstream status, every header field of the response is sent with
    its values (and nothing else when the writer's header map was empty),
    and the body is the bytes read from the upstream body, in order. *)
Lemma relay_delivers logRequests env st w r (resp : Response) :
  rate_limited (Monitor_Get (monitor_of st (classify (Path r))) (clock env 0%nat))
    = false ->
  transport env 0%nat (outbound st r) = inl resp ->
  wSent w = None ->
  checkWriteHeaderCode (StatusCode resp) = true ->
  let o := serve logRequests env st w r in
  panicked o = false /\
  status_of (response o) = Some (StatusCode resp) /\
  (forall k v, RespHeader resp !! k = Some v -> sent_header (response o) k = Some v) /\
  (wHeader w = ∅ -> headers_sent (response o) = Some (RespHeader resp)) /\
  wBody (response o) = wBody w +:+ fst (ReadAll (RespBody resp)).
Proof.
  intros Hlim Htr Hw Hcode o. unfold o.
  rewrite (serve_relayed logRequests env st w r resp Hlim Htr).
  cbn [response panicked].
  destruct (relayed_unsent w resp Hw Hcode) as [-> ->].
  split; [done|]. split; [done|]. split; [|split].
  - intros k v Hk. unfold sent_header, headers_sent. simpl.
    by apply lookup_union_Some_l.
  - intros He. unfold headers_sent. simpl. rewrite He.
    by rewrite (right_id_L ∅ (∪)).
  - done.
Qed.

(** A response with any other status makes line 151 panic: the run ends
    there, and the caller is sent neither a status nor a body. *)
Lemma relay_panic logRequests env st w r (resp : Response) :
  rate_limited (Monitor_Get (monitor_of st (classify (Path r))) (clock env 0%nat))
    = false ->
  transport env 0%nat (outbound st r) = inl resp ->
  wSent w = None ->
  checkWriteHeaderCode (StatusCode resp) = false ->
  let o := serve logRequests env st w r in
  panicked o = true /\
  status_of (response o) = None /\
  wBody (response o) = wBody w.
Proof.
  intros Hlim Htr Hw Hcode o. unfold o.
  rewrite (serve_relayed logRequests env st w r resp Hlim Htr).
  cbn [response panicked].
  destruct (relayed_panic w resp Hw Hcode) as (-> & Hs & Hb).
  unfold status_of. by rewrite Hs, Hb.
Qed.

(** C3, amended. An upstream response whose status code has three digits
    (100 to 999, the codes WriteHeader accepts) is relayed as it came: its
    status is the status sent, every header field of it is sent with the
    same values (and nothing else when the writer's header map was
    empty), and the body written is the bytes read from the upstream
    body, in order. On any other status code WriteHeader panics at line
    151: the run ends there and the caller is sent neither status nor
    body. *)
Theorem relay_fidelity logRequests env st w r (resp : Response) :
  rate_limited (Monitor_Get (monitor_of st (classify (Path r))) (clock env 0%nat))
    = false ->
  transport env 0%nat (outbound st r) = inl resp ->
  wSent w = None ->
  let o := serve logRequests env st w r in
  (100 <= StatusCode resp <= 999 ->
     panicked o = false /\
     status_of (response o) = Some (StatusCode resp) /\
     (forall k v, RespHeader resp !! k = Some v -> sent_header (response o) k = Some v) /\
     (wHeader w = ∅ -> headers_sent (response o) = Some (RespHeader resp)) /\
     wBody (response o) = wBody w +:+ fst (ReadAll (RespBody resp))) /\
  (~ 100 <= StatusCode resp <= 999 ->
     panicked o = true /\
     status_of (response o) = None /\
     wBody (response o) = wBody w).
Proof.
  intros Hlim Htr Hw o. split.
  - intros Hcode%checkWriteHeaderCode_spec.
    exact (relay_delivers logRequests env st w r resp Hlim Htr Hw Hcode).
  - intros Hcode.
    apply (relay_panic logRequests env st w r resp Hlim Htr Hw).
    destruct (checkWriteHeaderCode (StatusCode resp)) eqn:Hc; [|done].
    by apply checkWriteHeaderCode_spec in Hc.
Qed.

(** The two runs of a request that differ in the logging toggle only. *)
Lemma logging_same_response env st w r :
  response (serve true env st w r) = response (serve false env st w r) /\
  panicked (serve true env st w r) = panicked (serve false env st w r) /\
  upstream_calls (serve true env st w r) = upstream_calls (serve false env st w r).
Proof.
  destruct (rate_limited
              (Monitor_Get (monitor_of st (classify (Path r))) (clock env 0%nat)))
    eqn:Hlim.
  - by rewrite !(serve_rejected _ env st w r Hlim).
  - rewrite !(serve_forwarded _ env st w r Hlim).
    destruct (transport env 0%nat (outbound st r)) as [resp|err]; [|done].
    by rewrite !run_bookkeep_and_relay.
Qed.

(** C8. The response the caller gets does not depend on the logging
    toggle. For every state, environment and request, the writer after
    the run with logRequests on equals the writer after the run with it
    off (status, header fields sent, body bytes), the two runs end the
    same way and make the same upstream calls. And what both deliver for
    an upstream response is that response: with logging on or off, the
    status sent is the upstream status, every upstream header field is
    sent, and the body is the bytes read from the upstream body (status
    500 and body boom arrive as status 500 and body boom). *)
Theorem logging_transparent env st w r :
  response (serve true env st w r) = response (serve false env st w r) /\
  delivered (response (serve true env st w r))
    = delivered (response (serve false env st w r)) /\
  upstream_calls (serve true env st w r) = upstream_calls (serve false env st w r) /\
  panicked (serve true env st w r) = panicked (serve false env st w r) /\
  (forall resp : Response,
      rate_limited (Monitor_Get (monitor_of st (classify (Path r))) (clock env 0%nat))
        = false ->
      transport env 0%nat (outbound st r) = inl resp ->
      wSent w = None ->
      100 <= StatusCode resp <= 999 ->
      forall logRequests,
        let o := serve logRequests env st w r in
        status_of (response o) = Some (StatusCode resp) /\
        (forall k v, RespHeader resp !! k = Some v ->
                     sent_header (response o) k = Some v) /\
        wBody (response o) = wBody w +:+ fst (ReadAll (RespBody resp))).
Proof.
  destruct (logging_same_response env st w r) as (H1 & H2 & H3).
  split; [done|]. split; [by rewrite H1|]. split; [done|]. split; [done|].
  intros resp Hlim Htr Hw Hcode%checkWriteHeaderCode_spec logRequests o.
  destruct (relay_delivers logRequests env st w r resp Hlim Htr Hw Hcode)
    as (_ & Hs & Hh & _ & Hb).
  done.
Qed.

End Claims.

(* ===================================================================== *)
(** * Bookkeeping: the monitor and the gauge after a response *)
(* ===================================================================== *)

Lemma canonical_remaining :
  Header.CanonicalMIMEHeaderKey "X-Ratelimit-Remaining" = "X-Ratelimit-Remaining".
Proof. reflexivity. Qed.

Lemma canonical_prefixed_remaining :
  Header.CanonicalMIMEHeaderKey ("X-" +:+ "RateLimit-Remaining") = "X-Ratelimit-Remaining".
Proof. reflexivity. Qed.

Lemma Header_Get_remaining (h : Header.t) :
  Header.Get h "X-Ratelimit-Remaining" =
    match h !! "X-Ratelimit-Remaining" with
    | Some (v :: _) => v
    | _ => ""
    end.
Proof. unfold Header.Get. by rewrite canonical_remaining. Qed.

Lemma canonical_plain_remaining :
  Header.CanonicalMIMEHeaderKey "RateLimit-Remaining" = "Ratelimit-Remaining".
Proof. reflexivity. Qed.

Lemma canonical_prefixed_reset :
  Header.CanonicalMIMEHeaderKey ("X-" +:+ "RateLimit-Reset") = "X-Ratelimit-Reset".
Proof. reflexivity. Qed.

Lemma canonical_plain_reset :
  Header.CanonicalMIMEHeaderKey "RateLimit-Reset" = "Ratelimit-Reset".
Proof. reflexivity. Qed.

(** The float64 of the three numbers Atoi returns next to an error. *)
Lemma float64_zero : float64 0 = S754_zero false.
Proof. reflexivity. Qed.

Lemma float64_maxInt64 :
  float64_integer (float64 Strconv.maxInt64) = Some 9223372036854775808.
Proof. vm_compute. reflexivity. Qed.

Lemma float64_minInt64 :
  float64_integer (float64 Strconv.minInt64) = Some (-9223372036854775808).
Proof. vm_compute. reflexivity. Qed.

Section Bookkeeping.

Context `{RL : RateLimit}.

Implicit Types (st : State) (env : Env) (w : ResponseWriter) (r : Request).

Lemma gauge_lookup_or_create c st : gauge (lookup_or_create c st) = gauge st.
Proof. unfold lookup_or_create. by destruct (monitors st !! c). Qed.

Lemma gauge_relay_logged logRequests w (resp : Response) st :
  gauge (relay_logged logRequests w resp st) = gauge st.
Proof. unfold relay_logged. by destruct (_ || _). Qed.

Lemma monitors_relay_logged logRequests w (resp : Response) st :
  monitors (relay_logged logRequests w resp st) = monitors st.
Proof. unfold relay_logged. by destruct (_ || _). Qed.

Lemma gauge_update_monitor c a h st : gauge (update_monitor c a h st) = gauge st.
Proof. unfold update_monitor. by destruct (decide _). Qed.

Lemma gauge_bookkept c a (resp : Response) st :
  gauge (bookkept c a resp st) =
    let limit := Header.Get (RespHeader resp) "X-Ratelimit-Remaining" in
    if negb (String.eqb limit "")
    then <[c := float64 (fst (Strconv.Atoi limit))]> (gauge st)
    else gauge st.
Proof.
  unfold bookkept. cbn zeta.
  destruct (negb _); cbn [gauge_Set gauge]; by rewrite gauge_update_monitor.
Qed.

Lemma monitors_bookkept c a (resp : Response) st :
  monitors (bookkept c a resp st) = monitors (update_monitor c a (RespHeader resp) st).
Proof. unfold bookkept. by destruct (negb _). Qed.

Lemma monitor_of_eq st st' c :
  monitors st = monitors st' -> monitor_of st c = monitor_of st' c.
Proof. unfold monitor_of. by intros ->. Qed.

Lemma lookup_or_create_is_Some c st : is_Some (monitors (lookup_or_create c st) !! c).
Proof. rewrite lookup_lookup_or_create. by eexists. Qed.

(** Update through the pointer the map holds for the class changes the
    struct in the map. *)
Lemma monitors_update_monitor_live c a m h st :
  monitors st !! c = Some (a, m) ->
  monitors (update_monitor c a h st) = <[c := (a, Monitor_Update m h)]> (monitors st).
Proof.
  intros Hc. unfold update_monitor. rewrite Hc. cbn [fmap option_fmap option_map fst].
  rewrite decide_True by done. cbn [monitors].
  apply map_eq. intros c'. destruct (decide (c = c')) as [<-|Hne].
  - by rewrite lookup_alter_eq, lookup_insert_eq, Hc.
  - by rewrite lookup_alter_ne, lookup_insert_ne.
Qed.

Lemma monitor_of_update_monitor c a m h st :
  monitors st !! c = Some (a, m) ->
  monitor_of (update_monitor c a h st) c = Monitor_Update m h.
Proof.
  intros Hc. unfold monitor_of.
  by rewrite (monitors_update_monitor_live _ _ _ _ _ Hc), lookup_insert_eq.
Qed.

(** The monitors map after a relayed response. *)
Lemma monitors_served logRequests env st w r (resp : Response) :
  let c := classify (Path r) in
  rate_limited (Monitor_Get (monitor_of st c) (clock env 0%nat)) = false ->
  transport env 0%nat (outbound st r) = inl resp ->
  monitors (final (serve logRequests env st w r)) =
    <[c := (monitor_address st c, Monitor_Update (monitor_of st c) (RespHeader resp))]>
      (monitors (lookup_or_create c st)).
Proof.
  intros c Hlim Htr.
  rewrite (serve_relayed logRequests env st w r resp Hlim Htr). cbn [final].
  rewrite monitors_relay_logged, monitors_bookkept.
  by rewrite (monitors_update_monitor_live _ _ _ _ _ (lookup_lookup_or_create st c)).
Qed.

(** The monitor of the class after a relayed response is the one before
    it, updated with the response header. *)
Lemma monitor_of_served logRequests env st w r (resp : Response) :
  let c := classify (Path r) in
  rate_limited (Monitor_Get (monitor_of st c) (clock env 0%nat)) = false ->
  transport env 0%nat (outbound st r) = inl resp ->
  monitor_of (final (serve logRequests env st w r)) c
    = Monitor_Update (monitor_of st c) (RespHeader resp).
Proof.
  intros c Hlim Htr. unfold monitor_of at 1.
  rewrite (monitors_served logRequests env st w r resp Hlim Htr).
  by rewrite lookup_insert_eq.
Qed.

(** The gauge after a relayed response. *)
Lemma gauge_served logRequests env st w r (resp : Response) :
  let c := classify (Path r) in
  rate_limited (Monitor_Get (monitor_of st c) (clock env 0%nat)) = false ->
  transport env 0%nat (outbound st r) = inl resp ->
  gauge (final (serve logRequests env st w r)) =
    let limit := Header.Get (RespHeader resp) "X-Ratelimit-Remaining" in
    if negb (String.eqb limit "")
    then <[c := float64 (fst (Strconv.Atoi limit))]> (gauge st)
    else gauge st.
Proof.
  intros c Hlim Htr.
  rewrite (serve_relayed logRequests env st w r resp Hlim Htr). cbn [final].
  by rewrite gauge_relay_logged, gauge_bookkept, gauge_lookup_or_create.
Qed.

(** C10, amended. When the X-Ratelimit-Remaining header of the response
    has a non-empty value that is not an optionally signed sequence of
    digits, the gauge of the class is overwritten with the float64 of the
    number strconv.Atoi returns next to the error the handler drops. That
    number is 0 for a syntax error, which is every error of a value
    shorter than 19 bytes, and the gauge is then 0. For a range error,
    which Atoi reports when the digits overflow before it reaches the
    first byte that is not a digit, the number is the largest or the
    smallest int64, and the gauge, the nearest float64, is
    9223372036854775808 or -9223372036854775808. *)
Theorem gauge_invalid_remaining logRequests env st w r (resp : Response) (v : string) :
  rate_limited (Monitor_Get (monitor_of st (classify (Path r))) (clock env 0%nat))
    = false ->
  transport env 0%nat (outbound st r) = inl resp ->
  Header.Get (RespHeader resp) "X-Ratelimit-Remaining" = v ->
  v <> "" ->
  Strconv.decimal_syntax v = false ->
  let o := serve logRequests env st w r in
  exists n e,
    Strconv.Atoi v = (n, Some e) /\
    gauge (final o) !! classify (Path r) = Some (float64 n) /\
    (e = Strconv.ErrSyntax -> n = 0 /\ float64 n = S754_zero false) /\
    (e = Strconv.ErrRange ->
       (n = Strconv.maxInt64 /\ float64_integer (float64 n) = Some 9223372036854775808) \/
       (n = Strconv.minInt64 /\ float64_integer (float64 n) = Some (-9223372036854775808))) /\
    ((String.length v < 19)%nat -> n = 0).
Proof.
  intros Hlim Htr Hv Hne Hsyn o.
  destruct (StrconvFacts.Atoi_not_decimal v Hsyn) as (n & e & Ha).
  exists n, e. split; [done|]. split.
  - unfold o. rewrite (gauge_served logRequests env st w r resp Hlim Htr).
    cbn zeta. rewrite Hv.
    assert (He : String.eqb v "" = false) by by apply String.eqb_neq.
    rewrite He. cbn [negb]. rewrite Ha. cbn [fst]. by rewrite lookup_insert_eq.
  - destruct (StrconvFacts.Atoi_error v n e Ha) as [[-> ->]|[-> Hn]].
    + split; [done|]. split; [done|done].
    + split; [done|]. split.
      * intros _. destruct Hn as [->| ->].
        -- left. split; [done | apply float64_maxInt64].
        -- right. split; [done | apply float64_minInt64].
      * intros Hlen. by destruct (StrconvFacts.Atoi_short_error v n _ Hlen Ha).
Qed.

End Bookkeeping.

(** C6, amended. The registry (pkg/ratelimit's Update, modelled from the
    spec, with the HeaderPrefix the handler gives it) accepts the
    remaining-quota and the reset-time header under the X- prefixed name
    and under the canonical name; the gauge reads X-Ratelimit-Remaining
    only. A response whose X-Ratelimit-Remaining header has the non-empty
    first value [v] makes Get of the request's class report the number
    Atoi reads from [v] as remaining (42 for the value 42) and sets the
    gauge of the class to the float64 of that number. A response that has
    the header under the canonical name only makes Get report the number
    in the same way and leaves the gauge as it was. The reset time is the
    instant the reset-time header names, in either form, and the class is
    known after any response. *)
Theorem quota_bookkeeping logRequests env (st : @State ZClock SpecRateLimit) w r
    (resp : Response) :
  rate_limited (Monitor_Get (monitor_of st (classify (Path r))) (clock env 0%nat))
    = false ->
  transport env 0%nat (outbound st r) = inl resp ->
  SpecMonitor.HeaderPrefix (monitor_of st (classify (Path r))) = "X-" ->
  let o := serve logRequests env st w r in
  let c := classify (Path r) in
  let h := RespHeader resp in
  (forall v rest,
      h !! "X-Ratelimit-Remaining" = Some (v :: rest) -> v <> "" ->
      (forall now, fst (fst (Monitor_Get (monitor_of (final o) c) now))
                   = fst (Strconv.Atoi v)) /\
      gauge (final o) !! c = Some (float64 (fst (Strconv.Atoi v)))) /\
  (forall v rest,
      h !! "X-Ratelimit-Remaining" = None ->
      h !! "Ratelimit-Remaining" = Some (v :: rest) ->
      (forall now, fst (fst (Monitor_Get (monitor_of (final o) c) now))
                   = fst (Strconv.Atoi v)) /\
      gauge (final o) = gauge st) /\
  (forall v rest,
      (h !! "X-Ratelimit-Reset" = Some (v :: rest) /\ v <> "") \/
      (h !! "X-Ratelimit-Reset" = None /\ h !! "Ratelimit-Reset" = Some (v :: rest)) ->
      forall now, snd (fst (Monitor_Get (monitor_of (final o) c) now))
                  = Time_Sub (Time_Unix (fst (Strconv.Atoi v))) now) /\
  (forall now, snd (Monitor_Get (monitor_of (final o) c) now) = true) /\
  (h !! "X-Ratelimit-Remaining" = None -> gauge (final o) = gauge st).
Proof.
  intros Hlim Htr Hprefix o c h.
  assert (Hm : monitor_of (final o) c
               = SpecMonitor.Update (monitor_of st c) h)
    by apply (monitor_of_served logRequests env st w r resp Hlim Htr).
  assert (Hg : gauge (final o) =
               if negb (String.eqb (Header.Get h "X-Ratelimit-Remaining") "")
               then <[c := float64 (fst (Strconv.Atoi (Header.Get h "X-Ratelimit-Remaining")))]>
                      (gauge st)
               else gauge st)
    by apply (gauge_served logRequests env st w r resp Hlim Htr).
  assert (Hnone : h !! "X-Ratelimit-Remaining" = None -> gauge (final o) = gauge st).
  { intros Hx. rewrite Hg. by rewrite Header_Get_remaining, Hx. }
  fold c in Hprefix.
  split; [|split; [|split; [|split]]].
  - intros v rest Hv Hne.
    assert (He : String.eqb v "" = false) by by apply String.eqb_neq.
    split.
    + intros now. rewrite Hm.
      cbn [Monitor_Get SpecRateLimit SpecMonitor.Get SpecMonitor.Update
           SpecMonitor.remainingCount fst].
      rewrite Hprefix. unfold SpecMonitor.quota_header, Header.Get.
      by rewrite canonical_prefixed_remaining, Hv, He.
    + rewrite Hg, Header_Get_remaining, Hv, He. cbn [negb].
      by rewrite lookup_insert_eq.
  - intros v rest Hx Hv. split; [|by apply Hnone].
    intros now. rewrite Hm.
    cbn [Monitor_Get SpecRateLimit SpecMonitor.Get SpecMonitor.Update
         SpecMonitor.remainingCount fst].
    rewrite Hprefix. unfold SpecMonitor.quota_header, Header.Get.
    by rewrite canonical_prefixed_remaining, Hx, canonical_plain_remaining, Hv.
  - intros v rest Hv now. rewrite Hm.
    cbn [Monitor_Get SpecRateLimit SpecMonitor.Get SpecMonitor.Update
         SpecMonitor.resetAt fst snd].
    rewrite Hprefix. unfold SpecMonitor.quota_header, Header.Get.
    rewrite canonical_prefixed_reset, canonical_plain_reset.
    destruct Hv as [[Hx Hne]|[Hx Hp]].
    + assert (He : String.eqb v "" = false) by by apply String.eqb_neq.
      by rewrite Hx, He.
    + by rewrite Hx, Hp.
  - intros now. by rewrite Hm.
  - exact Hnone.
Qed.

(* ===================================================================== *)
(** * Credential injection *)
(* ===================================================================== *)

Section Credentials.

Context `{RL : RateLimit}.

Implicit Types (st : State) (env : Env) (w : ResponseWriter) (r : Request).

(** A run calls upstream at most once, with the request built from the
    state it started in. *)
Lemma upstream_calls_serve logRequests env st w r :
  upstream_calls (serve logRequests env st w r) =
    if rate_limited (Monitor_Get (monitor_of st (classify (Path r))) (clock env 0%nat))
    then [] else [outbound st r].
Proof.
  destruct (rate_limited _) eqn:Hlim.
  - by rewrite (serve_rejected logRequests env st w r Hlim).
  - destruct (transport env 0%nat (outbound st r)) as [resp|err] eqn:Htr.
    + by rewrite (serve_relayed logRequests env st w r resp Hlim Htr).
    + by rewrite (serve_failed logRequests env st w r err Hlim Htr).
Qed.

Lemma conf_Watch_callback_authenticator (cfg : Config) st :
  authenticateRequest (conf_Watch_callback cfg st) =
    if negb (String.eqb (GithubClientID cfg) "")
       && negb (String.eqb (GithubClientSecret cfg) "")
    then Some {| clientID := GithubClientID cfg; clientSecret := GithubClientSecret cfg |}
    else authenticateRequest st.
Proof. unfold conf_Watch_callback. by destruct (_ && _). Qed.

(** C5, amended. A configuration with both fields non-empty publishes
    them as the authenticator and any other configuration leaves the
    authenticator as it is. The query string of every outbound request is
    the encoding (keys sorted, bytes escaped) of the parameters parsed
    from the inbound query, with client_id and client_secret set to the
    single values of the authenticator when there is one, in place of
    any values the inbound query had under those names: parsing the
    outbound query gives exactly these parameters. Without an
    authenticator the outbound query is the encoding of the parsed inbound
    parameters and parses to the same parameters as the inbound query. *)
Theorem credential_injection logRequests env st w r (cfg : Config) (req2 : OutRequest) :
  req2 ∈ upstream_calls (serve logRequests env st w r) ->
  let inbound := URL.Query (RawQuery r) in
  authenticateRequest (conf_Watch_callback cfg st) =
    (if negb (String.eqb (GithubClientID cfg) "")
        && negb (String.eqb (GithubClientSecret cfg) "")
     then Some {| clientID := GithubClientID cfg;
                  clientSecret := GithubClientSecret cfg |}
     else authenticateRequest st) /\
  match authenticateRequest st with
  | Some c =>
      let merged :=
        <["client_secret" := [clientSecret c]]> (<["client_id" := [clientID c]]> inbound) in
      oRawQuery req2 = URL.Encode merged /\ URL.Query (oRawQuery req2) = merged
  | None =>
      oRawQuery req2 = URL.Encode inbound /\ URL.Query (oRawQuery req2) = inbound
  end.
Proof.
  intros Hin inbound. split; [apply conf_Watch_callback_authenticator|].
  rewrite upstream_calls_serve in Hin.
  destruct (rate_limited _); [by apply elem_of_nil in Hin|].
  apply list_elem_of_singleton in Hin as ->.
  unfold outbound, apply_authenticator. cbn [oRawQuery build_req2].
  fold inbound.
  destruct (authenticateRequest st) as [c|].
  - cbn zeta. split; [done|].
    apply URLFacts.Query_Encode.
    apply URLFacts.Set_no_empty, URLFacts.Set_no_empty, URLFacts.Query_no_empty.
  - split; [done|]. apply URLFacts.Query_Encode, URLFacts.Query_no_empty.
Qed.

End Credentials.

(* ===================================================================== *)
(** * The serialization gate *)
(* ===================================================================== *)

Section Gate.

Context `{RL : RateLimit}.

Lemma answer_outside w (res : option ResponseWriter) : outside (answer w res).
Proof. by destruct res. Qed.

Lemma relay_outside logRequests w (resp : Response) : outside (relay logRequests w resp).
Proof.
  unfold relay. cbn zeta. destruct (WriteHeader _ _); [|done].
  destruct (_ || _); [done|].
  by destruct (ReadAll (RespBody resp)).
Qed.

Lemma bookkeep_and_relay_outside logRequests w resource rateLimit (resp : Response) :
  outside (bookkeep_and_relay logRequests w resource rateLimit resp).
Proof.
  unfold bookkeep_and_relay. intros st. cbn beta zeta.
  destruct (negb _); [|apply relay_outside].
  destruct (Strconv.Atoi _). intros st'. apply relay_outside.
Qed.

Lemma find_monitor_outside logRequests w r resource q2 :
  outside (find_monitor logRequests w r resource q2).
Proof.
  unfold find_monitor. intros st. unfold check_limit.
  destruct (fst <$> monitors st !! resource) as [rateLimit|]; [|done].
  intros st' t. cbn beta zeta.
  destruct (Monitor_Get _ t) as [[remaining reset] known].
  destruct (_ && _); [intros now; apply answer_outside|].
  unfold forward. intros st'' [resp|err].
  - apply bookkeep_and_relay_outside.
  - intros st3. apply answer_outside.
Qed.

(** A handler starts outside the gate and keeps to its discipline. *)
Lemma handler_outside logRequests w r : outside (handler logRequests w r).
Proof.
  unfold handler. intros st. cbn beta zeta.
  destruct (monitors st !! classify (Path r)); [apply find_monitor_outside|].
  intros st'. apply find_monitor_outside.
Qed.

Lemma gate_inv_init : gate_inv init_pool.
Proof. split; [done|]. by intros i p Hi. Qed.

Lemma gate_inv_step logRequests (P P' : Pool) :
  gate_inv P -> step logRequests P P' -> gate_inv P'.
Proof.
  intros [Hholder Hinv] Hstep.
  destruct Hstep as [P w r|P cfg|P i k t Hi|P i f k Hi|P i k Hi Hfree
                    |P i k Hi Hheld|P i req2 k res Hi|P i w src k Hi].
  - (* a new request *)
    split; cbn [mutex goroutines].
    + intros i Hm. destruct (Hholder i Hm) as [p Hp].
      exists p. by apply lookup_app_l_Some.
    + intros i p Hp. apply lookup_app_Some in Hp as [Hp|[Hlen Hp]]; [by apply Hinv|].
      destruct (decide (mutex P = Some i)) as [Hm|_].
      * destruct (Hholder i Hm) as [q Hq]. apply lookup_lt_Some in Hq. lia.
      * destruct (i - length (goroutines P))%nat; [|done].
        injection Hp as <-. apply handler_outside.
  - (* the configuration changes *)
    split; cbn [mutex goroutines]; done.
  - (* a clock reading *)
    pose proof (lookup_lt_Some _ _ _ Hi) as Hlt.
    split; cbn [set_goroutine mutex goroutines].
    + intros j Hm. destruct (Hholder j Hm) as [q Hq].
      apply lookup_lt_is_Some. rewrite length_insert. by apply lookup_lt_Some in Hq.
    + intros j p Hp. destruct (decide (i = j)) as [<-|Hne].
      * rewrite list_lookup_insert_eq in Hp by done. injection Hp as <-.
        specialize (Hinv i _ Hi). destruct (decide (mutex P = Some i)); [done|].
        apply Hinv.
      * rewrite list_lookup_insert_ne in Hp by done. by apply Hinv.
  - (* a step on the shared variables *)
    pose proof (lookup_lt_Some _ _ _ Hi) as Hlt.
    split; cbn [mutex goroutines].
    + intros j Hm. destruct (Hholder j Hm) as [q Hq].
      apply lookup_lt_is_Some. rewrite length_insert. by apply lookup_lt_Some in Hq.
    + intros j p Hp. destruct (decide (i = j)) as [<-|Hne].
      * rewrite list_lookup_insert_eq in Hp by done. injection Hp as <-.
        specialize (Hinv i _ Hi). destruct (decide (mutex P = Some i)); [done|].
        apply Hinv.
      * rewrite list_lookup_insert_ne in Hp by done. by apply Hinv.
  - (* Lock *)
    pose proof (lookup_lt_Some _ _ _ Hi) as Hlt.
    split; cbn [mutex goroutines].
    + intros j [= <-]. apply lookup_lt_is_Some. by rewrite length_insert.
    + intros j p Hp. destruct (decide (i = j)) as [<-|Hne].
      * rewrite list_lookup_insert_eq in Hp by done. injection Hp as <-.
        rewrite decide_True by done.
        specialize (Hinv i _ Hi). rewrite Hfree in Hinv.
        rewrite decide_False in Hinv by done.
        cbn [outside] in Hinv. by destruct k.
      * rewrite list_lookup_insert_ne in Hp by done.
        rewrite decide_False by congruence.
        specialize (Hinv j _ Hp). rewrite Hfree in Hinv.
        by rewrite decide_False in Hinv.
  - (* Unlock *)
    pose proof (lookup_lt_Some _ _ _ Hi) as Hlt.
    assert (Hmi : mutex P = Some i).
    { specialize (Hinv i _ Hi). by destruct (decide (mutex P = Some i)). }
    split; cbn [mutex goroutines]; [done|].
    intros j p Hp. rewrite decide_False by done.
    destruct (decide (i = j)) as [<-|Hne].
    + rewrite list_lookup_insert_eq in Hp by done. injection Hp as <-.
      specialize (Hinv i _ Hi). by rewrite decide_True in Hinv.
    + rewrite list_lookup_insert_ne in Hp by done.
      specialize (Hinv j _ Hp). rewrite decide_False in Hinv; [done|].
      rewrite Hmi. congruence.
  - (* the upstream call returns *)
    pose proof (lookup_lt_Some _ _ _ Hi) as Hlt.
    split; cbn [set_goroutine mutex goroutines].
    + intros j Hm. destruct (Hholder j Hm) as [q Hq].
      apply lookup_lt_is_Some. rewrite length_insert. by apply lookup_lt_Some in Hq.
    + intros j p Hp. destruct (decide (i = j)) as [<-|Hne].
      * rewrite list_lookup_insert_eq in Hp by done. injection Hp as <-.
        specialize (Hinv i _ Hi). destruct (decide (mutex P = Some i)); [|done].
        cbn [inside] in Hinv. specialize (Hinv res). by destruct (k res).
      * rewrite list_lookup_insert_ne in Hp by done. by apply Hinv.
  - (* a body is copied to the caller *)
    pose proof (lookup_lt_Some _ _ _ Hi) as Hlt.
    split; cbn [set_goroutine mutex goroutines].
    + intros j Hm. destruct (Hholder j Hm) as [q Hq].
      apply lookup_lt_is_Some. rewrite length_insert. by apply lookup_lt_Some in Hq.
    + intros j p Hp. destruct (decide (i = j)) as [<-|Hne].
      * rewrite list_lookup_insert_eq in Hp by done. injection Hp as <-.
        specialize (Hinv i _ Hi). destruct (decide (mutex P = Some i)); [done|].
        apply Hinv.
      * rewrite list_lookup_insert_ne in Hp by done. by apply Hinv.
Qed.

Lemma gate_inv_reachable logRequests (P : Pool) : reachable logRequests P -> gate_inv P.
Proof.
  induction 1 as [|P P' _ IH Hstep]; [apply gate_inv_init|].
  by eapply gate_inv_step.
Qed.

(** C2. In every state the process can reach, at most one goroutine is
    in the upstream call; a goroutine in the call holds [requestMu], took
    it in the step just before the call (a goroutine about to lock is
    about to call) and releases it in the step just after the call
    returns; and a goroutine that is copying a response body to its
    caller does not hold it. *)
Theorem serialization_gate logRequests (P : Pool) :
  reachable logRequests P ->
  (forall i j req1 k1 req2 k2,
      goroutines P !! i = Some (Do req1 k1) ->
      goroutines P !! j = Some (Do req2 k2) -> i = j) /\
  (forall i req2 k,
      goroutines P !! i = Some (Do req2 k) ->
      mutex P = Some i /\ forall res, exists k', k res = Unlock k') /\
  (forall i k,
      goroutines P !! i = Some (Lock k) -> exists req2 k', k = Do req2 k') /\
  (forall i w src k,
      goroutines P !! i = Some (Copy w src k) -> mutex P <> Some i).
Proof.
  intros Hreach. destruct (gate_inv_reachable _ _ Hreach) as [Hholder Hinv].
  assert (Hcall : forall i req2 k,
             goroutines P !! i = Some (Do req2 k) ->
             mutex P = Some i /\ forall res, exists k', k res = Unlock k').
  { intros i req2 k Hi. specialize (Hinv i _ Hi).
    destruct (decide (mutex P = Some i)) as [Hm|]; [|done].
    split; [done|]. intros res. cbn [inside] in Hinv. specialize (Hinv res).
    destruct (k res); try done. by eexists. }
  split; [|split; [|split]].
  - intros i j req1 k1 req2 k2 Hi Hj.
    destruct (Hcall _ _ _ Hi) as [Hmi _]. destruct (Hcall _ _ _ Hj) as [Hmj _].
    congruence.
  - exact Hcall.
  - intros i k Hi. specialize (Hinv i _ Hi).
    destruct (decide (mutex P = Some i)); [done|].
    cbn [outside] in Hinv. destruct k; try done. by eexists _, _.
  - intros i w src k Hi Hm. specialize (Hinv i _ Hi).
    by rewrite decide_True in Hinv.
Qed.

End Gate.
(* ===================================================================== *)
(** * The steps of a handler on the shared variables *)
(* ===================================================================== *)

Section StepsIn.

Context `{RL : RateLimit}.

Lemma classify_resource_class (path : string) : classify path ∈ resource_classes.
Proof.
  unfold resource_classes.
  destruct (classify_cases path) as [-> | [-> | ->]]; set_solver.
Qed.

Lemma steps_in_mono (R R' : State -> State -> Prop) (p : Prog) :
  (forall st st', R st st' -> R' st st') -> steps_in R p -> steps_in R' p.
Proof.
  intros HR. induction p as [w|w|k IH|f k IH|k IH|k IH|req2 k IH|w src k IH];
    cbn [steps_in]; try done.
  - intros Hk t. by apply IH.
  - intros [Hf Hk]. split; [intros st; by apply HR | intros st; by apply IH].
  - intros Hk res. by apply IH.
  - intros Hk w'. by apply IH.
Qed.

(** A handler for a request of class [c] reads the shared variables,
    stores a monitor for [c], updates a monitor of [c], sets the gauge of
    [c] and logs; it takes no other step on them. *)
Section Handler.

Variable R : State -> State -> Prop.
Variable c : string.

Hypothesis R_read : forall st, R st st.
Hypothesis R_store : forall st, R st (store_monitor c st).
Hypothesis R_update : forall a h st, R st (update_monitor c a h st).
Hypothesis R_gauge : forall n st, R st (gauge_Set c n st).
Hypothesis R_log : forall e st, R st (log_append e st).

Lemma answer_steps_in w (res : option ResponseWriter) : steps_in R (answer w res).
Proof. by destruct res. Qed.

Lemma relay_steps_in logRequests w (resp : Response) :
  steps_in R (relay logRequests w resp).
Proof.
  unfold relay. cbn zeta. destruct (WriteHeader _ _); [|done].
  destruct (_ || _); [done|].
  destruct (ReadAll (RespBody resp)). split; [|done].
  intros st. apply R_log.
Qed.

Lemma bookkeep_and_relay_steps_in logRequests w rateLimit (resp : Response) :
  steps_in R (bookkeep_and_relay logRequests w c rateLimit resp).
Proof.
  unfold bookkeep_and_relay. split; [intros st; apply R_update|].
  intros st. cbn beta zeta.
  destruct (negb _); [|apply relay_steps_in].
  destruct (Strconv.Atoi _). split.
  - intros st'. apply R_gauge.
  - intros st'. apply relay_steps_in.
Qed.

Lemma find_monitor_steps_in logRequests w r q2 :
  steps_in R (find_monitor logRequests w r c q2).
Proof.
  unfold find_monitor. split; [exact R_read|]. intros st. unfold check_limit.
  destruct (fst <$> monitors st !! c) as [rateLimit|]; [|done].
  split; [exact R_read|]. intros st' t. cbn beta zeta.
  destruct (Monitor_Get _ t) as [[remaining reset] known].
  destruct (_ && _); [intros now; apply answer_steps_in|].
  unfold forward. split; [exact R_read|].
  intros st'' [resp|err].
  - apply bookkeep_and_relay_steps_in.
  - split; [intros st3; apply R_log|]. intros st3. apply answer_steps_in.
Qed.

Lemma handler_steps_in logRequests w r :
  classify (Path r) = c -> steps_in R (handler logRequests w r).
Proof.
  intros Hc. unfold handler. rewrite Hc. split; [exact R_read|].
  intros st. destruct (monitors st !! c); [apply find_monitor_steps_in|].
  split; [exact R_store|]. intros st'. apply find_monitor_steps_in.
Qed.

End Handler.

(** One step of the process, for goroutines whose steps are within [R]:
    the shared variables move within [R], and the goroutines still step
    within [R], if the handler of a request that arrives does. *)
Lemma pool_step_in (R : State -> State -> Prop) logRequests (P P' : Pool) :
  (forall st, R st st) ->
  (forall cfg st, R st (conf_Watch_callback cfg st)) ->
  (forall w r, goroutines P' = goroutines P ++ [handler logRequests w r] ->
               steps_in R (handler logRequests w r)) ->
  pool_steps_in R P ->
  step logRequests P P' ->
  pool_steps_in R P' /\ R (shared P) (shared P').
Proof.
  intros Hrefl Hconf Hnew Hpool Hstep.
  assert (Hins : forall i p q,
             goroutines P !! i = Some p -> steps_in R q ->
             forall j p', <[i := q]> (goroutines P) !! j = Some p' -> steps_in R p').
  { intros i p q Hi Hq j p' Hp'.
    pose proof (lookup_lt_Some _ _ _ Hi) as Hlt.
    destruct (decide (i = j)) as [<-|Hne].
    - rewrite list_lookup_insert_eq in Hp' by done. by injection Hp' as <-.
    - rewrite list_lookup_insert_ne in Hp' by done. by eapply Hpool. }
  destruct Hstep as [P w r|P cfg|P i k t Hi|P i f k Hi|P i k Hi Hfree
                    |P i k Hi Hheld|P i req2 k res Hi|P i w src k Hi];
    cbn [shared goroutines set_goroutine] in *.
  - split; [|apply Hrefl]. intros i p Hp.
    apply lookup_app_Some in Hp as [Hp|[Hlen Hp]]; [by eapply Hpool|].
    destruct (i - length (goroutines P))%nat; [|done].
    injection Hp as <-. by apply Hnew.
  - split; [done | apply Hconf].
  - split; [|apply Hrefl]. intros j p' Hp'.
    exact (Hins i _ (k t) Hi (Hpool i _ Hi t) j p' Hp').
  - split; [|exact (proj1 (Hpool i _ Hi) _)]. intros j p' Hp'.
    exact (Hins i _ (k (f (shared P))) Hi (proj2 (Hpool i _ Hi) _) j p' Hp').
  - split; [|apply Hrefl]. intros j p' Hp'.
    exact (Hins i _ k Hi (Hpool i _ Hi) j p' Hp').
  - split; [|apply Hrefl]. intros j p' Hp'.
    exact (Hins i _ k Hi (Hpool i _ Hi) j p' Hp').
  - split; [|apply Hrefl]. intros j p' Hp'.
    exact (Hins i _ (k res) Hi (Hpool i _ Hi res) j p' Hp').
  - split; [|apply Hrefl]. intros j p' Hp'.
    exact (Hins i _ (k (io_Copy w src)) Hi (Hpool i _ Hi (io_Copy w src)) j p' Hp').
Qed.

(** The states the process reaches are those it reaches with some
    sequence of accepted requests. *)
Lemma serving_reachable logRequests rs (P : Pool) :
  serving logRequests rs P -> reachable logRequests P.
Proof.
  induction 1 as [|rs P w r _ IH|rs P P' _ IH Hstep _]; [apply reachable_init| |].
  - exact (reachable_step _ _ _ IH (step_accept logRequests P w r)).
  - exact (reachable_step _ _ _ IH Hstep).
Qed.

Lemma step_same_length logRequests (P P' : Pool) :
  step logRequests P P' ->
  (exists w r, P' = {| shared := shared P; mutex := mutex P;
                       goroutines := goroutines P ++ [handler logRequests w r] |}) \/
  length (goroutines P') = length (goroutines P).
Proof.
  intros [P0 w r|P0 cfg|P0 i k t Hi|P0 i f k Hi|P0 i k Hi Hfree
         |P0 i k Hi Hheld|P0 i req2 k res Hi|P0 i w src k Hi];
    [left; by eexists _, _| right ..];
    cbn [goroutines set_goroutine]; by rewrite ?length_insert.
Qed.

Lemma reachable_serving logRequests (P : Pool) :
  reachable logRequests P -> exists rs, serving logRequests rs P.
Proof.
  induction 1 as [|P P' _ [rs IH] Hstep]; [exists []; apply serving_init|].
  destruct (step_same_length _ _ _ Hstep) as [(w & r & ->)|Hlen].
  - exists (rs ++ [r]). by apply serving_accept.
  - exists rs. by eapply serving_step.
Qed.

(** Goroutine [i] is the run for the [i]-th accepted request. *)
Lemma serving_length logRequests rs (P : Pool) :
  serving logRequests rs P -> length (goroutines P) = length rs.
Proof.
  induction 1 as [|rs P w r _ IH|rs P P' _ IH _ Hlen]; [done| |congruence].
  cbn [goroutines]. rewrite !length_app. cbn [length]. lia.
Qed.

End StepsIn.

(* ===================================================================== *)
(** * The monitors over the life of the process *)
(* ===================================================================== *)

Section Monitors.

Context `{RL : RateLimit}.

Implicit Types (st : State) (env : Env) (w : ResponseWriter) (r : Request).

Lemma monitors_kept_same st st' :
  monitors st' = monitors st -> replaced st' = replaced st ->
  nextAddr st' = nextAddr st -> monitors_kept st st'.
Proof.
  intros Hm Hr Hn. split.
  - intros c Hc. by rewrite Hm.
  - unfold monitors_wf. by rewrite Hm, Hr, Hn.
Qed.

Lemma monitors_kept_refl st : monitors_kept st st.
Proof. by apply monitors_kept_same. Qed.

Lemma monitors_kept_conf (cfg : Config) st : monitors_kept st (conf_Watch_callback cfg st).
Proof.
  apply monitors_kept_same; unfold conf_Watch_callback; by destruct (_ && _).
Qed.

(** The store of line 92 keeps the table well formed, also when it
    replaces a monitor. *)
Lemma monitors_kept_store_monitor c st :
  c ∈ resource_classes -> monitors_kept st (store_monitor c st).
Proof.
  intros Hclass. split; cbn [store_monitor monitors replaced nextAddr].
  - intros c' Hc'. destruct (decide (c = c')) as [<-|Hne].
    + rewrite lookup_insert_eq. by eexists.
    + by rewrite lookup_insert_ne.
  - intros (Hkeys & Hinj & Hrep).
    split; [|split]; cbn [store_monitor monitors replaced nextAddr].
    + intros c' a m. destruct (decide (c = c')) as [<-|Hne].
      * rewrite lookup_insert_eq. intros [= <- <-]. split; [done | lia].
      * rewrite lookup_insert_ne by done. intros Hc'.
        destruct (Hkeys _ _ _ Hc'). split; [done | lia].
    + intros c1 c2 a m1 m2.
      destruct (decide (c = c1)) as [<-|Hne1], (decide (c = c2)) as [<-|Hne2];
        rewrite ?lookup_insert_eq, ?lookup_insert_ne by done; [done| | |by apply Hinj].
      * intros [= <- <-] H2. destruct (Hkeys _ _ _ H2). lia.
      * intros H1 [= <- <-]. destruct (Hkeys _ _ _ H1). lia.
    + intros a m Ha.
      assert (Hold : (a < nextAddr st)%nat /\
                forall c', c <> c' -> forall m', monitors st !! c' <> Some (a, m')).
      { destruct (monitors st !! c) as [[a0 m0]|] eqn:Hc.
        - destruct (decide (a0 = a)) as [->|Hne].
          + split; [by destruct (Hkeys _ _ _ Hc)|].
            intros c' Hne m' Hc'. by apply Hne, (Hinj _ _ _ _ _ Hc Hc').
          + rewrite lookup_insert_ne in Ha by done.
            destruct (Hrep _ _ Ha) as [Hlt Hlive]. split; [done|].
            intros c' _ m'. apply Hlive.
        - destruct (Hrep _ _ Ha) as [Hlt Hlive]. split; [done|].
          intros c' _ m'. apply Hlive. }
      destruct Hold as [Hlt Hlive]. split; [lia|].
      intros c' m'. destruct (decide (c = c')) as [<-|Hne].
      * rewrite lookup_insert_eq. intros [= <- _]. lia.
      * rewrite lookup_insert_ne by done. by apply Hlive.
Qed.

Lemma lookup_update_monitor_Some c a h st c' a' m :
  monitors (update_monitor c a h st) !! c' = Some (a', m) ->
  exists m0, monitors st !! c' = Some (a', m0).
Proof.
  unfold update_monitor. destruct (decide _) as [_|_]; cbn [monitors]; [|by eauto].
  destruct (decide (c = c')) as [<-|Hne].
  - rewrite lookup_alter_eq. destruct (monitors st !! c) as [[a0 m0]|]; [|done].
    intros [= <- <-]. by eauto.
  - rewrite lookup_alter_ne by done. by eauto.
Qed.

Lemma lookup_update_monitor_is_Some c a h st c' :
  is_Some (monitors (update_monitor c a h st) !! c') <-> is_Some (monitors st !! c').
Proof.
  unfold update_monitor. destruct (decide _) as [_|_]; cbn [monitors]; [|done].
  destruct (decide (c = c')) as [<-|Hne].
  - rewrite lookup_alter_eq. by rewrite fmap_is_Some.
  - by rewrite lookup_alter_ne.
Qed.

Lemma replaced_update_monitor_Some c a h st a' m :
  replaced (update_monitor c a h st) !! a' = Some m ->
  exists m0, replaced st !! a' = Some m0.
Proof.
  unfold update_monitor. destruct (decide _) as [_|_]; cbn [replaced]; [by eauto|].
  destruct (decide (a = a')) as [<-|Hne].
  - rewrite lookup_alter_eq. destruct (replaced st !! a) as [m0|]; [|done]. by eauto.
  - rewrite lookup_alter_ne by done. by eauto.
Qed.

Lemma nextAddr_update_monitor c a h st :
  nextAddr (update_monitor c a h st) = nextAddr st.
Proof. unfold update_monitor. by destruct (decide _). Qed.

Lemma monitors_kept_update_monitor c a h st : monitors_kept st (update_monitor c a h st).
Proof.
  split.
  - intros c' Hc'. by apply lookup_update_monitor_is_Some.
  - intros (Hkeys & Hinj & Hrep). split; [|split].
    + intros c' a' m Hc'. apply lookup_update_monitor_Some in Hc' as [m0 Hc'].
      rewrite nextAddr_update_monitor. by apply (Hkeys _ _ _ Hc').
    + intros c1 c2 a' m1 m2 H1 H2.
      apply lookup_update_monitor_Some in H1 as [m1' H1].
      apply lookup_update_monitor_Some in H2 as [m2' H2].
      by apply (Hinj _ _ _ _ _ H1 H2).
    + intros a' m Ha'. apply replaced_update_monitor_Some in Ha' as [m0 Ha'].
      destruct (Hrep _ _ Ha') as [Hlt Hlive].
      rewrite nextAddr_update_monitor. split; [done|].
      intros c' m' Hc'. apply lookup_update_monitor_Some in Hc' as [m1 Hc'].
      by apply (Hlive _ _ Hc').
Qed.

(** Every step of a handler keeps the monitors. *)
Lemma handler_keeps_monitors logRequests w r :
  steps_in monitors_kept (handler logRequests w r).
Proof.
  apply (handler_steps_in monitors_kept (classify (Path r))); [| | | | |done].
  - apply monitors_kept_refl.
  - intros st. apply monitors_kept_store_monitor, classify_resource_class.
  - intros a h st. apply monitors_kept_update_monitor.
  - intros n st. by apply monitors_kept_same.
  - intros e st. by apply monitors_kept_same.
Qed.

Lemma pool_step_monitors logRequests (P P' : Pool) :
  pool_steps_in monitors_kept P -> step logRequests P P' ->
  pool_steps_in monitors_kept P' /\ monitors_kept (shared P) (shared P').
Proof.
  apply pool_step_in.
  - apply monitors_kept_refl.
  - apply monitors_kept_conf.
  - intros w r _. apply handler_keeps_monitors.
Qed.

Lemma monitors_wf_init : monitors_wf init_state.
Proof.
  split; [|split]; intros *; cbn [init_state monitors replaced];
    by rewrite lookup_empty.
Qed.

Lemma reachable_monitors logRequests (P : Pool) :
  reachable logRequests P ->
  pool_steps_in monitors_kept P /\ monitors_wf (shared P).
Proof.
  induction 1 as [|P P' _ [IHp IHwf] Hstep].
  - split; [by intros i p Hp | apply monitors_wf_init].
  - destruct (pool_step_monitors _ _ _ IHp Hstep) as [Hp [_ Hwf]].
    split; [done | by apply Hwf].
Qed.

(** ** No monitor before a request of the class *)

Lemma created_for_same rs st st' :
  monitors st' = monitors st -> created_for rs st st'.
Proof. intros Hm c Hc. left. by rewrite <- Hm. Qed.

Lemma created_for_mono rs rs' st st' :
  rs ⊆ rs' -> created_for rs st st' -> created_for rs' st st'.
Proof.
  intros Hsub Hcr c Hc. destruct (Hcr c Hc) as [Hold|(r & Hr & Hclass)]; [by left|].
  right. exists r. split; [by apply Hsub | done].
Qed.

(** The handler of a request creates a monitor for the class of that
    request only. *)
Lemma handler_created_for logRequests rs w r :
  r ∈ rs -> steps_in (created_for rs) (handler logRequests w r).
Proof.
  intros Hr.
  apply (handler_steps_in (created_for rs) (classify (Path r))); [| | | | |done].
  - intros st. by apply created_for_same.
  - intros st c Hc. cbn [store_monitor monitors] in Hc.
    destruct (decide (classify (Path r) = c)) as [<-|Hne]; [right; by exists r|].
    left. by rewrite lookup_insert_ne in Hc.
  - intros a h st c Hc. left. by apply lookup_update_monitor_is_Some in Hc.
  - intros n st. by apply created_for_same.
  - intros e st. by apply created_for_same.
Qed.

Lemma serving_created_for logRequests rs (P : Pool) :
  serving logRequests rs P ->
  pool_steps_in (created_for rs) P /\
  forall c, is_Some (monitors (shared P) !! c) ->
            exists r, r ∈ rs /\ classify (Path r) = c.
Proof.
  induction 1 as [|rs P w r _ [IHp IHm]|rs P P' _ [IHp IHm] Hstep Hlen].
  - split; [by intros i p Hp|]. intros c. cbn [init_pool shared init_state monitors].
    rewrite lookup_empty. by intros [? ?].
  - split; cbn [shared goroutines].
    + intros i p Hp.
      apply lookup_app_Some in Hp as [Hp|[_ Hp]].
      * apply (steps_in_mono (created_for rs)); [|by eapply IHp].
        intros st st'. apply created_for_mono. set_solver.
      * destruct (i - length (goroutines P))%nat; [|done].
        injection Hp as <-. apply handler_created_for. set_solver.
    + intros c Hc. destruct (IHm c Hc) as (r' & Hr' & Hclass).
      exists r'. split; [set_solver | done].
  - assert (Hnext : pool_steps_in (created_for rs) P' /\
                    created_for rs (shared P) (shared P')).
    { apply (pool_step_in _ logRequests); [| | |done|done].
      - intros st. by apply created_for_same.
      - intros cfg st. apply created_for_same. unfold conf_Watch_callback.
        by destruct (_ && _).
      - intros w r Hgs. rewrite Hgs, length_app in Hlen. cbn [length] in Hlen. lia. }
    destruct Hnext as [Hp Hcr]. split; [done|].
    intros c Hc. destruct (Hcr c Hc) as [Hold|Hnew]; [by apply IHm | done].
Qed.

(** ** One request served alone *)

Lemma served_has_monitor logRequests env st w r :
  is_Some (monitors (final (serve logRequests env st w r)) !! classify (Path r)).
Proof.
  set (c := classify (Path r)).
  pose proof (lookup_or_create_is_Some c st) as Hc.
  destruct (rate_limited (Monitor_Get (monitor_of st c) (clock env 0%nat))) eqn:Hlim.
  - by rewrite (serve_rejected logRequests env st w r Hlim).
  - destruct (transport env 0%nat (outbound st r)) as [resp|err] eqn:Htr.
    + rewrite (monitors_served logRequests env st w r resp Hlim Htr).
      fold c. rewrite lookup_insert_eq. by eexists.
    + by rewrite (serve_failed logRequests env st w r err Hlim Htr).
Qed.

Lemma monitors_lookup_or_create_ne c c' st :
  c <> c' -> monitors (lookup_or_create c st) !! c' = monitors st !! c'.
Proof.
  intros Hne. unfold lookup_or_create.
  destruct (monitors st !! c); [done|].
  cbn [store_monitor monitors]. by rewrite lookup_insert_ne.
Qed.

(** The entries of the other classes after a run. *)
Lemma served_other_class logRequests env st w r (c : string) :
  c <> classify (Path r) ->
  monitors (final (serve logRequests env st w r)) !! c = monitors st !! c.
Proof.
  intros Hne. assert (Hne' : classify (Path r) <> c) by congruence.
  destruct (rate_limited
              (Monitor_Get (monitor_of st (classify (Path r))) (clock env 0%nat)))
    eqn:Hlim.
  - rewrite (serve_rejected logRequests env st w r Hlim). cbn [final].
    by apply monitors_lookup_or_create_ne.
  - destruct (transport env 0%nat (outbound st r)) as [resp|err] eqn:Htr.
    + rewrite (monitors_served logRequests env st w r resp Hlim Htr).
      rewrite lookup_insert_ne by done. by apply monitors_lookup_or_create_ne.
    + rewrite (serve_failed logRequests env st w r err Hlim Htr).
      cbn [final log_append monitors]. by apply monitors_lookup_or_create_ne.
Qed.

(** The monitor of the class of the request, where there is one, stays at
    its address. *)
Lemma served_keeps_address logRequests env st w r a m :
  monitors st !! classify (Path r) = Some (a, m) ->
  exists m', monitors (final (serve logRequests env st w r)) !! classify (Path r)
             = Some (a, m').
Proof.
  set (c := classify (Path r)). intros Hc.
  assert (Hst : lookup_or_create c st = st) by (unfold lookup_or_create; by rewrite Hc).
  assert (Ha : monitor_address st c = a) by (unfold monitor_address; by rewrite Hc).
  destruct (rate_limited (Monitor_Get (monitor_of st c) (clock env 0%nat))) eqn:Hlim.
  - rewrite (serve_rejected logRequests env st w r Hlim). cbn [final].
    fold c. rewrite Hst. by eexists.
  - destruct (transport env 0%nat (outbound st r)) as [resp|err] eqn:Htr.
    + rewrite (monitors_served logRequests env st w r resp Hlim Htr).
      fold c. rewrite lookup_insert_eq, Ha. by eexists.
    + rewrite (serve_failed logRequests env st w r err Hlim Htr).
      cbn [final log_append monitors]. fold c. rewrite Hst. by eexists.
Qed.

(** C7, amended. The table of monitors is empty when the process starts
    serving, and in no state the process reaches has a class a monitor
    unless a request of that class has been accepted: monitors are
    created on first use, by lines 91-93 of the run for a request of the
    class. A request served with no other run in progress leaves its
    class with a monitor, keeps at its address the one the class had, and
    leaves the entries of the other classes as they were. In every state
    the process reaches, in any interleaving of the runs, the keys of the
    table are among core, search and graphql, no two classes share a
    monitor, and no step removes the entry of a class. *)
Theorem monitors_created_on_first_use logRequests :
  monitors init_state = ∅ /\
  (forall rs P c,
      serving logRequests rs P ->
      is_Some (monitors (shared P) !! c) ->
      exists r, r ∈ rs /\ classify (Path r) = c) /\
  (forall env st w r,
      let c := classify (Path r) in
      let st' := final (serve logRequests env st w r) in
      is_Some (monitors st' !! c) /\
      (forall a m, monitors st !! c = Some (a, m) ->
                   exists m', monitors st' !! c = Some (a, m')) /\
      (forall c', c' <> c -> monitors st' !! c' = monitors st !! c')) /\
  (forall P, reachable logRequests P -> monitors_wf (shared P)) /\
  (forall P P',
      reachable logRequests P -> step logRequests P P' ->
      forall c, is_Some (monitors (shared P) !! c) ->
                is_Some (monitors (shared P') !! c)).
Proof.
  split; [done|]. split; [|split; [|split]].
  - intros rs P c HP. by apply (serving_created_for _ _ _ HP).
  - intros env st w r c st'. split; [apply served_has_monitor|]. split.
    + intros a m. apply served_keeps_address.
    + intros c' Hne. by apply served_other_class.
  - intros P HP. by apply (reachable_monitors _ _ HP).
  - intros P P' HP Hstep.
    destruct (reachable_monitors _ _ HP) as [Hpool _].
    by destruct (pool_step_monitors _ _ _ Hpool Hstep) as [_ [Hkept _]].
Qed.

End Monitors.
(* ===================================================================== *)
(** * A request on its way into the upstream call *)
(* ===================================================================== *)

Section Reach.

Context `{RL : RateLimit}.

Lemma insert_middle (gs1 gs2 : list Prog) (p q : Prog) :
  <[length gs1 := q]> (gs1 ++ p :: gs2) = gs1 ++ q :: gs2.
Proof.
  rewrite insert_app_r_alt by done. by rewrite Nat.sub_diag.
Qed.

Lemma length_middle (gs1 gs2 : list Prog) (p q : Prog) :
  length (gs1 ++ q :: gs2) = length (gs1 ++ p :: gs2).
Proof. by rewrite !length_app. Qed.

Lemma app_two (gs : list Prog) (p q : Prog) : (gs ++ [p]) ++ [q] = gs ++ p :: [q].
Proof. by rewrite <- app_assoc. Qed.

(** The steps of one goroutine among the others. *)
Lemma serving_shared_at logRequests rs st m gs1 gs2 f k :
  serving logRequests rs
    {| shared := st; mutex := m; goroutines := gs1 ++ Shared f k :: gs2 |} ->
  serving logRequests rs
    {| shared := f st; mutex := m; goroutines := gs1 ++ k (f st) :: gs2 |}.
Proof.
  intros H0.
  pose proof (step_shared logRequests
                {| shared := st; mutex := m; goroutines := gs1 ++ Shared f k :: gs2 |}
                (length gs1) f k (list_lookup_middle _ _ _ _ eq_refl)) as Hs.
  cbn [shared mutex goroutines] in Hs. rewrite insert_middle in Hs.
  exact (serving_step _ _ _ _ H0 Hs (length_middle _ _ _ _)).
Qed.

Lemma serving_time_at logRequests rs st m gs1 gs2 k t :
  serving logRequests rs
    {| shared := st; mutex := m; goroutines := gs1 ++ TimeNow k :: gs2 |} ->
  serving logRequests rs
    {| shared := st; mutex := m; goroutines := gs1 ++ k t :: gs2 |}.
Proof.
  intros H0.
  pose proof (step_time logRequests
                {| shared := st; mutex := m; goroutines := gs1 ++ TimeNow k :: gs2 |}
                (length gs1) k t (list_lookup_middle _ _ _ _ eq_refl)) as Hs.
  unfold set_goroutine in Hs.
  cbn [shared mutex goroutines] in Hs. rewrite insert_middle in Hs.
  exact (serving_step _ _ _ _ H0 Hs (length_middle _ _ _ _)).
Qed.

Lemma serving_lock_at logRequests rs st gs1 gs2 k :
  serving logRequests rs
    {| shared := st; mutex := None; goroutines := gs1 ++ Lock k :: gs2 |} ->
  serving logRequests rs
    {| shared := st; mutex := Some (length gs1); goroutines := gs1 ++ k :: gs2 |}.
Proof.
  intros H0.
  pose proof (step_lock logRequests
                {| shared := st; mutex := None; goroutines := gs1 ++ Lock k :: gs2 |}
                (length gs1) k (list_lookup_middle _ _ _ _ eq_refl) eq_refl) as Hs.
  cbn [shared mutex goroutines] in Hs. rewrite insert_middle in Hs.
  exact (serving_step _ _ _ _ H0 Hs (length_middle _ _ _ _)).
Qed.

(** A handler among the others, with no step of theirs in between, gets
    from line 91 to line 94 with the monitor of its class found or
    created. *)
Lemma reach_find logRequests rs st m gs1 gs2 w r :
  let c := classify (Path r) in
  serving logRequests rs
    {| shared := st; mutex := m; goroutines := gs1 ++ handler logRequests w r :: gs2 |} ->
  serving logRequests rs
    {| shared := lookup_or_create c st; mutex := m;
       goroutines :=
         gs1 ++ find_monitor logRequests w r c (URL.Query (RawQuery r)) :: gs2 |}.
Proof.
  intros c H0. apply serving_shared_at in H0.
  cbn [id] in H0. fold c in H0. unfold lookup_or_create.
  destruct (monitors st !! c) as [am|]; [exact H0|].
  by apply serving_shared_at in H0.
Qed.

Lemma check_limit_admitted logRequests w r c a q2 m t :
  rate_limited (Monitor_Get m t) = false ->
  (let '(rateLimitRemaining, rateLimitReset, rateLimitKnown) := Monitor_Get m t in
   if rateLimitKnown && ((rateLimitRemaining <? 1) && (0 <? rateLimitReset)) then
     TimeNow (fun now =>
       let nextTime := Time_Add now rateLimitReset in
       answer w (http_Error w (rate_limit_message c nextTime) StatusForbidden))
   else forward logRequests w r c a q2) = forward logRequests w r c a q2.
Proof.
  unfold rate_limited. destruct (Monitor_Get m t) as [[remaining reset] known].
  by intros ->.
Qed.

(** From a state with the gate free, a request that is admitted at clock
    reading [t] gets into the upstream call holding the gate. *)
Lemma reach_call logRequests rs (P : Pool) w r t :
  let c := classify (Path r) in
  serving logRequests rs P ->
  mutex P = None ->
  rate_limited (Monitor_Get (monitor_of (shared P) c) t) = false ->
  serving logRequests (rs ++ [r])
    {| shared := lookup_or_create c (shared P);
       mutex := Some (length (goroutines P));
       goroutines :=
         goroutines P ++
           [Do (outbound (shared P) r)
               (after_call logRequests w c (monitor_address (shared P) c))] |}.
Proof.
  intros c HP Hfree Hlim. destruct P as [st m gs]. cbn [shared mutex goroutines] in *.
  subst m.
  pose proof (serving_accept _ _ _ w r HP) as H1.
  cbn [shared mutex goroutines] in H1.
  apply reach_find in H1. fold c in H1. unfold find_monitor in H1.
  apply serving_shared_at in H1.
  cbn [id] in H1. rewrite lookup_lookup_or_create in H1.
  cbn [fmap option_fmap option_map fst check_limit] in H1.
  apply serving_shared_at in H1. cbn [id] in H1.
  apply (serving_time_at _ _ _ _ _ _ _ t) in H1.
  rewrite (pointee_live _ _ _ _ (lookup_lookup_or_create st c)) in H1.
  rewrite (check_limit_admitted _ _ _ _ _ _ _ _ Hlim) in H1.
  apply serving_shared_at in H1. cbn [id] in H1.
  apply serving_lock_at in H1.
  change (build_req2 r _ _) with (outbound (lookup_or_create c st) r) in H1.
  by rewrite outbound_lookup_or_create in H1.
Qed.

(** The first requests of a class race: when two requests of a class that
    has no monitor are accepted and both runs pass line 91 before either
    stores, both store. The struct of the first store is replaced in the
    map by the struct of the second. *)
Lemma first_use_race logRequests rs (P : Pool) (w1 w2 : ResponseWriter)
    (r1 r2 : Request) :
  let c := classify (Path r1) in
  serving logRequests rs P ->
  classify (Path r2) = c ->
  monitors (shared P) !! c = None ->
  serving logRequests ((rs ++ [r1]) ++ [r2])
    {| shared := store_monitor c (store_monitor c (shared P));
       mutex := mutex P;
       goroutines :=
         (goroutines P ++ [find_monitor logRequests w1 r1 c (URL.Query (RawQuery r1))])
           ++ [find_monitor logRequests w2 r2 c (URL.Query (RawQuery r2))] |}.
Proof.
  intros c HP Hc2 Hnone. destruct P as [st m gs]. cbn [shared mutex goroutines] in *.
  pose proof (serving_accept _ _ _ w1 r1 HP) as H1.
  cbn [shared mutex goroutines] in H1.
  pose proof (serving_accept _ _ _ w2 r2 H1) as H2.
  cbn [shared mutex goroutines] in H2.
  (* both look at line 91 *)
  rewrite app_two in H2. apply serving_shared_at in H2.
  cbn [id] in H2. fold c in H2. rewrite Hnone in H2.
  rewrite <- app_two in H2. apply (serving_shared_at _ _ _ _ _ []) in H2.
  cbn [id] in H2. rewrite Hc2, Hnone in H2.
  (* both store *)
  rewrite app_two in H2. apply serving_shared_at in H2.
  rewrite <- app_two in H2. by apply (serving_shared_at _ _ _ _ _ []) in H2.
Qed.

(** After the race the map holds the struct stored last, and the struct
    stored first is out of the map. *)
Lemma store_monitor_twice c st :
  monitors (store_monitor c (store_monitor c st)) !! c
    = Some (S (nextAddr st), Monitor_new "X-") /\
  replaced (store_monitor c (store_monitor c st)) !! nextAddr st
    = Some (Monitor_new "X-").
Proof.
  cbn [store_monitor monitors replaced nextAddr]. by rewrite !lookup_insert_eq.
Qed.

End Reach.

(* ===================================================================== *)
(** * The library functions the handler calls *)
(* ===================================================================== *)

Module URLExtra.
Import URL.

Lemma QueryEscape_cons_escaped (c : ascii) (r : string) :
  string_forallb escaped_byte (QueryEscape (String c r))
    = string_forallb escaped_byte (QueryEscape r).
Proof. destruct c as [[] [] [] [] [] [] [] []]; reflexivity. Qed.

(** X13. Escaping a query component and unescaping the result gives the
    component back, for every byte string; and the escaped text is made of
    letters, digits and the bytes - _ . ~ % + only, so that it has no
    ampersand, semicolon, equals sign or space. *)
Theorem QueryEscape_roundtrip (s : string) :
  QueryUnescape (QueryEscape s) = Some s /\
  string_forallb escaped_byte (QueryEscape s) = true.
Proof.
  split; [apply URLFacts.QueryUnescape_QueryEscape|].
  induction s as [|c s IH]; [done|]. by rewrite QueryEscape_cons_escaped.
Qed.

Lemma insert_sorted_HdRel (x k : string) (l : list string) :
  String.le x k -> HdRel String.le x l -> HdRel String.le x (insert_sorted k l).
Proof.
  intros Hxk Hl. destruct l as [|y l]; cbn [insert_sorted]; [by constructor|].
  destruct (String.leb k y); constructor; [done|].
  by inversion Hl.
Qed.

Lemma insert_sorted_Sorted (k : string) (l : list string) :
  Sorted String.le l -> Sorted String.le (insert_sorted k l).
Proof.
  induction 1 as [|x l Hl IH Hx]; cbn [insert_sorted]; [by repeat constructor|].
  destruct (String.leb k x) eqn:Hkx.
  - constructor; [by constructor|]. constructor. unfold String.le. by rewrite Hkx.
  - constructor; [done|]. apply insert_sorted_HdRel; [|done].
    destruct (total String.le x k) as [Hle|Hle]; [done|].
    unfold String.le in Hle. by rewrite Hkx in Hle.
Qed.

(** X14. The keys Encode writes are the keys of the map, each once, in
    ascending byte-wise order; two lists with the same elements are sorted
    to the same list, so the text Encode writes does not depend on the
    order in which the keys of the map are enumerated. *)
Theorem sort_strings_sorted (l l' : list string) :
  StronglySorted String.le (sort_strings l) /\
  sort_strings l ≡ₚ l /\
  (l ≡ₚ l' -> sort_strings l = sort_strings l').
Proof.
  assert (Hs : forall l0, Sorted String.le (sort_strings l0)).
  { induction l0 as [|x l0 IH]; [constructor|].
    unfold sort_strings. cbn [foldr]. by apply insert_sorted_Sorted. }
  split; [apply Sorted_StronglySorted; [apply _ | apply Hs]|].
  split; [apply URLFacts.sort_strings_perm|].
  intros Hp. apply (Sorted_unique String.le); [apply Hs | apply Hs|].
  by rewrite !URLFacts.sort_strings_perm.
Qed.

(** X15. Parsing what Encode wrote gives the values back: for every
    url.Values without an empty list of values, Query (Encode v) = v. The
    results of Query are of that kind, whatever the query text, so
    re-encoding is idempotent on query strings. *)
Theorem Query_Encode_roundtrip (v : Values) (q : string) :
  (no_empty_values v -> Query (Encode v) = v) /\
  no_empty_values (Query q) /\
  Encode (Query (Encode (Query q))) = Encode (Query q).
Proof.
  split; [apply URLFacts.Query_Encode|].
  split; [apply URLFacts.Query_no_empty|].
  by rewrite (URLFacts.Query_Encode _ (URLFacts.Query_no_empty q)).
Qed.

End URLExtra.

Module HeaderExtra.
Import Header.

Lemma lower_byte_valid (c : ascii) :
  validHeaderFieldByte (lower_byte c) = validHeaderFieldByte c.
Proof. destruct c as [[] [] [] [] [] [] [] []]; reflexivity. Qed.

Lemma ToLower_valid (s : string) :
  string_forallb validHeaderFieldByte (ToLower s)
    = string_forallb validHeaderFieldByte s.
Proof.
  induction s as [|c s IH]; [done|]. cbn [ToLower string_forallb].
  by rewrite lower_byte_valid, IH.
Qed.

Lemma canonical_loop_cons_lower (upper : bool) (c : ascii) (r r' : string) :
  (forall u, canonical_loop u r = canonical_loop u r') ->
  canonical_loop upper (String (lower_byte c) r) = canonical_loop upper (String c r').
Proof.
  intros Hr. destruct upper, c as [[] [] [] [] [] [] [] []];
    cbn [canonical_loop]; vm_compute byte_of; cbv beta iota zeta;
    by rewrite Hr.
Qed.

Lemma canonical_loop_ToLower (upper : bool) (s : string) :
  canonical_loop upper (ToLower s) = canonical_loop upper s.
Proof.
  revert upper. induction s as [|c s IH]; intros upper; [done|].
  cbn [ToLower]. apply canonical_loop_cons_lower. intros u. apply IH.
Qed.

Lemma Canonical_ToLower (s : string) :
  string_forallb validHeaderFieldByte s = true ->
  CanonicalMIMEHeaderKey (ToLower s) = CanonicalMIMEHeaderKey s.
Proof.
  intros Hs. unfold CanonicalMIMEHeaderKey.
  by rewrite ToLower_valid, Hs, canonical_loop_ToLower.
Qed.

(** X16. Header fields are found whatever the case of their name: a value
    set under a name made of token bytes is what Get returns for every name
    that differs from it in the case of letters only. *)
Theorem header_get_case_insensitive (h : Header.t) (k k' v : string) :
  string_forallb validHeaderFieldByte k = true ->
  ToLower k' = ToLower k ->
  Get (Set_ h k v) k' = v.
Proof.
  intros Hk Hkk'.
  assert (Hk' : string_forallb validHeaderFieldByte k' = true)
    by by rewrite <- ToLower_valid, Hkk', ToLower_valid.
  unfold Get, Set_.
  rewrite <- (Canonical_ToLower k' Hk'), Hkk', (Canonical_ToLower k Hk).
  by rewrite lookup_insert_eq.
Qed.

End HeaderExtra.

(* ===================================================================== *)
(** * Further properties of one request *)
(* ===================================================================== *)

Lemma canonical_user_agent :
  Header.CanonicalMIMEHeaderKey "User-Agent" = "User-Agent".
Proof. reflexivity. Qed.

Lemma canonical_accept : Header.CanonicalMIMEHeaderKey "Accept" = "Accept".
Proof. reflexivity. Qed.

Lemma canonical_content_type :
  Header.CanonicalMIMEHeaderKey "Content-Type" = "Content-Type".
Proof. reflexivity. Qed.

Lemma canonical_authorization :
  Header.CanonicalMIMEHeaderKey "Authorization" = "Authorization".
Proof. reflexivity. Qed.

(** The header map of lines 103-109 as a map. *)
Lemma build_h2_spec (rh : Header.t) :
  build_h2 rh =
    let base :=
      <["Content-Type" := [Header.Get rh "Content-Type"]]>
        (<["Accept" := [Header.Get rh "Accept"]]>
           (<["User-Agent" := [Header.Get rh "User-Agent"]]> ∅)) in
    if negb (String.eqb (Header.Get rh "Authorization") "")
    then <["Authorization" := [Header.Get rh "Authorization"]]> base
    else base.
Proof.
  unfold build_h2, Header.Set_.
  by rewrite canonical_user_agent, canonical_accept, canonical_content_type,
    canonical_authorization.
Qed.

Section MoreOnServe.

Context `{RL : RateLimit}.

Implicit Types (st : State) (env : Env) (w : ResponseWriter) (r : Request).

(** The state a run ends in, by the way it went. *)
Lemma final_serve logRequests env st w r :
  final (serve logRequests env st w r) =
    let c := classify (Path r) in
    let st1 := lookup_or_create c st in
    if rate_limited (Monitor_Get (monitor_of st c) (clock env 0%nat)) then st1
    else match transport env 0%nat (outbound st r) with
         | inr err => log_append (LogPrint err) st1
         | inl resp =>
             relay_logged logRequests w resp (bookkept c (monitor_address st c) resp st1)
         end.
Proof.
  cbn zeta. destruct (rate_limited _) eqn:Hlim.
  - by rewrite (serve_rejected logRequests env st w r Hlim).
  - destruct (transport env 0%nat (outbound st r)) as [resp|err] eqn:Htr.
    + by rewrite (serve_relayed logRequests env st w r resp Hlim Htr).
    + by rewrite (serve_failed logRequests env st w r err Hlim Htr).
Qed.

Lemma authenticateRequest_lookup_or_create c st :
  authenticateRequest (lookup_or_create c st) = authenticateRequest st.
Proof. unfold lookup_or_create. by destruct (monitors st !! c). Qed.

Lemma logs_lookup_or_create c st : logs (lookup_or_create c st) = logs st.
Proof. unfold lookup_or_create. by destruct (monitors st !! c). Qed.

Lemma authenticateRequest_update_monitor c a h st :
  authenticateRequest (update_monitor c a h st) = authenticateRequest st.
Proof. unfold update_monitor. by destruct (decide _). Qed.

Lemma logs_update_monitor c a h st : logs (update_monitor c a h st) = logs st.
Proof. unfold update_monitor. by destruct (decide _). Qed.

Lemma authenticateRequest_bookkept c a (resp : Response) st :
  authenticateRequest (bookkept c a resp st) = authenticateRequest st.
Proof.
  unfold bookkept. cbn zeta.
  destruct (negb _); cbn [gauge_Set authenticateRequest];
    apply authenticateRequest_update_monitor.
Qed.

Lemma logs_bookkept c a (resp : Response) st : logs (bookkept c a resp st) = logs st.
Proof.
  unfold bookkept. cbn zeta.
  destruct (negb _); cbn [gauge_Set logs]; apply logs_update_monitor.
Qed.

Lemma authenticateRequest_relay_logged logRequests w (resp : Response) st :
  authenticateRequest (relay_logged logRequests w resp st) = authenticateRequest st.
Proof. unfold relay_logged. by destruct (_ || _). Qed.

(** X2. The header of an outbound request has no field but User-Agent,
    Accept, Content-Type and Authorization: the first three are always set,
    to the first inbound value or to the empty string when the inbound
    request has none, and Authorization is set exactly when the inbound
    request has a non-empty one. No other inbound field is passed on. *)
Theorem outbound_header_allow_list logRequests env st w r (req2 : OutRequest) :
  req2 ∈ upstream_calls (serve logRequests env st w r) ->
  let rh := ReqHeader r in
  oHeader req2 !! "User-Agent" = Some [Header.Get rh "User-Agent"] /\
  oHeader req2 !! "Accept" = Some [Header.Get rh "Accept"] /\
  oHeader req2 !! "Content-Type" = Some [Header.Get rh "Content-Type"] /\
  oHeader req2 !! "Authorization" =
    (if String.eqb (Header.Get rh "Authorization") "" then None
     else Some [Header.Get rh "Authorization"]) /\
  (forall k, is_Some (oHeader req2 !! k) ->
             k ∈ ["User-Agent"; "Accept"; "Content-Type"; "Authorization"]).
Proof.
  rewrite upstream_calls_serve.
  destruct (rate_limited _); [by intros Hin%elem_of_nil|].
  intros ->%list_elem_of_singleton rh.
  unfold outbound. cbn [oHeader build_req2]. rewrite build_h2_spec. fold rh.
  cbn zeta.
  destruct (String.eqb (Header.Get rh "Authorization") "") eqn:Ha; cbn [negb].
  - split; [by rewrite !lookup_insert_ne, lookup_insert_eq by done|].
    split; [by rewrite lookup_insert_ne, lookup_insert_eq by done|].
    split; [by rewrite lookup_insert_eq|].
    split; [by rewrite !lookup_insert_ne, lookup_empty by done|].
    intros k [v Hk].
    destruct (decide (k = "Content-Type")) as [->|H1]; [set_solver|].
    destruct (decide (k = "Accept")) as [->|H2]; [set_solver|].
    destruct (decide (k = "User-Agent")) as [->|H3]; [set_solver|].
    by rewrite !lookup_insert_ne, lookup_empty in Hk by done.
  - split; [by rewrite !lookup_insert_ne, lookup_insert_eq by done|].
    split; [by rewrite !lookup_insert_ne, lookup_insert_eq by done|].
    split; [by rewrite lookup_insert_ne, lookup_insert_eq by done|].
    split; [by rewrite lookup_insert_eq|].
    intros k [v Hk].
    destruct (decide (k = "Authorization")) as [->|H0]; [set_solver|].
    destruct (decide (k = "Content-Type")) as [->|H1]; [set_solver|].
    destruct (decide (k = "Accept")) as [->|H2]; [set_solver|].
    destruct (decide (k = "User-Agent")) as [->|H3]; [set_solver|].
    by rewrite !lookup_insert_ne, lookup_empty in Hk by done.
Qed.

(** X3. A request is either refused or sent upstream exactly once: the
    number of upstream calls of a run is 0 when line 96 finds the class out
    of quota and 1 otherwise, whatever the upstream call returns. *)
Theorem one_upstream_call logRequests env st w r :
  length (upstream_calls (serve logRequests env st w r)) =
    if rate_limited (Monitor_Get (monitor_of st (classify (Path r))) (clock env 0%nat))
    then 0%nat else 1%nat.
Proof. rewrite upstream_calls_serve. by destruct (rate_limited _). Qed.

(** X4. A refused request changes nothing but the creation of its class's
    monitor: gauge, authenticator and log are as before, every class's
    monitor state is as before, and the response does not depend on the
    logging toggle, the method, the query, the header or the body of the
    request, only on its class. *)
Theorem rejection_leaves_state logRequests env st w r :
  rate_limited (Monitor_Get (monitor_of st (classify (Path r))) (clock env 0%nat)) = true ->
  let o := serve logRequests env st w r in
  final o = lookup_or_create (classify (Path r)) st /\
  gauge (final o) = gauge st /\
  authenticateRequest (final o) = authenticateRequest st /\
  logs (final o) = logs st /\
  (forall c, monitor_of (final o) c = monitor_of st c) /\
  (forall logRequests' r',
      classify (Path r') = classify (Path r) ->
      response (serve logRequests' env st w r') = response o).
Proof.
  intros Hlim o. unfold o.
  rewrite (serve_rejected logRequests env st w r Hlim). cbn [final response].
  split; [done|]. split; [apply gauge_lookup_or_create|].
  split; [apply authenticateRequest_lookup_or_create|].
  split; [apply logs_lookup_or_create|].
  split; [intros c; apply monitor_of_lookup_or_create_any|].
  intros lr' r' Hc.
  assert (Hlim' : rate_limited
            (Monitor_Get (monitor_of st (classify (Path r'))) (clock env 0%nat)) = true)
    by by rewrite Hc.
  rewrite (serve_rejected lr' env st w r' Hlim'). cbn [response]. by rewrite Hc.
Qed.

(** X5. A request touches the bookkeeping of its own class only: for every
    other class the entry of the monitors map, the monitor state and the
    gauge value are the same after the run as before, on every path; and no
    request changes the authenticator. *)
Theorem class_isolation logRequests env st w r (c : string) :
  c <> classify (Path r) ->
  let o := serve logRequests env st w r in
  monitors (final o) !! c = monitors st !! c /\
  monitor_of (final o) c = monitor_of st c /\
  gauge (final o) !! c = gauge st !! c /\
  authenticateRequest (final o) = authenticateRequest st.
Proof.
  intros Hne o.
  assert (Hne' : classify (Path r) <> c) by congruence.
  assert (Hm : monitors (final o) !! c = monitors st !! c)
    by by apply served_other_class.
  split; [exact Hm|]. split; [unfold monitor_of; by rewrite Hm|].
  unfold o. rewrite final_serve. cbn zeta.
  destruct (rate_limited _).
  { by rewrite gauge_lookup_or_create, authenticateRequest_lookup_or_create. }
  destruct (transport _ _ _) as [resp|err].
  - rewrite gauge_relay_logged, gauge_bookkept, gauge_lookup_or_create.
    rewrite authenticateRequest_relay_logged, authenticateRequest_bookkept,
      authenticateRequest_lookup_or_create.
    split; [|done]. cbn zeta. destruct (negb _); [|done].
    by rewrite lookup_insert_ne.
  - cbn [log_append gauge authenticateRequest].
    by rewrite gauge_lookup_or_create, authenticateRequest_lookup_or_create.
Qed.

(** The verbose branch of lines 152-158 is not taken when the status is
    below 400, when logging is off, or when line 151 has panicked. *)
Lemma relay_logs_nothing logRequests w (resp : Response) :
  relay_panics w resp || (StatusCode resp <? 400) || negb logRequests =
    (StatusCode resp <? 400) || negb logRequests ||
      match wSent w with
      | Some _ => false
      | None => 999 <? StatusCode resp
      end.
Proof.
  assert (Hp : relay_panics w resp =
               match wSent w with
               | Some _ => false
               | None => negb (checkWriteHeaderCode (StatusCode resp))
               end).
  { unfold relay_panics, WriteHeader.
    destruct (copy_headers_spec (RespHeader resp) w) as (_ & -> & _).
    destruct (wSent w); [done|]. by destruct (checkWriteHeaderCode _). }
  rewrite Hp. destruct (wSent w) as [s|].
  { cbn [orb]. by rewrite orb_false_r. }
  unfold checkWriteHeaderCode. rewrite negb_involutive.
  destruct (Z.ltb_spec (StatusCode resp) 400) as [Hlt|Hge].
  - rewrite orb_true_r. done.
  - destruct (Z.ltb_spec (StatusCode resp) 100); [lia|].
    cbn [orb]. by destruct (999 <? StatusCode resp), logRequests.
Qed.

(** X6. What a run logs: nothing when the request is refused or the
    response is relayed with a status below 400 or with logging off; the
    transport error when the upstream call fails; and, with logging on and
    a status of 400 or more, one entry with the status, the whole body read
    and the read error. A run that panics at line 151 (a status above 999
    given to a writer that has sent nothing) ends before line 155 and logs
    nothing. *)
Theorem logged_entries logRequests env st w r :
  logs (final (serve logRequests env st w r)) =
    logs st ++
      if rate_limited (Monitor_Get (monitor_of st (classify (Path r))) (clock env 0%nat))
      then []
      else match transport env 0%nat (outbound st r) with
           | inr err => [LogPrint err]
           | inl resp =>
               if (StatusCode resp <? 400) || negb logRequests ||
                  match wSent w with
                  | Some _ => false
                  | None => 999 <? StatusCode resp
                  end
               then []
               else [LogWarn (StatusCode resp) (fst (ReadAll (RespBody resp)))
                       (snd (ReadAll (RespBody resp)))]
           end.
Proof.
  rewrite final_serve. cbn zeta.
  destruct (rate_limited _).
  { by rewrite logs_lookup_or_create, (right_id_L [] (++)). }
  destruct (transport _ _ _) as [resp|err].
  - unfold relay_logged. rewrite relay_logs_nothing. destruct (_ || _).
    + by rewrite logs_bookkept, logs_lookup_or_create, (right_id_L [] (++)).
    + cbn [log_append logs]. by rewrite logs_bookkept, logs_lookup_or_create.
  - cbn [log_append logs]. by rewrite logs_lookup_or_create.
Qed.

End MoreOnServe.

(* ===================================================================== *)
(** * strconv.Atoi on decimal strings *)
(* ===================================================================== *)

Module AtoiValue.
Import Strconv.

Lemma digit_range (c : ascii) :
  is_digit c = true ->
  0 <= byte_val c - 48 <= 9 /\ (byte_val c - 48) mod 256 = byte_val c - 48.
Proof.
  destruct c as [[] [] [] [] [] [] [] []]; intros Hd; vm_compute in Hd;
    try discriminate Hd; (split; [split|]; vm_compute; congruence).
Qed.

Lemma digits_value_bounds (s : string) (n : Z) :
  string_forallb is_digit s = true -> 0 <= n ->
  n * 10 ^ Z.of_nat (String.length s) <= digits_value s n
    < (n + 1) * 10 ^ Z.of_nat (String.length s).
Proof.
  revert n. induction s as [|c s IH]; intros n Hs Hn.
  - cbn [String.length digits_value]. change (10 ^ Z.of_nat 0) with 1. lia.
  - cbn [string_forallb] in Hs. apply andb_true_iff in Hs as [Hc Hs].
    destruct (digit_range c Hc) as [Hd _].
    cbn [String.length digits_value].
    rewrite Nat2Z.inj_succ, Z.pow_succ_r by lia.
    specialize (IH (n * 10 + (byte_val c - 48)) Hs ltac:(lia)).
    assert (0 < 10 ^ Z.of_nat (String.length s)) by (apply Z.pow_pos_nonneg; lia).
    nia.
Qed.

Lemma digits_value_ge (s : string) (n : Z) :
  string_forallb is_digit s = true -> 0 <= n -> n <= digits_value s n.
Proof.
  intros Hs Hn. pose proof (digits_value_bounds s n Hs Hn) as [Hlo _].
  assert (0 < 10 ^ Z.of_nat (String.length s)) by (apply Z.pow_pos_nonneg; lia).
  nia.
Qed.

Lemma atoi_fast_loop_value (s : string) (n : Z) :
  string_forallb is_digit s = true ->
  atoi_fast_loop s n = Some (digits_value s n).
Proof.
  revert n. induction s as [|c s IH]; intros n Hs; [done|].
  cbn [string_forallb] in Hs. apply andb_true_iff in Hs as [Hc Hs].
  cbn [atoi_fast_loop digits_value].
  rewrite StrconvFacts.fast_digit_test, Hc. cbn [negb].
  destruct (digit_range c Hc) as [_ ->]. by apply IH.
Qed.

Lemma parseUint_loop_value (s : string) (n : Z) :
  string_forallb is_digit s = true -> 0 <= n <= maxUint64 ->
  parseUint_loop s n =
    if digits_value s n <=? maxUint64 then (digits_value s n, None)
    else (maxUint64, Some ErrRange).
Proof.
  unfold maxUint64.
  revert n. induction s as [|c s IH]; intros n Hs Hn.
  - cbn [parseUint_loop digits_value].
    destruct (Z.leb_spec n 18446744073709551615); [done | lia].
  - cbn [string_forallb] in Hs. apply andb_true_iff in Hs as [Hc Hs].
    destruct (digit_range c Hc) as [Hd _].
    cbn [parseUint_loop digits_value]. rewrite Hc. cbn [negb]. unfold maxUint64.
    change (18446744073709551615 / 10 + 1) with 1844674407370955162.
    change (2 ^ 64) with 18446744073709551616.
    pose proof (digits_value_ge s (n * 10 + (byte_val c - 48)) Hs ltac:(lia)) as Hge.
    destruct (Z.leb_spec 1844674407370955162 n) as [Hcut|Hcut].
    { destruct (Z.leb_spec (digits_value s (n * 10 + (byte_val c - 48)))
                  18446744073709551615); [lia | done]. }
    rewrite (Z.mod_small (n * 10)) by lia.
    destruct (Z.lt_ge_cases (n * 10 + (byte_val c - 48)) 18446744073709551616)
      as [Hfit|Hwrap].
    + rewrite (Z.mod_small (n * 10 + (byte_val c - 48))) by lia.
      destruct (Z.ltb_spec (n * 10 + (byte_val c - 48)) (n * 10)); [lia|].
      destruct (Z.ltb_spec 18446744073709551615 (n * 10 + (byte_val c - 48))); [lia|].
      cbn [orb]. apply IH; [done | lia].
    + assert (Hm : (n * 10 + (byte_val c - 48)) mod 18446744073709551616
                   = n * 10 + (byte_val c - 48) - 18446744073709551616).
      { symmetry. apply (Z.mod_unique _ _ 1); lia. }
      rewrite Hm.
      destruct (Z.ltb_spec (n * 10 + (byte_val c - 48) - 18446744073709551616) (n * 10));
        [|lia].
      cbn [orb].
      destruct (Z.leb_spec (digits_value s (n * 10 + (byte_val c - 48)))
                  18446744073709551615); [lia | done].
Qed.

Lemma length_lt_19_value (s : string) :
  string_forallb is_digit s = true -> (String.length s < 19)%nat ->
  0 <= digits_value s 0 < 10 ^ 18.
Proof.
  intros Hs Hlen. pose proof (digits_value_bounds s 0 Hs ltac:(lia)) as [Hlo Hhi].
  assert (10 ^ Z.of_nat (String.length s) <= 10 ^ 18)
    by (apply Z.pow_le_mono_r; lia).
  lia.
Qed.

(** Atoi on an optionally signed digit string: the value when it fits
    int64, else a range error with the bound on the side of the sign. *)
Lemma Atoi_decimal (s : string) :
  decimal_syntax s = true ->
  Atoi s =
    if maxInt64 <? decimal_value s then (maxInt64, Some ErrRange)
    else if decimal_value s <? minInt64 then (minInt64, Some ErrRange)
    else (decimal_value s, None).
Proof.
  unfold maxInt64, minInt64.
  destruct s as [|c0 r0]; [done|].
  unfold decimal_syntax, Atoi, decimal_value.
  assert (Hsign : Ascii.eqb c0 "+" || Ascii.eqb c0 "-"
                  = Ascii.eqb c0 "-" || Ascii.eqb c0 "+") by apply orb_comm.
  destruct ((0 <? String.length (String c0 r0))%nat
            && (String.length (String c0 r0) <? 19)%nat) eqn:Hfast.
  - apply andb_true_iff in Hfast as [_ Hlen]. apply Nat.ltb_lt in Hlen.
    unfold atoi_fast.
    destruct (Ascii.eqb c0 "-") eqn:Hm; [|destruct (Ascii.eqb c0 "+") eqn:Hp];
      cbn [orb andb]; intros [Hne Hs]%andb_true_iff.
    + destruct r0 as [|c1 r1]; [done|]. cbn [String.length Nat.ltb Nat.leb].
      rewrite (atoi_fast_loop_value _ 0 Hs).
      pose proof (length_lt_19_value _ Hs ltac:(simpl in *; lia)) as Hv.
      change (10 ^ 18) with 1000000000000000000 in Hv.
      destruct (Z.ltb_spec 9223372036854775807 (- digits_value (String c1 r1) 0)); [lia|].
      destruct (Z.ltb_spec (- digits_value (String c1 r1) 0) (-9223372036854775808));
        [lia | done].
    + destruct r0 as [|c1 r1]; [done|]. cbn [String.length Nat.ltb Nat.leb].
      rewrite (atoi_fast_loop_value _ 0 Hs).
      pose proof (length_lt_19_value _ Hs ltac:(simpl in *; lia)) as Hv.
      change (10 ^ 18) with 1000000000000000000 in Hv.
      destruct (Z.ltb_spec 9223372036854775807 (digits_value (String c1 r1) 0)); [lia|].
      destruct (Z.ltb_spec (digits_value (String c1 r1) 0) (-9223372036854775808));
        [lia | done].
    + rewrite (atoi_fast_loop_value _ 0 Hs).
      pose proof (length_lt_19_value _ Hs Hlen) as Hv.
      change (10 ^ 18) with 1000000000000000000 in Hv.
      destruct (Z.ltb_spec 9223372036854775807 (digits_value (String c0 r0) 0)); [lia|].
      destruct (Z.ltb_spec (digits_value (String c0 r0) 0) (-9223372036854775808));
        [lia | done].
  - unfold ParseInt. rewrite Hsign.
    change (2 ^ 63) with 9223372036854775808.
    destruct (Ascii.eqb c0 "-") eqn:Hm; [|destruct (Ascii.eqb c0 "+") eqn:Hp];
      cbn [orb andb negb]; intros [Hne Hs]%andb_true_iff.
    + destruct r0 as [|c1 r1]; [done|]. unfold ParseUint.
      rewrite (parseUint_loop_value _ 0 Hs) by (unfold maxUint64; lia).
      pose proof (digits_value_ge _ 0 Hs ltac:(lia)) as Hge. unfold maxUint64.
      destruct (Z.leb_spec (digits_value (String c1 r1) 0) 18446744073709551615).
      * destruct (Z.ltb_spec 9223372036854775808 (digits_value (String c1 r1) 0)).
        -- destruct (Z.ltb_spec 9223372036854775807 (- digits_value (String c1 r1) 0)); [lia|].
           destruct (Z.ltb_spec (- digits_value (String c1 r1) 0) (-9223372036854775808));
             [done | lia].
        -- destruct (Z.ltb_spec 9223372036854775807 (- digits_value (String c1 r1) 0)); [lia|].
           destruct (Z.ltb_spec (- digits_value (String c1 r1) 0) (-9223372036854775808));
             [lia | done].
      * cbn [Z.ltb Z.compare Pos.compare Pos.compare_cont].
        destruct (Z.ltb_spec 9223372036854775807 (- digits_value (String c1 r1) 0)); [lia|].
        destruct (Z.ltb_spec (- digits_value (String c1 r1) 0) (-9223372036854775808));
          [done | lia].
    + destruct r0 as [|c1 r1]; [done|]. unfold ParseUint.
      rewrite (parseUint_loop_value _ 0 Hs) by (unfold maxUint64; lia).
      pose proof (digits_value_ge _ 0 Hs ltac:(lia)) as Hge. unfold maxUint64.
      destruct (Z.leb_spec (digits_value (String c1 r1) 0) 18446744073709551615).
      * destruct (Z.leb_spec 9223372036854775808 (digits_value (String c1 r1) 0)).
        -- destruct (Z.ltb_spec 9223372036854775807 (digits_value (String c1 r1) 0));
             [done | lia].
        -- destruct (Z.ltb_spec 9223372036854775807 (digits_value (String c1 r1) 0)); [lia|].
           destruct (Z.ltb_spec (digits_value (String c1 r1) 0) (-9223372036854775808));
             [lia | done].
      * cbn [Z.leb Z.compare Pos.compare Pos.compare_cont].
        destruct (Z.ltb_spec 9223372036854775807 (digits_value (String c1 r1) 0));
          [done | lia].
    + unfold ParseUint.
      rewrite (parseUint_loop_value _ 0 Hs) by (unfold maxUint64; lia).
      pose proof (digits_value_ge _ 0 Hs ltac:(lia)) as Hge. unfold maxUint64.
      destruct (Z.leb_spec (digits_value (String c0 r0) 0) 18446744073709551615).
      * destruct (Z.leb_spec 9223372036854775808 (digits_value (String c0 r0) 0)).
        -- destruct (Z.ltb_spec 9223372036854775807 (digits_value (String c0 r0) 0));
             [done | lia].
        -- destruct (Z.ltb_spec 9223372036854775807 (digits_value (String c0 r0) 0)); [lia|].
           destruct (Z.ltb_spec (digits_value (String c0 r0) 0) (-9223372036854775808));
             [lia | done].
      * cbn [Z.leb Z.compare Pos.compare Pos.compare_cont].
        destruct (Z.ltb_spec 9223372036854775807 (digits_value (String c0 r0) 0));
          [done | lia].
Qed.

End AtoiValue.

(** X17. strconv.Atoi returns without an error exactly on an optionally
    signed string of decimal digits whose value lies between the smallest
    and the largest int64, and what it returns then is that value. For no
    other string does it succeed: the fast path for short strings cannot
    overflow, and the slow path reports every overflow. *)
Theorem Atoi_succeeds_iff (s : string) (n : Z) :
  Strconv.Atoi s = (n, None) <->
  Strconv.decimal_syntax s = true /\
  n = Strconv.decimal_value s /\
  Strconv.minInt64 <= n <= Strconv.maxInt64.
Proof.
  unfold Strconv.minInt64, Strconv.maxInt64. split.
  - intros Ha. destruct (Strconv.decimal_syntax s) eqn:Hsyn.
    + rewrite (AtoiValue.Atoi_decimal s Hsyn) in Ha.
      unfold Strconv.minInt64, Strconv.maxInt64 in Ha.
      destruct (Z.ltb_spec 9223372036854775807 (Strconv.decimal_value s)); [done|].
      destruct (Z.ltb_spec (Strconv.decimal_value s) (-9223372036854775808)); [done|].
      injection Ha as <-. split; [done|]. split; [done | lia].
    + destruct (StrconvFacts.Atoi_not_decimal s Hsyn) as (m & e & He). congruence.
  - intros (Hsyn & -> & Hlo & Hhi). rewrite (AtoiValue.Atoi_decimal s Hsyn).
    unfold Strconv.minInt64, Strconv.maxInt64.
    destruct (Z.ltb_spec 9223372036854775807 (Strconv.decimal_value s)); [lia|].
    destruct (Z.ltb_spec (Strconv.decimal_value s) (-9223372036854775808)); [lia | done].
Qed.

(* ===================================================================== *)
(** * The gauge on valid values, and the configuration over time *)
(* ===================================================================== *)

Section MoreOnState.

Context `{RL : RateLimit}.

Implicit Types (st : State) (env : Env) (w : ResponseWriter) (r : Request).

(** X7. When the first value of the X-Ratelimit-Remaining header of the
    response is an optionally signed string of decimal digits, the gauge of
    the request's class is set to the float64 of the int Atoi returns: the
    integer the string denotes if that fits int64, the largest or smallest
    int64 if it lies above or below. The float64 is the nearest one, ties
    to even: it is the integer itself when that has no more than 53 bits,
    and 9223372036854775808 for the largest int64. *)
Theorem gauge_valid_remaining logRequests env st w r (resp : Response)
    (v : string) (rest : list string) :
  rate_limited (Monitor_Get (monitor_of st (classify (Path r))) (clock env 0%nat))
    = false ->
  transport env 0%nat (outbound st r) = inl resp ->
  RespHeader resp !! "X-Ratelimit-Remaining" = Some (v :: rest) ->
  Strconv.decimal_syntax v = true ->
  let limit := Z.max Strconv.minInt64 (Z.min Strconv.maxInt64 (Strconv.decimal_value v)) in
  gauge (final (serve logRequests env st w r)) !! classify (Path r)
    = Some (float64 limit) /\
  (- 2 ^ 53 < Strconv.decimal_value v < 2 ^ 53 ->
     float64_integer (float64 limit) = Some (Strconv.decimal_value v)) /\
  (Strconv.maxInt64 <= Strconv.decimal_value v ->
     float64_integer (float64 limit) = Some 9223372036854775808) /\
  (Strconv.decimal_value v <= Strconv.minInt64 ->
     float64_integer (float64 limit) = Some (-9223372036854775808)).
Proof.
  intros Hlim Htr Hv Hsyn limit.
  assert (Hatoi : fst (Strconv.Atoi v) = limit).
  { rewrite (AtoiValue.Atoi_decimal v Hsyn). unfold limit.
    unfold Strconv.maxInt64, Strconv.minInt64.
    destruct (Z.ltb_spec 9223372036854775807 (Strconv.decimal_value v)); cbn [fst];
      [lia|].
    destruct (Z.ltb_spec (Strconv.decimal_value v) (-9223372036854775808)); cbn [fst];
      lia. }
  split; [|split; [|split]].
  - rewrite (gauge_served logRequests env st w r resp Hlim Htr). cbn zeta.
    rewrite Header_Get_remaining, Hv.
    assert (He : String.eqb v "" = false) by by destruct v.
    rewrite He. cbn [negb]. by rewrite lookup_insert_eq, Hatoi.
  - intros Hsmall.
    replace limit with (Strconv.decimal_value v)
      by (unfold limit, Strconv.maxInt64, Strconv.minInt64; lia).
    by apply Float64Facts.float64_exact.
  - intros Hbig.
    replace limit with Strconv.maxInt64
      by (unfold limit, Strconv.maxInt64, Strconv.minInt64 in *; lia).
    apply float64_maxInt64.
  - intros Hbig.
    replace limit with Strconv.minInt64
      by (unfold limit, Strconv.maxInt64, Strconv.minInt64 in *; lia).
    apply float64_minInt64.
Qed.

Lemma conf_Watch_callback_valid (cfg : Config) st :
  conf_Watch_callback cfg st =
    if valid_config cfg
    then {| monitors := monitors st; replaced := replaced st; nextAddr := nextAddr st;
            authenticateRequest := Some (credentials_of cfg);
            gauge := gauge st; logs := logs st |}
    else st.
Proof. reflexivity. Qed.

(** X8. After any sequence of configurations the authenticator is the pair
    of the last one in the sequence that has both fields non-empty, and the
    authenticator from before when there is none; configurations with an
    empty field are skipped. The callback changes nothing else. *)
Theorem conf_last_valid_wins (cfgs : list Config) st :
  authenticateRequest (conf_history cfgs st) =
    match last (filter (fun cfg => valid_config cfg = true) cfgs) with
    | Some cfg => Some (credentials_of cfg)
    | None => authenticateRequest st
    end /\
  monitors (conf_history cfgs st) = monitors st /\
  gauge (conf_history cfgs st) = gauge st /\
  logs (conf_history cfgs st) = logs st.
Proof.
  unfold conf_history. revert st. induction cfgs as [|cfg cfgs IH]; intros st; [done|].
  cbn [fold_left]. destruct (IH (conf_Watch_callback cfg st)) as (Ha & Hm & Hg & Hl).
  rewrite Ha, Hm, Hg, Hl. rewrite conf_Watch_callback_valid.
  rewrite filter_cons. destruct (valid_config cfg) eqn:Hv.
  - rewrite decide_True by done. cbn [authenticateRequest monitors gauge logs].
    split; [|done].
    rewrite last_cons. by destruct (last _).
  - by rewrite decide_False by done.
Qed.

End MoreOnState.

Section QueryRewrite.

Context `{RL : RateLimit}.

Implicit Types (st : State) (env : Env) (w : ResponseWriter) (r : Request).

Lemma apply_authenticator_no_empty st (q : URL.Values) :
  URL.no_empty_values q -> URL.no_empty_values (apply_authenticator st q).
Proof.
  intros Hq. unfold apply_authenticator, authenticate.
  destruct (authenticateRequest st); [|done].
  by apply URLFacts.Set_no_empty, URLFacts.Set_no_empty.
Qed.

Lemma apply_authenticator_idem st (q : URL.Values) :
  apply_authenticator st (apply_authenticator st q) = apply_authenticator st q.
Proof.
  unfold apply_authenticator, authenticate, URL.Set_.
  destruct (authenticateRequest st) as [c|]; [|done].
  apply map_eq. intros k.
  destruct (decide ("client_secret" = k)) as [<-|Hs]; [by rewrite !lookup_insert_eq|].
  rewrite !(lookup_insert_ne _ "client_secret") by done.
  destruct (decide ("client_id" = k)) as [<-|Hi]; [by rewrite !lookup_insert_eq|].
  rewrite !(lookup_insert_ne _ "client_id") by done.
  rewrite !(lookup_insert_ne _ "client_secret") by done.
  by rewrite !(lookup_insert_ne _ "client_id") by done.
Qed.

(** X18. The rewriting of the query is idempotent: when the inbound query
    of a request is the query the proxy sent out for some request under the
    same authenticator, the query sent out for it is that same string. *)
Theorem query_rewrite_idempotent logRequests logRequests' env env' st w w' r r'
    (req2 req2' : OutRequest) :
  req2 ∈ upstream_calls (serve logRequests env st w r) ->
  RawQuery r' = oRawQuery req2 ->
  req2' ∈ upstream_calls (serve logRequests' env' st w' r') ->
  oRawQuery req2' = oRawQuery req2.
Proof.
  rewrite !upstream_calls_serve.
  destruct (rate_limited _); [by intros Hin%elem_of_nil|].
  intros ->%list_elem_of_singleton Hq.
  destruct (rate_limited _); [by intros Hin%elem_of_nil|].
  intros ->%list_elem_of_singleton.
  unfold outbound in *. cbn [oRawQuery build_req2] in *. rewrite Hq.
  rewrite URLFacts.Query_Encode
    by apply apply_authenticator_no_empty, URLFacts.Query_no_empty.
  by rewrite apply_authenticator_idem.
Qed.

End QueryRewrite.

Section Loop.

Context `{RL : RateLimit}.

Implicit Types (st : State) (env : Env) (w : ResponseWriter) (r : Request).




(** X20. The status a run sends, when it is served alone and its
    upstream call returns: 403 when the request is refused, 500 when the
    upstream call fails, and the status of the upstream response when
    that has three digits. On any other upstream status the run panics at
    line 151 and sends no status; a run panics in no other case. *)
Theorem response_status logRequests env st w r :
  wSent w = None ->
  let o := serve logRequests env st w r in
  let limited :=
    rate_limited (Monitor_Get (monitor_of st (classify (Path r))) (clock env 0%nat)) in
  status_of (response o) =
    (if limited then Some StatusForbidden
     else match transport env 0%nat (outbound st r) with
          | inr _ => Some StatusInternalServerError
          | inl resp =>
              if checkWriteHeaderCode (StatusCode resp) then Some (StatusCode resp)
              else None
          end) /\
  (panicked o = true <->
   limited = false /\
   exists resp, transport env 0%nat (outbound st r) = inl resp /\
                ~ 100 <= StatusCode resp <= 999).
Proof.
  intros Hw o limited. unfold o, limited. destruct (rate_limited _) eqn:Hlim.
  - rewrite (serve_rejected logRequests env st w r Hlim). cbn [response panicked].
    rewrite (http_Error_unsent _ _ _ Hw StatusForbidden_ok).
    split; [done|]. split; [done | by intros [? _]].
  - destruct (transport env 0%nat (outbound st r)) as [resp|err] eqn:Htr.
    + rewrite (serve_relayed logRequests env st w r resp Hlim Htr).
      cbn [response panicked].
      destruct (checkWriteHeaderCode (StatusCode resp)) eqn:Hcode.
      * destruct (relayed_unsent w resp Hw Hcode) as [-> ->].
        split; [done|]. split; [done|].
        intros [_ (resp' & [= <-] & Hr)].
        by apply checkWriteHeaderCode_spec in Hcode.
      * destruct (relayed_panic w resp Hw Hcode) as (-> & Hs & _).
        unfold status_of. rewrite Hs. split; [done|]. split; [|done].
        intros _. split; [done|]. exists resp. split; [done|].
        intros Hr%checkWriteHeaderCode_spec. congruence.
    + rewrite (serve_failed logRequests env st w r err Hlim Htr).
      cbn [response panicked].
      rewrite (http_Error_unsent _ _ _ Hw StatusInternalServerError_ok).
      split; [done|]. split; [done|]. by intros [_ (resp & ? & _)].
Qed.

End Loop.

(* ===================================================================== *)
(** * Invariants of the shared variables over all interleavings *)
(* ===================================================================== *)

Section PoolInvariant.

Context `{RL : RateLimit}.

(** A property of the shared variables that each kind of step keeps. *)
Variable I : State -> Prop.

Hypothesis I_store_monitor :
  forall c st, c ∈ resource_classes -> I st -> I (store_monitor c st).
Hypothesis I_update_monitor :
  forall c a h st, c ∈ resource_classes -> I st -> I (update_monitor c a h st).
Hypothesis I_gauge_Set :
  forall c n st, c ∈ resource_classes -> I st -> I (gauge_Set c n st).
Hypothesis I_log_append : forall e st, I st -> I (log_append e st).
Hypothesis I_conf : forall cfg st, I st -> I (conf_Watch_callback cfg st).

Let keeps (st st' : State) : Prop := I st -> I st'.

Lemma handler_keeps logRequests w r : steps_in keeps (handler logRequests w r).
Proof.
  pose proof (classify_resource_class (Path r)) as Hc.
  apply (handler_steps_in keeps (classify (Path r))); [| | | | |done].
  - intros st Hst. exact Hst.
  - intros st. exact (I_store_monitor _ st Hc).
  - intros a h st. exact (I_update_monitor _ a h st Hc).
  - intros n st. exact (I_gauge_Set _ n st Hc).
  - intros e st. exact (I_log_append e st).
Qed.

Lemma pool_step_keeps logRequests (P P' : Pool) :
  pool_steps_in keeps P -> step logRequests P P' ->
  pool_steps_in keeps P' /\ keeps (shared P) (shared P').
Proof.
  apply pool_step_in.
  - intros st Hst. exact Hst.
  - exact I_conf.
  - intros w r _. apply handler_keeps.
Qed.

(** What holds of the state at start and is kept by every kind of step
    holds in every state the process reaches. *)
Lemma reachable_keeps logRequests (P : Pool) :
  I init_state -> reachable logRequests P -> I (shared P).
Proof.
  intros Hinit HP.
  assert (Hboth : pool_steps_in keeps P /\ I (shared P)); [|by destruct Hboth].
  induction HP as [|P P' _ [IHp IHi] Hstep].
  - split; [by intros i p Hp | done].
  - destruct (pool_step_keeps _ _ _ IHp Hstep) as [Hp Hk]. split; [done | by apply Hk].
Qed.

End PoolInvariant.

(** The goroutines after a step: the handler of the request that arrived,
    or a goroutine from before, as it was or one step further. *)
Section Goroutines.

Context `{RL : RateLimit}.

Lemma step_goroutines logRequests (P P' : Pool) :
  step logRequests P P' ->
  length (goroutines P') = length (goroutines P) ->
  forall j p', goroutines P' !! j = Some p' ->
    exists p, goroutines P !! j = Some p /\ (p' = p \/ continues p p').
Proof.
  intros Hstep Hlen.
  assert (Hins : forall i p q,
             goroutines P !! i = Some p -> continues p q ->
             forall j p', <[i := q]> (goroutines P) !! j = Some p' ->
               exists p0, goroutines P !! j = Some p0 /\ (p' = p0 \/ continues p0 p')).
  { intros i p q Hi Hq j p' Hp'.
    pose proof (lookup_lt_Some _ _ _ Hi) as Hlt.
    destruct (decide (i = j)) as [<-|Hne].
    - rewrite list_lookup_insert_eq in Hp' by done. injection Hp' as <-.
      exists p. split; [done | by right].
    - rewrite list_lookup_insert_ne in Hp' by done. exists p'. split; [done | by left]. }
  destruct Hstep as [P w r|P cfg|P i k t Hi|P i f k Hi|P i k Hi Hfree
                    |P i k Hi Hheld|P i req2 k res Hi|P i w src k Hi];
    cbn [shared goroutines set_goroutine] in *.
  - rewrite length_app in Hlen. cbn [length] in Hlen. lia.
  - intros j p' Hp'. exists p'. split; [done | by left].
  - apply (Hins i _ _ Hi). by exists t.
  - apply (Hins i _ _ Hi). by eexists.
  - by apply (Hins i _ _ Hi).
  - by apply (Hins i _ _ Hi).
  - apply (Hins i _ _ Hi). by exists res.
  - apply (Hins i _ _ Hi). by eexists.
Qed.

Lemma calls_in_continues (Q : OutRequest -> Prop) (p p' : Prog) :
  calls_in Q p -> continues p p' -> calls_in Q p'.
Proof.
  destruct p as [w|w|k|f k|k|k|req2 k|w src k]; cbn [calls_in continues]; try done.
  - intros Hk [t ->]. apply Hk.
  - intros Hk [st ->]. apply Hk.
  - by intros Hk ->.
  - by intros Hk ->.
  - intros [_ Hk] [res ->]. apply Hk.
  - intros Hk [w' ->]. apply Hk.
Qed.

Lemma answer_calls_in (Q : OutRequest -> Prop) w (res : option ResponseWriter) :
  calls_in Q (answer w res).
Proof. by destruct res. Qed.

Lemma relay_calls_in (Q : OutRequest -> Prop) logRequests w (resp : Response) :
  calls_in Q (relay logRequests w resp).
Proof.
  unfold relay. cbn zeta. destruct (WriteHeader _ _); [|done].
  destruct (_ || _); [done|]. by destruct (ReadAll (RespBody resp)).
Qed.

(** The one request a handler hands to http.DefaultClient.Do is built for
    the inbound request it serves. *)
Lemma handler_calls_in logRequests w r :
  calls_in (built_for r) (handler logRequests w r).
Proof.
  assert (Hfind : forall c q2, calls_in (built_for r) (find_monitor logRequests w r c q2)).
  { intros c q2 st. unfold check_limit.
    destruct (fst <$> monitors st !! c) as [rateLimit|]; [|done].
    intros st' t. cbn beta zeta.
    destruct (Monitor_Get _ t) as [[remaining reset] known].
    destruct (_ && _); [intros now; apply answer_calls_in|].
    unfold forward. intros st''. split; [done|]. intros [resp|err].
    - unfold after_call, bookkeep_and_relay. cbn [calls_in]. intros st3.
      destruct (negb _); [|apply relay_calls_in].
      destruct (Strconv.Atoi _). intros st4. apply relay_calls_in.
    - intros st3. apply answer_calls_in. }
  unfold handler. intros st.
  destruct (monitors st !! classify (Path r)); [apply Hfind|].
  intros st'. apply Hfind.
Qed.

Lemma serving_calls_in logRequests rs (P : Pool) :
  serving logRequests rs P ->
  forall i p, goroutines P !! i = Some p ->
    exists r, rs !! i = Some r /\ calls_in (built_for r) p.
Proof.
  induction 1 as [|rs P w r HP IH|rs P P' _ IH Hstep Hlen]; [done| |].
  - intros i p Hp. cbn [goroutines] in Hp.
    apply lookup_app_Some in Hp as [Hp|[Hlen Hp]].
    + destruct (IH i p Hp) as (r' & Hr' & Hcalls).
      exists r'. split; [by apply lookup_app_l_Some | done].
    + destruct (i - length (goroutines P))%nat eqn:Hi; [|done].
      injection Hp as <-. exists r. split; [|apply handler_calls_in].
      assert (i = length rs) as -> by (rewrite <- (serving_length _ _ _ HP); lia).
      by rewrite lookup_app_r, Nat.sub_diag.
  - intros j p' Hp'.
    destruct (step_goroutines _ _ _ Hstep Hlen j p' Hp') as (p & Hp & [->|Hnext]);
      destruct (IH j p Hp) as (r & Hr & Hcalls); exists r; (split; [done|]);
      [done | by eapply calls_in_continues].
Qed.

End Goroutines.

Section PoolFacts.

Context `{RL : RateLimit}.

(** X1. In every state the process reaches, in any interleaving of the
    runs, the request a goroutine is handing to http.DefaultClient.Do was
    built for the inbound request that goroutine serves: its scheme is
    https, its host is api.github.com, and it has the method, the path and
    the body of that inbound request. *)
Theorem outbound_projection logRequests rs (P : Pool) (i : nat)
    (req2 : OutRequest) (k : Response + string -> Prog) :
  serving logRequests rs P ->
  goroutines P !! i = Some (Do req2 k) ->
  exists r, rs !! i = Some r /\ built_for r req2.
Proof.
  intros HP Hi. destruct (serving_calls_in _ _ _ HP i _ Hi) as (r & Hr & Hq & _).
  by exists r.
Qed.

(** X9. The gauge never has a label outside core, search and graphql:
    whatever requests, responses and configurations the process has seen,
    in any interleaving, every label with a value is one of the three
    resource classes. *)
Theorem gauge_labels_bounded logRequests (P : Pool) :
  reachable logRequests P ->
  forall c, is_Some (gauge (shared P) !! c) -> c ∈ resource_classes.
Proof.
  apply (reachable_keeps
           (fun st => forall c, is_Some (gauge st !! c) -> c ∈ resource_classes)).
  - intros c st _ Hst c'. exact (Hst c').
  - intros c a h st _ Hst c'. rewrite gauge_update_monitor. apply Hst.
  - intros c n st Hc Hst c'. cbn [gauge_Set gauge].
    destruct (decide (c = c')) as [<-|Hne]; [done|].
    rewrite lookup_insert_ne by done. apply Hst.
  - intros e st Hst. exact Hst.
  - intros cfg st Hst. rewrite conf_Watch_callback_valid.
    by destruct (valid_config cfg).
  - intros c. cbn [init_state gauge]. unfold resource_classes.
    destruct (decide (c = "search")) as [->|H1]; [set_solver|].
    destruct (decide (c = "core")) as [->|H2]; [set_solver|].
    rewrite !lookup_insert_ne, lookup_empty by done. by intros [? ?].
Qed.

(** X10. The authenticator, once there is one, always holds a non-empty
    client id and a non-empty client secret: no state the process reaches
    would inject an empty credential. *)
Theorem authenticator_never_empty logRequests (P : Pool) :
  reachable logRequests P ->
  forall c, authenticateRequest (shared P) = Some c ->
            clientID c <> "" /\ clientSecret c <> "".
Proof.
  apply (reachable_keeps
           (fun st => forall c, authenticateRequest st = Some c ->
                                clientID c <> "" /\ clientSecret c <> "")).
  - intros c st _ Hst c'. exact (Hst c').
  - intros c a h st _ Hst c'. rewrite authenticateRequest_update_monitor. apply Hst.
  - intros c n st _ Hst. exact Hst.
  - intros e st Hst. exact Hst.
  - intros cfg st Hst c. rewrite conf_Watch_callback_valid.
    destruct (valid_config cfg) eqn:Hv; [|apply Hst].
    cbn [authenticateRequest]. intros [= <-]. unfold valid_config in Hv.
    apply andb_true_iff in Hv as [H1 H2].
    apply negb_true_iff in H1, H2. cbn [credentials_of clientID clientSecret].
    split; by apply String.eqb_neq.
  - by intros c.
Qed.

(** X11. The table of monitors never has more than three entries, in any
    state the process reaches. *)
Theorem monitors_at_most_three logRequests (P : Pool) :
  reachable logRequests P -> (size (monitors (shared P)) <= 3)%nat.
Proof.
  intros HP. destruct (reachable_monitors _ _ HP) as (_ & Hkeys & _).
  rewrite <- size_dom.
  assert (Hsub : dom (monitors (shared P)) ⊆ list_to_set resource_classes).
  { intros c [[a m] Hc]%elem_of_dom. apply elem_of_list_to_set.
    by destruct (Hkeys _ _ _ Hc). }
  apply subseteq_size in Hsub. etrans; [exact Hsub|].
  assert (Hthree : size (list_to_set resource_classes : gset string) = 3%nat)
    by (vm_compute; reflexivity).
  by rewrite Hthree.
Qed.

(** X12. The gate is never kept: in every reachable state in which a
    goroutine holds [requestMu], that goroutine is in the upstream call or
    back from it, and when the call returns, with a response or with an
    error, its next step unlocks. The error path does not leave the gate
    locked. *)
Theorem gate_released logRequests (P : Pool) (i : nat) :
  reachable logRequests P ->
  mutex P = Some i ->
  (exists k, goroutines P !! i = Some (Unlock k) /\
     step logRequests P
       {| shared := shared P; mutex := None; goroutines := <[i := k]> (goroutines P) |}) \/
  (exists req2 k, goroutines P !! i = Some (Do req2 k) /\
     forall res : Response + string, exists k' P1,
       step logRequests P P1 /\
       mutex P1 = Some i /\
       goroutines P1 !! i = Some (Unlock k') /\
       step logRequests P1
         {| shared := shared P1; mutex := None;
            goroutines := <[i := k']> (goroutines P1) |}).
Proof.
  intros HP Hm. destruct (gate_inv_reachable _ _ HP) as [Hholder Hinv].
  destruct (Hholder i Hm) as [p Hp]. specialize (Hinv i p Hp).
  rewrite decide_True in Hinv by done.
  pose proof (lookup_lt_Some _ _ _ Hp) as Hlt.
  destruct p as [w|w|k|f k|k|k|req2 k|w src k]; try done.
  - left. exists k. split; [done|]. apply step_unlock; [done | by rewrite Hm].
  - right. exists req2, k. split; [done|]. intros res.
    cbn [inside] in Hinv. specialize (Hinv res).
    destruct (k res) as [| | | | |k'| |] eqn:Hk; try done.
    exists k', (set_goroutine i (k res) P).
    assert (Hi' : goroutines (set_goroutine i (k res) P) !! i = Some (Unlock k')).
    { cbn [set_goroutine goroutines]. rewrite list_lookup_insert_eq by done.
      by rewrite Hk. }
    split; [exact (step_do logRequests P i req2 k res Hp)|].
    split; [done|]. split; [exact Hi'|].
    apply step_unlock; [exact Hi'|]. cbn [set_goroutine mutex]. by rewrite Hm.
Qed.

End PoolFacts.

(* ===================================================================== *)
(** * The theorems at concrete inputs *)
(* ===================================================================== *)

(** With class core out of quota until 60 s and the clock at 0 then 1 µs,
    GET /user is refused without an upstream call. *)
Lemma admission_rejected_witness :
  let o := serve false (example_env (inl ok_response)) exhausted_core
             newResponseWriter (get_request "/user" "") in
  upstream_calls o = [] /\
  status_of (response o) = Some 403 /\
  sent_header (response o) "Content-Type" = Some ["text/plain; charset=utf-8"] /\
  wBody (response o) =
    "rate limit for " +:+ dquote +:+ "core" +:+ dquote
      +:+ " exceeded, reset at 60000001000" +:+ newline.
Proof.
  apply (admission_rejected false (example_env (inl ok_response)) exhausted_core
           newResponseWriter (get_request "/user" "") 0 60000000000).
  - reflexivity.
  - lia.
  - lia.
  - reflexivity.
Defined.

(** A failed upstream call on a fresh process: status 500, the error text,
    one call, gauge as seeded. *)
Lemma transport_failure_witness :
  let o := serve true (example_env (inr "dial tcp: i/o timeout")) init_state
             newResponseWriter (get_request "/user" "") in
  status_of (response o) = Some 500 /\
  wBody (response o) = "dial tcp: i/o timeout" +:+ newline /\
  length (upstream_calls o) = 1%nat /\
  gauge (final o) = gauge init_state.
Proof.
  pose proof (transport_failure true (example_env (inr "dial tcp: i/o timeout"))
                init_state newResponseWriter (get_request "/user" "")
                "dial tcp: i/o timeout" eq_refl eq_refl eq_refl) as (Hs & Hb & Hc & _ & _ & Hg).
  split; [exact Hs|]. split; [exact Hb|]. split; [by rewrite Hc | exact Hg].
Defined.

(** Status 200, header X-Test: 1 and body {"ok":true} come through as they
    are. *)
Lemma relay_fidelity_witness :
  let o := serve false (example_env (inl ok_response)) init_state
             newResponseWriter (get_request "/user" "") in
  panicked o = false /\
  status_of (response o) = Some 200 /\
  sent_header (response o) "X-Test" = Some ["1"] /\
  headers_sent (response o) = Some {["X-Test" := ["1"]]} /\
  wBody (response o) = "{" +:+ dquote +:+ "ok" +:+ dquote +:+ ":true}".
Proof.
  pose proof (relay_fidelity false (example_env (inl ok_response)) init_state
                newResponseWriter (get_request "/user" "") ok_response
                eq_refl eq_refl eq_refl) as [Hrelay _].
  destruct Hrelay as (Hp & Hs & Hh & Hall & Hb); [simpl; lia|].
  split; [exact Hp|]. split; [exact Hs|]. split; [by apply Hh|].
  split; [by apply Hall | exact Hb].
Defined.

(** C3, as stated, fails: an upstream response with status 99 is received
    (the one upstream call has returned it), and the run panics at line
    151; the caller is sent no status, no header and no body. *)
Lemma invalid_status_not_relayed :
  let o := serve false (example_env (inl odd_status_response)) init_state
             newResponseWriter (get_request "/user" "") in
  length (upstream_calls o) = 1%nat /\
  panicked o = true /\
  delivered (response o) = (None, "") /\
  status_of (response o) <> Some (StatusCode odd_status_response).
Proof.
  split; [reflexivity|]. split; [reflexivity|].
  split; [vm_compute; reflexivity | vm_compute; discriminate].
Qed.

(** Status 500 with body boom reaches the caller as it is, with logging
    on and with logging off. *)
Lemma logging_transparent_witness :
  let env := example_env (inl boom_response) in
  let r := get_request "/user" "" in
  (status_of (response (serve true env init_state newResponseWriter r)) = Some 500 /\
   wBody (response (serve true env init_state newResponseWriter r)) = "boom") /\
  (status_of (response (serve false env init_state newResponseWriter r)) = Some 500 /\
   wBody (response (serve false env init_state newResponseWriter r)) = "boom") /\
  response (serve true env init_state newResponseWriter r)
    = response (serve false env init_state newResponseWriter r).
Proof.
  intros env r.
  destruct (logging_transparent env init_state newResponseWriter r)
    as (Hsame & _ & _ & _ & Hrelay).
  assert (Hcode : 100 <= StatusCode boom_response <= 999) by (simpl; lia).
  destruct (Hrelay boom_response eq_refl eq_refl eq_refl Hcode true) as (Hs1 & _ & Hb1).
  destruct (Hrelay boom_response eq_refl eq_refl eq_refl Hcode false) as (Hs0 & _ & Hb0).
  split; [split; [exact Hs1 | exact Hb1]|]. split; [split; [exact Hs0 | exact Hb0]|].
  exact Hsame.
Defined.

(** With logging on the run above does log the body. *)
Lemma logging_logs_boom :
  logs (final (serve true (example_env (inl boom_response)) init_state
                 newResponseWriter (get_request "/user" "")))
    = [LogWarn 500 "boom" None].
Proof. reflexivity. Qed.

(** C5, as stated, fails: with no authenticator the query b=1&a=2 goes out
    as a=2&b=1. *)
Lemma unconfigured_query_not_identical :
  let r := get_request "/user" "b=1&a=2" in
  let o := serve false (example_env (inl ok_response)) init_state newResponseWriter r in
  authenticateRequest init_state = None /\
  oRawQuery <$> upstream_calls o = ["a=2&b=1"] /\
  oRawQuery <$> upstream_calls o <> [RawQuery r].
Proof.
  split; [reflexivity|]. split; [vm_compute; reflexivity | vm_compute; discriminate].
Qed.

(** Credentials abc and def published, inbound query with a stale
    client_id: the outbound query carries the published pair. *)
Lemma credential_injection_witness :
  let cfg := {| GithubClientID := "abc"; GithubClientSecret := "def" |} in
  let st := conf_Watch_callback cfg init_state in
  let r := get_request "/user" "page=2&client_id=old" in
  let o := serve false (example_env (inl ok_response)) st newResponseWriter r in
  let req2 := outbound st r in
  req2 ∈ upstream_calls o /\
  oRawQuery req2 = "client_id=abc&client_secret=def&page=2" /\
  URL.Query (oRawQuery req2) =
    <["client_secret" := ["def"]]> (<["client_id" := ["abc"]]> (URL.Query "page=2&client_id=old")).
Proof.
  intros cfg st r o req2.
  assert (Hin : req2 ∈ upstream_calls o) by apply list_elem_of_here.
  split; [exact Hin|]. split; [reflexivity|].
  exact (proj2 (proj2 (credential_injection false (example_env (inl ok_response)) st
                         newResponseWriter r cfg req2 Hin))).
Defined.

(** C6, as stated, fails: a response with the unprefixed header
    Ratelimit-Remaining: 42 makes Get of core report 42 and leaves the
    gauge of core at its seed. *)
Lemma gauge_ignores_unprefixed_header :
  let resp := quota_response "Ratelimit-Remaining" "42" in
  let o := serve false (example_env (inl resp)) init_state
             newResponseWriter (get_request "/user" "") in
  Header.Get (RespHeader resp) "RateLimit-Remaining" = "42" /\
  fst (fst (Monitor_Get (monitor_of (final o) "core") 0)) = 42 /\
  gauge (final o) !! "core" = Some (float64 5000) /\
  gauge (final o) !! "core" <> Some (float64 42).
Proof.
  split; [reflexivity|]. split; [reflexivity|]. split; [reflexivity|].
  vm_compute. discriminate.
Qed.

(** X-Ratelimit-Remaining: 42 for class core: Get and the gauge at 42. *)
Lemma quota_bookkeeping_witness :
  let resp := quota_response "X-Ratelimit-Remaining" "42" in
  let o := serve false (example_env (inl resp)) init_state
             newResponseWriter (get_request "/user" "") in
  fst (fst (Monitor_Get (monitor_of (final o) "core") 0)) = 42 /\
  gauge (final o) !! "core" = Some (float64 42) /\
  float64_integer (float64 42) = Some 42.
Proof.
  intros resp o.
  destruct (quota_bookkeeping false (example_env (inl resp)) init_state
              newResponseWriter (get_request "/user" "") resp
              eq_refl eq_refl eq_refl) as [Hset _].
  destruct (Hset "42" [] eq_refl) as [Hm Hg]; [discriminate|].
  split; [exact (Hm 0)|]. split; [exact Hg | reflexivity].
Defined.

(** C10, as stated, fails: twenty nines and an x are not an integer, and
    the gauge is set to the float64 of the largest int64, which is
    9223372036854775808, not to 0. *)
Lemma gauge_invalid_remaining_saturates :
  let v := "99999999999999999999x" in
  let o := serve false (example_env (inl (quota_response "X-Ratelimit-Remaining" v)))
             init_state newResponseWriter (get_request "/user" "") in
  v <> "" /\
  Strconv.decimal_syntax v = false /\
  Strconv.Atoi v = (9223372036854775807, Some Strconv.ErrRange) /\
  float64_integer <$> gauge (final o) !! "core" = Some (Some 9223372036854775808) /\
  gauge (final o) !! "core" <> Some (float64 0).
Proof.
  split; [discriminate|]. split; [vm_compute; reflexivity|].
  split; [vm_compute; reflexivity|].
  split; [vm_compute; reflexivity|]. vm_compute. discriminate.
Qed.

(** The value 4x: a syntax error, and the gauge at 0. *)
Lemma gauge_invalid_remaining_witness :
  let o := serve false (example_env (inl (quota_response "X-Ratelimit-Remaining" "4x")))
             init_state newResponseWriter (get_request "/user" "") in
  gauge (final o) !! "core" = Some (S754_zero false).
Proof.
  intros o.
  destruct (gauge_invalid_remaining false
              (example_env (inl (quota_response "X-Ratelimit-Remaining" "4x")))
              init_state newResponseWriter (get_request "/user" "")
              (quota_response "X-Ratelimit-Remaining" "4x") "4x")
    as (n & e & Ha & Hg & _ & _ & Hshort).
  - reflexivity.
  - reflexivity.
  - reflexivity.
  - discriminate.
  - reflexivity.
  - rewrite (Hshort ltac:(simpl; lia)) in Hg. exact Hg.
Defined.

Lemma pool_after_race_serving :
  serving false [get_request "/user" ""; get_request "/user" ""] pool_after_race.
Proof.
  exact (first_use_race false [] init_pool newResponseWriter newResponseWriter
           (get_request "/user" "") (get_request "/user" "")
           (serving_init false) eq_refl eq_refl).
Defined.

(** C7, as stated, fails: when the process starts class core has no
    monitor, and the first request for it creates one. And the first
    requests of a class do race: after two requests GET /user have both
    passed line 91 before either stored, the process has created two
    monitors for core, the one at address 1 in the map and the one at
    address 0 replaced. *)
Lemma monitors_not_prepopulated :
  let o := serve false (example_env (inl ok_response)) init_state
             newResponseWriter (get_request "/user" "") in
  monitors init_state !! "core" = None /\
  fst <$> monitors (final o) !! "core" = Some O /\
  reachable false pool_after_race /\
  fst <$> monitors (shared pool_after_race) !! "core" = Some 1%nat /\
  is_Some (replaced (shared pool_after_race) !! O).
Proof.
  split; [reflexivity|]. split; [reflexivity|].
  split; [exact (serving_reachable _ _ _ pool_after_race_serving)|].
  destruct (store_monitor_twice "core" init_state) as [Hm Hr].
  split; [exact (f_equal (fmap fst) Hm) | exact (ex_intro _ _ Hr)].
Qed.

Lemma pool_in_call_serving : serving false [get_request "/user" ""] pool_in_call.
Proof.
  exact (reach_call false [] init_pool newResponseWriter (get_request "/user" "") 0
           (serving_init false) eq_refl eq_refl).
Defined.

Lemma pool_in_call_reachable : reachable false pool_in_call.
Proof. exact (serving_reachable _ _ _ pool_in_call_serving). Defined.

(** One goroutine in the upstream call: it holds the gate and will unlock
    as soon as the call returns, whatever the result. *)
Lemma serialization_gate_witness :
  reachable false pool_in_call /\
  mutex pool_in_call = Some O /\
  (forall res, exists k',
      after_call false newResponseWriter "core" O res = Unlock k') /\
  (forall i j req1 k1 req2 k2,
      goroutines pool_in_call !! i = Some (Do req1 k1) ->
      goroutines pool_in_call !! j = Some (Do req2 k2) -> i = j).
Proof.
  pose proof (serialization_gate false pool_in_call pool_in_call_reachable)
    as (Hone & Hcall & _ & _).
  destruct (Hcall O _ _ eq_refl) as [Hm Hk].
  split; [exact pool_in_call_reachable|]. split; [exact Hm|]. split; [exact Hk | exact Hone].
Defined.

(** Before any request class core has no monitor. With GET /user in the
    upstream call it has one, created for that request; the table is well
    formed, and the return of the call leaves the monitor where it is. *)
Lemma monitors_created_on_first_use_witness :
  monitors (shared init_pool) !! "core" = None /\
  (exists r, r ∈ [get_request "/user" ""] /\ classify (Path r) = "core") /\
  monitors_wf (shared pool_in_call) /\
  (forall res,
      is_Some (monitors (shared (set_goroutine O
                                   (after_call false newResponseWriter "core" O res)
                                   pool_in_call)) !! "core")).
Proof.
  destruct (monitors_created_on_first_use false) as (_ & Hfirst & _ & Hwf & Hkeep).
  assert (Hcore : is_Some (monitors (shared pool_in_call) !! "core")) by by eexists.
  split; [reflexivity|].
  split; [exact (Hfirst _ pool_in_call "core" pool_in_call_serving Hcore)|].
  split; [exact (Hwf _ pool_in_call_reachable)|].
  intros res.
  exact (Hkeep pool_in_call _ pool_in_call_reachable
           (step_do false pool_in_call O _ _ res eq_refl) "core" Hcore).
Defined.

(* ===================================================================== *)
(** * The further properties at concrete inputs *)
(* ===================================================================== *)

(** The request in flight in [pool_in_call] was built for GET /user. *)
Lemma outbound_projection_witness :
  built_for (get_request "/user" "") (outbound init_state (get_request "/user" "")).
Proof.
  destruct (outbound_projection false [get_request "/user" ""] pool_in_call O
              (outbound init_state (get_request "/user" ""))
              (after_call false newResponseWriter "core" O)
              pool_in_call_serving eq_refl) as (r & Hr & Hbuilt).
  injection Hr as <-. exact Hbuilt.
Defined.

(** The cookie of the inbound request is not passed on, and the missing
    User-Agent goes out as an empty one. *)
Lemma outbound_header_allow_list_witness :
  let o := serve false (example_env (inl ok_response)) init_state
             newResponseWriter cookie_request in
  let req2 := outbound init_state cookie_request in
  req2 ∈ upstream_calls o /\
  oHeader req2 !! "Accept" = Some ["application/json"] /\
  oHeader req2 !! "User-Agent" = Some [""] /\
  oHeader req2 !! "Authorization" = None /\
  oHeader req2 !! "Cookie" = None.
Proof.
  intros o req2.
  assert (Hin : req2 ∈ upstream_calls o) by apply list_elem_of_here.
  destruct (outbound_header_allow_list false (example_env (inl ok_response)) init_state
              newResponseWriter cookie_request req2 Hin) as (Hua & Hacc & _ & Hauth & Honly).
  split; [exact Hin|]. split; [exact Hacc|]. split; [exact Hua|]. split; [exact Hauth|].
  destruct (oHeader req2 !! "Cookie") as [v|] eqn:Hc; [|reflexivity].
  assert (Hk : "Cookie" ∈ ["User-Agent"; "Accept"; "Content-Type"; "Authorization"]).
  { apply Honly. rewrite Hc. by eexists. }
  exfalso. repeat (apply elem_of_cons in Hk as [Hk|Hk]; [discriminate Hk|]).
  by apply elem_of_nil in Hk.
Defined.

Lemma rejection_leaves_state_witness :
  let o := serve true (example_env (inl ok_response)) exhausted_core
             newResponseWriter (get_request "/user" "a=1") in
  final o = exhausted_core /\ gauge (final o) = gauge exhausted_core.
Proof.
  intros o.
  destruct (rejection_leaves_state true (example_env (inl ok_response)) exhausted_core
              newResponseWriter (get_request "/user" "a=1") eq_refl) as (Hf & Hg & _).
  split; [exact Hf | exact Hg].
Defined.

(** A response to a core request with X-Ratelimit-Remaining: 42 leaves
    the gauge of search at its seed. *)
Lemma class_isolation_witness :
  let o := serve false (example_env (inl (quota_response "X-Ratelimit-Remaining" "42")))
             init_state newResponseWriter (get_request "/user" "") in
  gauge (final o) !! "search" = Some (float64 30) /\
  monitors (final o) !! "search" = None.
Proof.
  intros o.
  destruct (class_isolation false
              (example_env (inl (quota_response "X-Ratelimit-Remaining" "42")))
              init_state newResponseWriter (get_request "/user" "") "search")
    as (Hm & _ & Hg & _).
  - discriminate.
  - split; [exact Hg | exact Hm].
Defined.

Lemma gauge_valid_remaining_witness :
  let o := serve false (example_env (inl (quota_response "X-Ratelimit-Remaining" "4999")))
             init_state newResponseWriter (get_request "/user" "") in
  gauge (final o) !! "core" = Some (float64 4999) /\
  float64_integer (float64 4999) = Some 4999.
Proof.
  intros o.
  pose proof (gauge_valid_remaining false
                (example_env (inl (quota_response "X-Ratelimit-Remaining" "4999")))
                init_state newResponseWriter (get_request "/user" "")
                (quota_response "X-Ratelimit-Remaining" "4999") "4999" []
                eq_refl eq_refl eq_refl eq_refl) as (Hg & Hexact & _).
  split; [exact Hg|]. apply Hexact.
  change (Strconv.decimal_value "4999") with 4999. lia.
Defined.

Lemma configured_pool_reachable : reachable false configured_pool.
Proof.
  exact (reachable_step false _ _ (reachable_init false)
           (step_conf false init_pool
              {| GithubClientID := "abc"; GithubClientSecret := "def" |})).
Defined.

Lemma gauge_labels_bounded_witness : "core" ∈ resource_classes.
Proof.
  apply (gauge_labels_bounded false pool_in_call pool_in_call_reachable "core").
  by eexists.
Defined.

Lemma authenticator_never_empty_witness :
  authenticateRequest (shared configured_pool)
    = Some {| clientID := "abc"; clientSecret := "def" |} /\
  "abc" <> "" /\ "def" <> "".
Proof.
  split; [reflexivity|].
  exact (authenticator_never_empty false configured_pool configured_pool_reachable
           {| clientID := "abc"; clientSecret := "def" |} eq_refl).
Defined.

Lemma monitors_at_most_three_witness : (size (monitors (shared pool_in_call)) <= 3)%nat.
Proof. exact (monitors_at_most_three false pool_in_call pool_in_call_reachable). Defined.

(** The goroutine in the call gets to unlock when the call fails. *)
Lemma gate_released_witness :
  exists k' P1,
    step false pool_in_call P1 /\
    mutex P1 = Some O /\
    goroutines P1 !! O = Some (Unlock k') /\
    step false P1
      {| shared := shared P1; mutex := None; goroutines := <[O := k']> (goroutines P1) |}.
Proof.
  destruct (gate_released false pool_in_call O pool_in_call_reachable eq_refl)
    as [(k & Hk & _)|(req2 & k & Hk & Hres)].
  - discriminate Hk.
  - exact (Hres (inr "dial tcp: i/o timeout")).
Defined.

Lemma sort_strings_sorted_witness :
  URL.sort_strings ["b"; "a"; "c"] = URL.sort_strings ["c"; "b"; "a"].
Proof.
  apply (URLExtra.sort_strings_sorted ["b"; "a"; "c"] ["c"; "b"; "a"]).
  change ["b"; "a"; "c"] with (["b"; "a"] ++ ["c"]).
  change ["c"; "b"; "a"] with (["c"] ++ ["b"; "a"]).
  apply Permutation_app_comm.
Defined.

Lemma Query_Encode_roundtrip_witness :
  URL.Query (URL.Encode (<["q" := ["a b"; "c&d"]]> ∅)) = <["q" := ["a b"; "c&d"]]> ∅.
Proof.
  apply (URLExtra.Query_Encode_roundtrip (<["q" := ["a b"; "c&d"]]> ∅) "").
  intros k l. destruct (decide ("q" = k)) as [<-|Hne].
  - rewrite lookup_insert_eq. by intros [= <-].
  - rewrite lookup_insert_ne by done. by rewrite lookup_empty.
Defined.

Lemma header_get_case_insensitive_witness :
  Header.Get (Header.Set_ ∅ "x-rateLimit-remaining" "7") "X-RATELIMIT-REMAINING" = "7".
Proof.
  exact (HeaderExtra.header_get_case_insensitive ∅ "x-rateLimit-remaining"
           "X-RATELIMIT-REMAINING" "7" eq_refl eq_refl).
Defined.

Lemma Atoi_succeeds_iff_witness :
  Strconv.Atoi "-9223372036854775808" = (-9223372036854775808, None).
Proof.
  apply (Atoi_succeeds_iff "-9223372036854775808" (-9223372036854775808)).
  split; [reflexivity|]. split; [reflexivity|].
  unfold Strconv.minInt64, Strconv.maxInt64. lia.
Defined.

(** The query b=1&a=2 goes out as a=2&b=1, and a=2&b=1 goes out as it
    is. *)
Lemma query_rewrite_idempotent_witness :
  let env := example_env (inl ok_response) in
  let r := get_request "/user" "b=1&a=2" in
  let req2 := outbound init_state r in
  let r' := get_request "/user" (oRawQuery req2) in
  let req2' := outbound init_state r' in
  oRawQuery req2 = "a=2&b=1" /\ oRawQuery req2' = "a=2&b=1".
Proof.
  intros env r req2 r' req2'.
  assert (Hq : oRawQuery req2 = "a=2&b=1") by reflexivity.
  split; [exact Hq|]. rewrite <- Hq.
  apply (query_rewrite_idempotent false false env env init_state
           newResponseWriter newResponseWriter r r' req2 req2').
  - apply list_elem_of_here.
  - reflexivity.
  - apply list_elem_of_here.
Defined.


(** Status 500 is passed on; on status 99 the run panics and sends no
    status. *)
Lemma response_status_witness :
  status_of (response (serve true (example_env (inl boom_response)) init_state
                         newResponseWriter (get_request "/user" ""))) = Some 500 /\
  status_of (response (serve true (example_env (inl odd_status_response)) init_state
                         newResponseWriter (get_request "/user" ""))) = None.
Proof.
  split.
  - exact (proj1 (response_status true (example_env (inl boom_response)) init_state
                    newResponseWriter (get_request "/user" "") eq_refl)).
  - exact (proj1 (response_status true (example_env (inl odd_status_response)) init_state
                    newResponseWriter (get_request "/user" "") eq_refl)).
Defined.

(* ===================================================================== *)
(** * UserEmail.tsx: what an operation leaves behind *)
(* ===================================================================== *)

Module UserEmailFacts.
Import UserEmail.

Section Facts.

Context {ErrorLike Thrown : Type} (asError : Thrown -> ErrorLike).

Implicit Types (p : Props) (o : @Outside ErrorLike Thrown) (op : Operation)
  (w : @World ErrorLike).

Ltac run_operation :=
  unfold start, removeEmail, updateEmailVerification, resendEmailVerification,
    handleError, when_given, bind, try_catch, perform, setStatusOrError, ret, outcome;
  cbn [statusOrError effects mutation_of event_of callback_of fst snd].

Ltac finish_run :=
  cbn [statusOrError effects fst snd];
  rewrite <- ?(assoc_L (++)); rewrite ?(right_id_L [] (++)); done.

(** X21. When the request succeeds and neither the event logger nor the
    callback throws, the operation ends with the status undefined, after
    exactly these effects in this order: the mutation with the user and
    the email of the props, the event of the operation, and the callback
    of the operation if the props give one. *)
Theorem operation_succeeds p o op w :
  requestGraphQL o (mutation_of p op) = None ->
  eventLogger_log o (event_of op) = None ->
  (forall e, e ∈ callback_of p op -> callback o e = None) ->
  start asError p o op w =
    (inl tt,
     {| statusOrError := Undefined;
        effects := effects w ++ [Requested (mutation_of p op); Logged (event_of op)]
                     ++ callback_of p op |}).
Proof.
  intros Hreq Hlog Hcb.
  destruct op as [|v|]; cbn [mutation_of event_of callback_of] in *.
  - run_operation. rewrite Hreq, Hlog.
    destruct (onDidRemove p); [rewrite (Hcb _ ltac:(by left))|]; finish_run.
  - assert (Hlog' : eventLogger_log o
              (if v then "UserEmailAddressMarkedVerified"
               else "UserEmailAddressMarkedUnverified") = None) by by destruct v.
    run_operation. rewrite Hreq, Hlog'.
    destruct (onEmailVerify p); [rewrite (Hcb _ ltac:(by left))|];
      destruct v; finish_run.
  - run_operation. rewrite Hreq, Hlog.
    destruct (onEmailResendVerification p); [rewrite (Hcb _ ltac:(by left))|]; finish_run.
Qed.

Lemma start_request_fails p o op w (t : Thrown) :
  requestGraphQL o (mutation_of p op) = Some t ->
  (onError p = true -> callback o (OnError (asError t)) = None) ->
  start asError p o op w =
    (inl tt,
     if onError p
     then {| statusOrError := Undefined;
             effects := effects w ++ [Requested (mutation_of p op); OnError (asError t)] |}
     else {| statusOrError := IsError (asError t);
             effects := effects w ++ [Requested (mutation_of p op)] |}).
Proof.
  intros Hreq Hcb.
  destruct op as [|v|]; cbn [mutation_of] in *; run_operation; rewrite Hreq;
    (destruct (onError p); [rewrite (Hcb eq_refl)|]; finish_run).
Qed.

(** X22. When the request throws, no event is logged and the callback of
    the operation is not called. Without an onError callback the status
    becomes the error ([asError] of what was thrown), which is rendered as
    the alert with the buttons enabled; with an onError callback that
    returns, the callback gets the error and the status becomes
    undefined. *)
Theorem operation_fails p o op w (t : Thrown) :
  requestGraphQL o (mutation_of p op) = Some t ->
  (onError p = true -> callback o (OnError (asError t)) = None) ->
  start asError p o op w =
    (inl tt,
     if onError p
     then {| statusOrError := Undefined;
             effects := effects w ++ [Requested (mutation_of p op); OnError (asError t)] |}
     else {| statusOrError := IsError (asError t);
             effects := effects w ++ [Requested (mutation_of p op)] |}) /\
  (onError p = false ->
   let v := render p (statusOrError (snd (start asError p o op w))) in
   errorAlert v = Some (asError t) /\ disabled v = false).
Proof.
  intros Hreq Hcb.
  pose proof (start_request_fails p o op w t Hreq Hcb) as Hrun.
  split; [exact Hrun|]. intros Hno. rewrite Hrun, Hno. by cbn.
Qed.

(** X23. An operation leaves the status at 'loading', and with it every
    button disabled, exactly when the request throws and the onError
    callback of the props throws in turn; in every other case the buttons
    are enabled when the operation ends. *)
Theorem left_loading_iff p o op w :
  let w' := snd (start asError p o op w) in
  (statusOrError w' = Loading <->
   exists t t', requestGraphQL o (mutation_of p op) = Some t /\
                onError p = true /\
                callback o (OnError (asError t)) = Some t') /\
  (disabled (render p (statusOrError w')) = true <-> statusOrError w' = Loading).
Proof.
  intros w'. split.
  - unfold w'. clear w'.
    destruct (requestGraphQL o (mutation_of p op)) as [t|] eqn:Hreq.
    + destruct (onError p) eqn:Hon.
      * destruct (callback o (OnError (asError t))) as [t'|] eqn:Hcb.
        -- split; [intros _; by exists t, t'|]. intros _.
           destruct op as [|v|]; cbn [mutation_of] in *; run_operation;
             by rewrite Hreq, Hon, Hcb.
        -- rewrite (start_request_fails p o op w t Hreq (fun _ => Hcb)), Hon.
           cbn [snd statusOrError]. split; [done|].
           intros (t0 & t1 & [= <-] & _ & Hc). congruence.
      * rewrite (start_request_fails p o op w t Hreq
                   ltac:(intros Hc; by rewrite Hon in Hc)), Hon.
        cbn [snd statusOrError]. split; [done|]. by intros (? & ? & _ & ? & _).
    + split; [|by intros (? & ? & ? & _)].
      destruct op as [|v|]; cbn [mutation_of] in *; run_operation; rewrite Hreq;
        repeat match goal with
               | |- context [match ?x with _ => _ end] =>
                   lazymatch x with
                   | eventLogger_log _ _ => destruct x
                   | callback _ _ => destruct x
                   | onError _ => destruct x
                   | onDidRemove _ => destruct x
                   | onEmailVerify _ => destruct x
                   | onEmailResendVerification _ => destruct x
                   end; cbn [statusOrError effects fst snd perform outcome]
               end; done.
  - unfold render. cbn [disabled]. by destruct (statusOrError w').
Qed.

(** X24. Every operation sends exactly one request, the mutation of the
    operation with the user and the email of the props, before anything
    else it does; whatever follows, it sends no second request. *)
Theorem one_request p o op w :
  exists rest,
    effects (snd (start asError p o op w))
      = effects w ++ Requested (mutation_of p op) :: rest /\
    forall m, Requested m ∉ rest.
Proof.
  destruct op as [|v|]; cbn [mutation_of]; run_operation;
    repeat match goal with
           | |- context [match ?x with _ => _ end] =>
               lazymatch x with
               | requestGraphQL _ _ => destruct x
               | eventLogger_log _ _ => destruct x
               | callback _ _ => destruct x
               | onError _ => destruct x
               | onDidRemove _ => destruct x
               | onEmailVerify _ => destruct x
               | onEmailResendVerification _ => destruct x
               end; cbn [statusOrError effects fst snd]
           end;
    (eexists; split;
     [rewrite <- ?(assoc_L (++)); reflexivity
     |intros m Hin;
      repeat (apply elem_of_cons in Hin as [Hin|Hin]; [discriminate Hin|]);
      by apply elem_of_nil in Hin]).
Qed.

End Facts.

End UserEmailFacts.

(** Removing an address: the mutation, the event, the callback. *)
Lemma operation_succeeds_witness :
  UserEmail.start id example_props outside_ok UserEmail.Remove fresh_world =
    (inl tt,
     {| UserEmail.statusOrError := UserEmail.Undefined;
        UserEmail.effects :=
          [UserEmail.Requested (UserEmail.RemoveUserEmail "VXNlcjox" "a@example.com");
           UserEmail.Logged "UserEmailAddressDeleted";
           UserEmail.OnDidRemove "a@example.com"] |}).
Proof.
  apply (UserEmailFacts.operation_succeeds id example_props outside_ok
           UserEmail.Remove fresh_world).
  - reflexivity.
  - reflexivity.
  - intros e _. reflexivity.
Defined.

(** The server is down: the error is shown, the buttons work again. *)
Lemma operation_fails_witness :
  let w' := snd (UserEmail.start id example_props outside_down UserEmail.Resend fresh_world) in
  UserEmail.errorAlert (UserEmail.render example_props (UserEmail.statusOrError w'))
    = Some "network error" /\
  UserEmail.disabled (UserEmail.render example_props (UserEmail.statusOrError w')) = false.
Proof.
  destruct (UserEmailFacts.operation_fails id example_props outside_down
              UserEmail.Resend fresh_world "network error" eq_refl) as [_ Hview].
  - discriminate.
  - exact (Hview eq_refl).
Defined.
